(** * AIVory Monitor Deno agent: capture pipeline and outbound transport

    A shallow embedding of [src/config.ts], [src/capture/exception-handler.ts],
    [src/transport/backend-connection.ts] and [src/mod.ts].

    Conventions of the embedding.
    - JavaScript strings are [string]: a sequence of code units, here the
      8-bit ones.  [String.length] is the [length] property.
    - JavaScript numbers that the code uses as counters, sizes, limits and
      line numbers are integers ([Z] or [N]).  The numbers the constructor
      reads from the environment have a type of their own, with NaN, the
      rounding above 2^53 and the infinities.
    - Objects live in a heap addressed by [nat]; a value refers to an object
      through [VRef], so shared and self-referential structures are ordinary
      heaps.
    - Code that may throw returns a [Result].
    - Services of the runtime whose text is not part of the repository
      ([Deno.inspect], [JSON.stringify], [JSON.parse], [Date.prototype.toISOString]
      on a valid date, the URL check of the [WebSocket] constructor) are the
      fields of the class [Runtime]; where the code lets such a service throw,
      a field says when it does.  Console output is not modelled. *)

From Stdlib Require Import ZArith NArith QArith String Ascii List Lia DecimalString.
From Stdlib Require Import DecimalPos DecimalN.
From Stdlib Require HexadecimalString.
From stdpp Require Import base option list gmap strings.
Import ListNotations.

Set Warnings "-register-all".

Local Open Scope string_scope.
Local Open Scope Z_scope.

(** ** Results of code that may throw *)

Inductive JsException :=
| RangeError (msg : string)
| TypeError (msg : string).

Inductive Result (A : Type) :=
| Ok (a : A)
| Throw (e : JsException)
| OutOfFuel.
Arguments Ok {A} a.
Arguments Throw {A} e.
Arguments OutOfFuel {A}.

Global Instance Result_bind : MBind Result := fun A B k r =>
  match r with
  | Ok a => k a
  | Throw e => Throw e
  | OutOfFuel => OutOfFuel
  end.

Global Instance Result_ret : MRet Result := fun A a => Ok a.

(** ** JavaScript string operations used by the code *)

Module JsString.

Definition chars (s : string) : list ascii := list_ascii_of_string s.
Definition of_chars (cs : list ascii) : string := string_of_list_ascii cs.

Definition code (c : ascii) : N := N_of_ascii c.

(** White space as [trim] and [\s] see it: TAB, LF, VT, FF, CR, SP, NBSP. *)
Definition is_whitespace (c : ascii) : bool :=
  let n := code c in
  ((9 <=? n) && (n <=? 13) || (n =? 32) || (n =? 160))%N.

(** The line terminators, which [.] does not match: LF and CR. *)
Definition is_line_terminator (c : ascii) : bool :=
  let n := code c in ((n =? 10) || (n =? 13))%N.

Definition is_digit (c : ascii) : bool :=
  let n := code c in ((48 <=? n) && (n <=? 57))%N.

Fixpoint span {A} (p : A -> bool) (l : list A) : list A * list A :=
  match l with
  | [] => ([], [])
  | x :: l' =>
      if p x then let '(yes, rest) := span p l' in (x :: yes, rest)
      else ([], l)
  end.

Definition trimStart_chars (cs : list ascii) : list ascii :=
  snd (span is_whitespace cs).

(** [s.trim()] *)
Definition trim (s : string) : string :=
  of_chars (rev (trimStart_chars (rev (trimStart_chars (chars s))))).

(** [s.startsWith(p)] *)
Definition startsWith (p s : string) : bool := String.prefix p s.

(** [s.includes(needle)] *)
Fixpoint includes (needle s : string) : bool :=
  String.prefix needle s ||
  match s with
  | EmptyString => false
  | String _ s' => includes needle s'
  end.

(** [s.slice(n)] for a non-negative [n] *)
Definition slice_from (n : nat) (s : string) : string :=
  String.substring n (String.length s - n) s.

(** The index that [slice(0, e)] stops at, for a receiver of length [len]:
    a negative [e] counts from the end. *)
Definition slice_end (e : Z) (len : nat) : nat :=
  if e <? 0 then Z.to_nat (Z.max (Z.of_nat len + e) 0)
  else Z.to_nat (Z.min e (Z.of_nat len)).

(** [s.slice(0, e)] *)
Definition slice0 (e : Z) (s : string) : string :=
  String.substring 0 (slice_end e (String.length s)) s.

(** [s.replace(needle, "")]: the first occurrence is removed. *)
Fixpoint remove_first (needle s : string) : string :=
  if String.prefix needle s then slice_from (String.length needle) s
  else
    match s with
    | EmptyString => EmptyString
    | String c s' => String c (remove_first needle s')
    end.

(** [s.split(sep)] for a one-character separator: never empty. *)
Fixpoint split_chars (sep : ascii -> bool) (cs : list ascii) : list (list ascii) :=
  match cs with
  | [] => [[]]
  | c :: cs' =>
      if sep c then [] :: split_chars sep cs'
      else
        match split_chars sep cs' with
        | [] => [[c]]
        | part :: parts => (c :: part) :: parts
        end
  end.

Definition split (sep : ascii -> bool) (s : string) : list string :=
  of_chars <$> split_chars sep (chars s).

(** Decimal text of a number, as string conversion and template literals
    produce it for integers. *)
Definition of_Z (z : Z) : string := NilZero.string_of_int (Z.to_int z).
Definition of_N (n : N) : string := of_Z (Z.of_N n).
Definition of_nat (n : nat) : string := of_Z (Z.of_nat n).

(** [parseInt(digits, 10)] on a string of decimal digits *)
Definition parseInt (digits : string) : N :=
  fold_left (fun acc c => (10 * acc + (code c - 48))%N) (chars digits) 0%N.

Definition no_line_terminator (cs : list ascii) : bool :=
  forallb (fun c => negb (is_line_terminator c)) cs.

Definition is_char (x c : ascii) : bool := bool_decide (c = x).

Definition nonnil {A} (l : list A) : bool :=
  match l with [] => false | _ :: _ => true end.

(** The groups of [/^(.+):(\d+):(\d+)$/] on a list of characters.  The
    pattern is anchored at both ends, so the two digit runs are read from
    the end; what is left before the second colon is group 1. *)
Definition location_groups (cs : list ascii)
    : option (list ascii * list ascii * list ascii) :=
  let '(d3, r1) := span is_digit (rev cs) in
  match r1 with
  | colon2 :: r2 =>
      let '(d2, r3) := span is_digit r2 in
      match r3 with
      | colon1 :: g1 =>
          if is_char ":" colon2 && is_char ":" colon1
             && nonnil d3 && nonnil d2 && nonnil g1 && no_line_terminator g1
          then Some (rev g1, rev d2, rev d3)
          else None
      | [] => None
      end
  | [] => None
  end.

(** [s.match(/^(.+):(\d+):(\d+)$/)] *)
Definition match_location (s : string) : option (string * string * string) :=
  (fun g => (of_chars g.1.1, of_chars g.1.2, of_chars g.2))
    <$> location_groups (chars s).

(** What must follow group 1 of [/^(.+?)\s+\((.+)\)$/]: a run of white
    space, an opening parenthesis, group 2, and a closing parenthesis at the
    end of the input.  The run is the longest one, since a shorter run is
    followed by white space and not by the parenthesis. *)
Definition func_tail (cs : list ascii) : option (list ascii) :=
  let '(blank, rest) := span is_whitespace cs in
  match rest with
  | open :: inner =>
      match rev inner with
      | close :: g2_rev =>
          if is_char "(" open && is_char ")" close
             && nonnil blank && nonnil g2_rev && no_line_terminator g2_rev
          then Some (rev g2_rev)
          else None
      | [] => None
      end
  | [] => None
  end.

(** The lazy group 1 is the shortest non-empty prefix after which the tail
    matches; [g1_rev] is the prefix read so far, last character first. *)
Fixpoint func_scan (g1_rev cs : list ascii) : option (list ascii * list ascii) :=
  match cs with
  | [] => None
  | c :: cs' =>
      match (if nonnil g1_rev then func_tail cs else None) with
      | Some g2 => Some (rev g1_rev, g2)
      | None =>
          if is_line_terminator c then None
          else func_scan (c :: g1_rev) cs'
      end
  end.

Definition func_groups (cs : list ascii) : option (list ascii * list ascii) :=
  func_scan [] cs.

(** [s.match(/^(.+?)\s+\((.+)\)$/)] *)
Definition match_func (s : string) : option (string * string) :=
  (fun g => (of_chars g.1, of_chars g.2)) <$> func_groups (chars s).

End JsString.

(** ** SHA-256 ([createHash('sha256')] of [node:crypto]), FIPS 180-4 *)

Module Sha256.
Local Open Scope N_scope.

Definition add32 (x y : N) : N := (x + y) mod 2 ^ 32.
Definition rotr (n x : N) : N :=
  N.lor (N.shiftr x n) (N.shiftl x (32 - n) mod 2 ^ 32).
Definition not32 (x : N) : N := N.lxor x (2 ^ 32 - 1).

Definition Ch (x y z : N) := N.lxor (N.land x y) (N.land (not32 x) z).
Definition Maj (x y z : N) :=
  N.lxor (N.lxor (N.land x y) (N.land x z)) (N.land y z).
Definition Sigma0 (x : N) := N.lxor (N.lxor (rotr 2 x) (rotr 13 x)) (rotr 22 x).
Definition Sigma1 (x : N) := N.lxor (N.lxor (rotr 6 x) (rotr 11 x)) (rotr 25 x).
Definition sigma0 (x : N) := N.lxor (N.lxor (rotr 7 x) (rotr 18 x)) (N.shiftr x 3).
Definition sigma1 (x : N) := N.lxor (N.lxor (rotr 17 x) (rotr 19 x)) (N.shiftr x 10).

(** The first 64 primes. *)
Definition primes : list N :=
  [2; 3; 5; 7; 11; 13; 17; 19; 23; 29; 31; 37; 41; 43; 47; 53; 59; 61; 67; 71;
   73; 79; 83; 89; 97; 101; 103; 107; 109; 113; 127; 131; 137; 139; 149; 151;
   157; 163; 167; 173; 179; 181; 191; 193; 197; 199; 211; 223; 227; 229; 233;
   239; 241; 251; 257; 263; 269; 271; 277; 281; 283; 293; 307; 311].

(** Integer cube root, bit by bit from the top. *)
Fixpoint cube_root_bits (bits : nat) (n r : N) : N :=
  match bits with
  | O => r
  | S b =>
      let r' := r + 2 ^ N.of_nat b in
      cube_root_bits b n (if r' ^ 3 <=? n then r' else r)
  end.

Definition cube_root (n : N) : N := cube_root_bits 40 n 0.

(** The round constants: the first 32 bits of the fractional parts of the
    cube roots of the first 64 primes. *)
Definition K : list N :=
  Eval vm_compute in map (fun q => cube_root (q * 2 ^ 96) mod 2 ^ 32) primes.

Record State := mkState { ha : N; hb : N; hc : N; hd : N; he : N; hf : N; hg : N; hh : N }.

(** The initial hash value: the first 32 bits of the fractional parts of
    the square roots of the first 8 primes. *)
Definition frac_sqrt (q : N) : N := N.sqrt (q * 2 ^ 64) mod 2 ^ 32.

Definition H0 : State :=
  Eval vm_compute in
    mkState (frac_sqrt 2) (frac_sqrt 3) (frac_sqrt 5) (frac_sqrt 7)
            (frac_sqrt 11) (frac_sqrt 13) (frac_sqrt 17) (frac_sqrt 19).

(** UTF-8 bytes of a string of 8-bit code units. *)
Definition utf8 (s : string) : list N :=
  flat_map (fun c =>
    let u := N_of_ascii c in
    if u <? 128 then [u] else [N.lor 192 (N.shiftr u 6); N.lor 128 (N.land u 63)])
    (list_ascii_of_string s).

(** Padding: a 1 bit, zeros up to 56 modulo 64 bytes, the bit length on 8 bytes. *)
Definition be_bytes (count : nat) (x : N) : list N :=
  rev (map (fun i => N.shiftr x (8 * N.of_nat i) mod 256) (seq 0 count)).

Definition pad (msg : list N) : list N :=
  let len := N.of_nat (length msg) in
  let zeros := N.to_nat ((119 - len mod 64) mod 64) in
  msg ++ [128] ++ repeat 0 zeros ++ be_bytes 8 (8 * len).

Definition be_word (bs : list N) : N :=
  fold_left (fun acc b => 256 * acc + b) bs 0.

Fixpoint chunks (fuel size : nat) (l : list N) : list (list N) :=
  match fuel, l with
  | S fuel', _ :: _ => take size l :: chunks fuel' size (drop size l)
  | _, _ => []
  end.

Definition words_of_block (block : list N) : list N :=
  be_word <$> chunks 16 4 block.

(** Message schedule, latest word first. *)
Fixpoint schedule (rounds : nat) (w_rev : list N) : list N :=
  match rounds with
  | O => w_rev
  | S rounds' =>
      let w := nth 1 w_rev 0 in
      let x := nth 6 w_rev 0 in
      let y := nth 14 w_rev 0 in
      let z := nth 15 w_rev 0 in
      schedule rounds' (add32 (add32 (add32 (sigma1 w) x) (sigma0 y)) z :: w_rev)
  end.

Definition round (s : State) (kw : N * N) : State :=
  let t1 := add32 (add32 (add32 (add32 (hh s) (Sigma1 (he s)))
                    (Ch (he s) (hf s) (hg s))) (fst kw)) (snd kw) in
  let t2 := add32 (Sigma0 (ha s)) (Maj (ha s) (hb s) (hc s)) in
  mkState (add32 t1 t2) (ha s) (hb s) (hc s) (add32 (hd s) t1) (he s) (hf s) (hg s).

Definition compress (s : State) (block : list N) : State :=
  let w := rev (schedule 48 (rev (words_of_block block))) in
  let r := fold_left round (combine K w) s in
  mkState (add32 (ha s) (ha r)) (add32 (hb s) (hb r)) (add32 (hc s) (hc r))
          (add32 (hd s) (hd r)) (add32 (he s) (he r)) (add32 (hf s) (hf r))
          (add32 (hg s) (hg r)) (add32 (hh s) (hh r)).

Definition digest (msg : list N) : State :=
  let padded := pad msg in
  fold_left compress (chunks (length padded) 64 padded) H0.

Definition hex_digit (n : N) : ascii :=
  match n mod 16 with
  | 0 => "0" | 1 => "1" | 2 => "2" | 3 => "3" | 4 => "4" | 5 => "5" | 6 => "6"
  | 7 => "7" | 8 => "8" | 9 => "9" | 10 => "a" | 11 => "b" | 12 => "c"
  | 13 => "d" | 14 => "e" | _ => "f"
  end%char.

Definition hex32 (x : N) (rest : string) : string :=
  String (hex_digit (N.shiftr x 28)) (String (hex_digit (N.shiftr x 24))
  (String (hex_digit (N.shiftr x 20)) (String (hex_digit (N.shiftr x 16))
  (String (hex_digit (N.shiftr x 12)) (String (hex_digit (N.shiftr x 8))
  (String (hex_digit (N.shiftr x 4)) (String (hex_digit x) rest))))))).

(** [hash.digest('hex')] *)
Definition hex (s : State) : string :=
  hex32 (ha s) (hex32 (hb s) (hex32 (hc s) (hex32 (hd s)
  (hex32 (he s) (hex32 (hf s) (hex32 (hg s) (hex32 (hh s) ""))))))).

(** [createHash('sha256').update(text).digest('hex')] *)
Definition sha256_hex (text : string) : string := hex (digest (utf8 text)).

End Sha256.

(** ** Data model *)

(** Runtime values.  Functions are kept apart from the other objects because
    the code never looks inside them. *)
Inductive Value :=
| VNull
| VUndefined
| VBoolean (b : bool)
| VNumber (n : Z)
| VBigInt (n : Z)
| VString (s : string)
| VSymbol (description : option string)
| VFunction (fname : string)
| VRef (a : nat).

(** Heap objects, by the classes the serializer tells apart.  [props] are the
    own enumerable string-keyed data properties in [Object.keys] order;
    [ctor] is [value.constructor?.name].  A date whose time value is NaN is
    [ODate None].  Arrays are dense. *)
Inductive Obj :=
| OArray (elems : list Value)
| ODate (time : option Z)
| OError (ename emessage : string)
| OMap (size : N)
| OSet (size : N)
| OURL (href : string)
| OPlain (ctor : option string) (props : list (string * Value)).

Definition Heap := nat -> Obj.

Inductive CapturedVariable := mkCapturedVariable {
  name : string;
  type : string;
  value : string;
  isNull : bool;
  isTruncated : bool;
  children : option (list (string * CapturedVariable));
  arrayElements : option (list CapturedVariable);
  arrayLength : option Z
}.

Record StackFrame := mkStackFrame {
  methodName : string;
  fileName : option string;
  filePath : option string;
  lineNumber : option N;
  columnNumber : option N;
  isNative : bool
}.

(** The [Error] handed to the capture pipeline. *)
Record ErrorObject := mkErrorObject {
  error_name : string;
  error_message : string;
  error_stack : option string
}.

Record User := mkUser {
  user_id : option string;
  user_email : option string;
  user_username : option string
}.

(** Values of the [context] mapping: what the caller put there, or the
    object returned by [getUser()]. *)
Inductive ContextValue :=
| CtxValue (v : Value)
| CtxUser (u : User).

(** A JavaScript object used as a string-keyed mapping, in key order. *)
Definition Dict (A : Type) := list (string * A).

Record ExceptionPayload := mkExceptionPayload {
  id : string;
  exceptionType : string;
  message : string;
  fingerprint : string;
  stackTrace : list StackFrame;
  localVariables : Dict CapturedVariable;
  context : Dict ContextValue;
  capturedAt : string
}.

(** The two outbound wire messages, before [JSON.stringify]. *)
Inductive Envelope :=
| RegisterEnvelope (api_key agent_id host environment : string) (timestamp : Z)
| ExceptionEnvelope (capture : ExceptionPayload) (agent_id environment : string)
    (timestamp : Z).

Record AgentConfig := mkAgentConfig {
  apiKey : string;
  backendUrl : string;
  environment : string;
  samplingRate : Q;
  maxCaptureDepth : Z;
  maxStringLength : Z;
  maxCollectionSize : Z;
  debug : bool;
  hostname : string;
  agentId : string;
  customContext : Dict Value;
  user : User
}.

Class Runtime := {
  (** [Deno.inspect(value, { depth: 0, colors: false })] *)
  Deno_inspect : Heap -> Value -> string;
  (** [JSON.stringify] of an outbound message, when it returns *)
  JSON_stringify : Envelope -> string;
  (** The message of the [TypeError] that [JSON.stringify] throws on the
      message carrying this report, as it does when a context value is or
      holds a BigInt or is cyclic; [None] when it returns.  The registration
      message holds strings only and is always serialized. *)
  JSON_throws : ExceptionPayload -> option string;
  (** [JSON.parse(data).type] when parsing succeeds and the field is a
      string; [None] when the handler's [try] block throws or nothing matches *)
  JSON_parse_type : string -> option string;
  (** [toISOString()] of a date with a valid time value *)
  Date_toISOString : Z -> string;
  (** whether [new WebSocket(url)] accepts the URL (it throws otherwise) *)
  WebSocket_accepts : string -> bool
}.

(** ** Mappings in key order *)

Module Dict.

Fixpoint get {A} (key : string) (d : Dict A) : option A :=
  match d with
  | [] => None
  | (k, v) :: d' => if bool_decide (k = key) then Some v else get key d'
  end.

(** [d[key] = v]: an existing key keeps its place, a new key goes last. *)
Fixpoint set {A} (key : string) (v : A) (d : Dict A) : Dict A :=
  match d with
  | [] => [(key, v)]
  | (k, v0) :: d' =>
      if bool_decide (k = key) then (k, v) :: d' else (k, v0) :: set key v d'
  end.

(** [{ ...target, ...source }] *)
Definition assign {A} (target source : Dict A) : Dict A :=
  fold_left (fun d kv => set (fst kv) (snd kv) d) source target.

(** [Object.keys(d)] *)
Definition keys {A} (d : Dict A) : list string := fst <$> d.

End Dict.

(** ** Configuration ([AgentConfig]) *)

Module Config.

(** [shouldSample()]; [draw] is the value of [Math.random()]. *)
Definition shouldSample (config : AgentConfig) (draw : Q) : bool :=
  if Qle_bool 1 (samplingRate config) then true
  else if Qle_bool (samplingRate config) 0 then false
  else negb (Qle_bool (samplingRate config) draw).

Definition with_context_user (ctx : Dict Value) (u : User) (c : AgentConfig) :=
  mkAgentConfig (apiKey c) (backendUrl c) (environment c) (samplingRate c)
    (maxCaptureDepth c) (maxStringLength c) (maxCollectionSize c) (debug c)
    (hostname c) (agentId c) ctx u.

Definition setCustomContext (ctx : Dict Value) (c : AgentConfig) : AgentConfig :=
  with_context_user ctx (user c) c.

Definition getCustomContext (c : AgentConfig) : Dict Value := customContext c.

Definition setUser (u : User) (c : AgentConfig) : AgentConfig :=
  with_context_user (customContext c) u c.

Definition getUser (c : AgentConfig) : User := user c.

End Config.

(** ** Capture pipeline ([ExceptionHandler]) *)

Module Capture.

(** [x || fallback] on strings: the empty string is falsy. *)
Definition or_else (x fallback : string) : string :=
  if bool_decide (x = "") then fallback else x.

(** [list.slice(0, e)] *)
Definition slice0 {A} (e : Z) (l : list A) : list A :=
  take (JsString.slice_end e (length l)) l.

Definition simple (nm ty val : string) (null truncated : bool) : CapturedVariable :=
  mkCapturedVariable nm ty val null truncated None None None.

Section WithRuntime.
Context {rt : Runtime}.
Variable config : AgentConfig.

Section Serializer.
Variable heap : Heap.

(** [getType(value)] *)
Definition getType (v : Value) : string :=
  match v with
  | VNull => "null"
  | VUndefined => "undefined"
  | VBoolean _ => "boolean"
  | VNumber _ => "number"
  | VBigInt _ => "bigint"
  | VString _ => "string"
  | VSymbol _ => "symbol"
  | VFunction _ => "function"
  | VRef a => match heap a with OArray _ => "array" | _ => "object" end
  end.

(** [items.map((item, i) => f(`[${i}]`, item))], stopping at the first
    element whose capture throws. *)
Fixpoint capture_items (f : string -> Value -> Result CapturedVariable)
    (i : nat) (items : list Value) : Result (list CapturedVariable) :=
  match items with
  | [] => Ok []
  | item :: rest =>
      cv ← f ("[" ++ JsString.of_nat i ++ "]") item;
      cvs ← capture_items f (S i) rest;
      mret (cv :: cvs)
  end.

(** [for (const key of keys) children[key] = f(key, value[key])] *)
Fixpoint capture_children (f : string -> Value -> Result CapturedVariable)
    (props : Dict Value) (keys : list string) (acc : Dict CapturedVariable)
    : Result (Dict CapturedVariable) :=
  match keys with
  | [] => Ok acc
  | key :: rest =>
      cv ← f key (default VUndefined (Dict.get key props));
      capture_children f props rest (Dict.set key cv acc)
  end.

(** [captureValue(name, value, depth)].  [fuel] bounds the nesting of calls;
    [captureValue] below supplies enough of it.  The [default] branch of the
    [switch] is not reached by any value and has no counterpart. *)
Fixpoint captureValue_fuel (fuel : nat) (nm : string) (v : Value) (depth : Z)
    : Result CapturedVariable :=
  match fuel with
  | O => OutOfFuel
  | S fuel' =>
      let ty := getType v in
      match v with
      | VNull => Ok (simple nm ty "null" true false)
      | VUndefined => Ok (simple nm "undefined" "undefined" false false)
      | VBoolean b => Ok (simple nm ty (if b then "true" else "false") false false)
      | VNumber n | VBigInt n => Ok (simple nm ty (JsString.of_Z n) false false)
      | VString s =>
          if Z.of_nat (String.length s) >? maxStringLength config
          then Ok (simple nm ty (JsString.slice0 (maxStringLength config) s) false true)
          else Ok (simple nm ty s false false)
      | VFunction fname =>
          Ok (simple nm "function"
                ("[Function: " ++ or_else fname "anonymous" ++ "]") false false)
      | VSymbol description =>
          Ok (simple nm ty ("Symbol(" ++ default "" description ++ ")") false false)
      | VRef a =>
          match heap a with
          | OArray elems =>
              let len := Z.of_nat (length elems) in
              let val := "Array(" ++ JsString.of_Z len ++ ")" in
              if (depth <? maxCaptureDepth config) && (len <=? maxCollectionSize config)
              then
                els ← capture_items
                        (fun n item => captureValue_fuel fuel' n item (depth + 1))
                        0%nat (slice0 (maxCollectionSize config) elems);
                mret (mkCapturedVariable nm "array" val false false
                        None (Some els) (Some len))
              else
                Ok (mkCapturedVariable nm "array" val false false
                      None None (Some len))
          | ODate None => Throw (RangeError "Invalid time value")
          | ODate (Some t) => Ok (simple nm "Date" (Date_toISOString t) false false)
          | OError ename emessage =>
              Ok (simple nm (or_else ename "Error") emessage false false)
          | OMap size => Ok (simple nm "Map" ("Map(" ++ JsString.of_N size ++ ")") false false)
          | OSet size => Ok (simple nm "Set" ("Set(" ++ JsString.of_N size ++ ")") false false)
          | OURL href => Ok (simple nm "URL" href false false)
          | OPlain ctor props =>
              let ty' := or_else (default "" ctor) "Object" in
              let val := Deno_inspect heap v in
              if depth <? maxCaptureDepth config then
                let keys := slice0 (maxCollectionSize config) (Dict.keys props) in
                kids ← capture_children
                         (fun k item => captureValue_fuel fuel' k item (depth + 1))
                         props keys [];
                mret (mkCapturedVariable nm ty' val false false
                        (match Dict.keys kids with [] => None | _ :: _ => Some kids end)
                        None None)
              else Ok (simple nm ty' val false false)
          end
      end
  end.

(** Calls nest at most [maxCaptureDepth - depth] deep below the first one. *)
Definition fuel_for (depth : Z) : nat :=
  S (Z.to_nat (maxCaptureDepth config - depth)).

Definition captureValue (nm : string) (v : Value) (depth : Z)
    : Result CapturedVariable :=
  captureValue_fuel (fuel_for depth) nm v depth.

(** [captureVariables(vars, depth = 0)] *)
Fixpoint captureVariables_loop (entries : Dict Value) (depth : Z)
    (result : Dict CapturedVariable) : Result (Dict CapturedVariable) :=
  match entries with
  | [] => Ok result
  | (nm, v) :: rest =>
      cv ← captureValue nm v depth;
      captureVariables_loop rest depth (Dict.set nm cv result)
  end.

Definition captureVariables (vars : Dict Value) (depth : Z)
    : Result (Dict CapturedVariable) :=
  captureVariables_loop vars depth [].

End Serializer.

(** *** Stack traces *)

Definition is_slash (c : ascii) : bool :=
  bool_decide (c = "/"%char) || bool_decide (c = "\"%char).

(** [getFileName(filePath)] *)
Definition getFileName (path : string) : string :=
  List.last (JsString.split is_slash path) "".

Definition located (method path line column : string) : StackFrame :=
  mkStackFrame method (Some (getFileName path)) (Some path)
    (Some (JsString.parseInt line)) (Some (JsString.parseInt column)) false.

(** [parseLocation(methodName, location)] *)
Definition parseLocation (method location : string) : StackFrame :=
  if bool_decide (location = "native") || JsString.includes "[native code]" location
  then mkStackFrame method None None None None true
  else
    match JsString.match_location location with
    | Some (path, line, column) => located method path line column
    | None => mkStackFrame method None (Some location) None None false
    end.

(** [parseStackFrame(line)] *)
Definition parseStackFrame (line : string) : option StackFrame :=
  let trimmed := JsString.trim line in
  if negb (JsString.startsWith "at " trimmed) then None
  else
    let content := JsString.slice_from 3 trimmed in
    match JsString.match_func content with
    | Some (method, location) => Some (parseLocation method location)
    | None =>
        match JsString.match_location content with
        | Some (path, line, column) => Some (located "<anonymous>" path line column)
        | None =>
            if JsString.includes "[native code]" content
               || JsString.startsWith "native" content
            then Some (mkStackFrame (JsString.remove_first " [native code]" content)
                         None None None None true)
            else Some (mkStackFrame content None None None None false)
        end
    end.

(** The [for] loop of [parseStackTrace]. *)
Fixpoint parseStackTrace_loop (lines : list string) (frames : list StackFrame)
    : list StackFrame :=
  match lines with
  | [] => frames
  | line :: rest =>
      let frames' :=
        match parseStackFrame line with
        | Some frame => (frames ++ [frame])%list
        | None => frames
        end in
      if (50 <=? length frames')%nat then frames'
      else parseStackTrace_loop rest frames'
  end.

Definition is_newline (c : ascii) : bool := bool_decide (c = "010"%char).

(** [parseStackTrace(error)] *)
Definition parseStackTrace (error : ErrorObject) : list StackFrame :=
  let stack := default "" (error_stack error) in
  parseStackTrace_loop (tail (JsString.split is_newline stack)) [].

(** *** Fingerprint *)

(** The [for] loop of [calculateFingerprint]. *)
Fixpoint fingerprint_loop (frames : list StackFrame) (added : nat)
    (parts : list string) : list string :=
  match frames with
  | [] => parts
  | frame :: rest =>
      if (5 <=? added)%nat then parts
      else if isNative frame then fingerprint_loop rest added parts
      else
        fingerprint_loop rest (S added)
          (app parts [methodName frame ++ ":"
                      ++ JsString.of_N (default 0%N (lineNumber frame))])
  end.

(** [parts.join(':')] *)
Fixpoint join_colon (parts : list string) : string :=
  match parts with
  | [] => ""
  | [p] => p
  | p :: rest => p ++ ":" ++ join_colon rest
  end.

Definition fingerprint_parts (error : ErrorObject) (frames : list StackFrame)
    : list string :=
  fingerprint_loop frames 0%nat [or_else (error_name error) "Error"].

(** [calculateFingerprint(error, stackTrace)] *)
Definition calculateFingerprint (error : ErrorObject) (frames : list StackFrame)
    : string :=
  String.substring 0 16
    (Sha256.sha256_hex (join_colon (fingerprint_parts error frames))).

(** *** Reports *)

(** [createCapture(error, context)]; [uuid] is [randomUUID()] and [isoNow]
    is [new Date().toISOString()]. *)
Definition createCapture (error : ErrorObject) (ctx : option (Dict Value))
    (uuid isoNow : string) : ExceptionPayload :=
  let frames := parseStackTrace error in
  let fp := calculateFingerprint error frames in
  let custom := prod_map (fun k => k) CtxValue <$> Config.getCustomContext config in
  let supplied := prod_map (fun k => k) CtxValue <$> default [] ctx in
  mkExceptionPayload uuid (or_else (error_name error) "Error")
    (error_message error) fp frames []
    (Dict.set "user" (CtxUser (Config.getUser config))
       (Dict.assign (Dict.assign [] custom) supplied))
    isoNow.

Definition with_localVariables (vars : Dict CapturedVariable) (p : ExceptionPayload) :=
  mkExceptionPayload (id p) (exceptionType p) (message p) (fingerprint p)
    (stackTrace p) vars (context p) (capturedAt p).

End WithRuntime.

End Capture.

(** ** Outbound transport ([BackendConnection]) *)

Module Transport.

Inductive ReadyState := CONNECTING | OPEN | CLOSING | CLOSED.

Global Instance ReadyState_eq_dec : EqDecision ReadyState.
Proof. solve_decision. Defined.

(** A socket as the runtime keeps it.  Every socket created by [connect]
    carries the four handlers, which close over the connection object; they
    stay attached when the connection forgets the socket. *)
Record WebSocket := mkWebSocket {
  readyState : ReadyState;
  transmitted : list string;
  closeCall : option (N * string)
}.

Definition maxReconnectAttempts : N := 10.

Record BackendConnection := mkBackendConnection {
  ws : option nat;
  authenticated : bool;
  reconnectAttempts : N;
  messageQueue : list string;
  reconnectTimer : option nat
}.

(** The connection object together with the part of the runtime it acts on:
    all sockets created so far (a socket is named by its index) and the
    pending timers with their delays in milliseconds. *)
Record World := mkWorld {
  conn : BackendConnection;
  sockets : list WebSocket;
  timers : gmap nat N;
  nextTimer : nat
}.

Definition initialConnection : BackendConnection :=
  mkBackendConnection None false 0%N [] None.

Definition initialWorld : World :=
  mkWorld initialConnection [] ∅ 0%nat.

Definition with_conn (f : BackendConnection -> BackendConnection) (w : World) : World :=
  mkWorld (f (conn w)) (sockets w) (timers w) (nextTimer w).

Definition with_sockets (f : list WebSocket -> list WebSocket) (w : World) : World :=
  mkWorld (conn w) (f (sockets w)) (timers w) (nextTimer w).

Definition set_ws (x : option nat) (c : BackendConnection) :=
  mkBackendConnection x (authenticated c) (reconnectAttempts c) (messageQueue c)
    (reconnectTimer c).
Definition set_authenticated (x : bool) (c : BackendConnection) :=
  mkBackendConnection (ws c) x (reconnectAttempts c) (messageQueue c)
    (reconnectTimer c).
Definition set_reconnectAttempts (x : N) (c : BackendConnection) :=
  mkBackendConnection (ws c) (authenticated c) x (messageQueue c)
    (reconnectTimer c).
Definition set_messageQueue (x : list string) (c : BackendConnection) :=
  mkBackendConnection (ws c) (authenticated c) (reconnectAttempts c) x
    (reconnectTimer c).
Definition set_reconnectTimer (x : option nat) (c : BackendConnection) :=
  mkBackendConnection (ws c) (authenticated c) (reconnectAttempts c)
    (messageQueue c) x.

(** *** The runtime's side of a socket *)

Definition newSocket : WebSocket := mkWebSocket CONNECTING [] None.

(** [socket.send(data)] on an open socket hands the frame to the network. *)
Definition socket_send (data : string) (s : WebSocket) : WebSocket :=
  mkWebSocket (readyState s) (transmitted s ++ [data]) (closeCall s).

(** [socket.close(code, reason)] starts the closing handshake unless the
    socket is already closing or closed. *)
Definition socket_close (code : N) (reason : string) (s : WebSocket) : WebSocket :=
  match readyState s with
  | CONNECTING | OPEN => mkWebSocket CLOSING (transmitted s) (Some (code, reason))
  | CLOSING | CLOSED => s
  end.

Definition socket_set_state (st : ReadyState) (s : WebSocket) : WebSocket :=
  mkWebSocket st (transmitted s) (closeCall s).

Definition readyState_of (w : World) (i : nat) : option ReadyState :=
  readyState <$> sockets w !! i.

(** [this.ws?.readyState === WebSocket.OPEN] *)
Definition ws_is_open (w : World) : bool :=
  match ws (conn w) with
  | Some i => bool_decide (readyState_of w i = Some OPEN)
  | None => false
  end.

(** [this.ws.send(message)], used where the code has just checked that the
    socket is open. *)
Definition ws_send (data : string) (w : World) : World :=
  match ws (conn w) with
  | Some i => with_sockets (alter (socket_send data) i) w
  | None => w
  end.

(** The frames handed so far to the socket the connection holds. *)
Definition sent_on (w : World) : list string :=
  match ws (conn w) with
  | Some i => default [] (transmitted <$> sockets w !! i)
  | None => []
  end.

Section WithRuntime.
Context {rt : Runtime}.
Variable config : AgentConfig.

(** [scheduleReconnect()] *)
Definition reconnectDelay (attempts : N) : N :=
  N.min (1000 * 2 ^ attempts) 30000.

Definition scheduleReconnect (w : World) : World :=
  if (maxReconnectAttempts <=? reconnectAttempts (conn w))%N then w
  else
    let delay := reconnectDelay (reconnectAttempts (conn w)) in
    let c1 := set_reconnectAttempts (reconnectAttempts (conn w) + 1)%N (conn w) in
    let timer := nextTimer w in
    mkWorld (set_reconnectTimer (Some timer) c1) (sockets w)
      (<[timer := delay]> (timers w)) (S timer).

(** [connect()].  The [catch] branch is taken when the constructor throws. *)
Definition connect (w : World) : World :=
  if ws_is_open w then w
  else if WebSocket_accepts (backendUrl config) then
    mkWorld (set_ws (Some (length (sockets w))) (conn w))
      (sockets w ++ [newSocket]) (timers w) (nextTimer w)
  else scheduleReconnect w.

(** [disconnect()] *)
Definition disconnect (w : World) : World :=
  let w1 :=
    match reconnectTimer (conn w) with
    | Some timer =>
        mkWorld (set_reconnectTimer None (conn w)) (sockets w)
          (delete timer (timers w)) (nextTimer w)
    | None => w
    end in
  let w2 :=
    match ws (conn w1) with
    | Some i =>
        with_conn (set_ws None)
          (with_sockets (alter (socket_close 1000 "Agent shutdown") i) w1)
    | None => w1
    end in
  with_conn (set_authenticated false) w2.

(** [send(message)] *)
Definition send (msg : string) (w : World) : World :=
  if ws_is_open w && authenticated (conn w) then ws_send msg w
  else if (length (messageQueue (conn w)) <? 1000)%nat then
    with_conn (set_messageQueue (messageQueue (conn w) ++ [msg])) w
  else w.

(** [sendException(capture)]; [now] is [Date.now()].  The message is built
    before the connection is touched, so a report that cannot be serialized
    throws out of the call. *)
Definition sendException (capture : ExceptionPayload) (now : Z) (w : World)
    : Result World :=
  match JSON_throws capture with
  | Some msg => Throw (TypeError msg)
  | None =>
      Ok (send (JSON_stringify
                  (ExceptionEnvelope capture (agentId config) (environment config) now))
            w)
  end.

(** [authenticate()]: [this.ws?.send(authMessage)].  The call is not guarded
    by a state check; a socket that is not open transmits nothing (the
    runtime throws out of the handler, whose work is done by then). *)
Definition authenticate (now : Z) (w : World) : World :=
  let authMessage :=
    JSON_stringify
      (RegisterEnvelope (apiKey config) (agentId config) (hostname config)
         (environment config) now) in
  if ws_is_open w then ws_send authMessage w else w.

(** [flushQueue()].  One unfolding is one turn of the [while] loop;
    [message] is falsy when it is the empty string. *)
Fixpoint flushQueue_loop (fuel : nat) (w : World) : World :=
  match fuel with
  | O => w
  | S fuel' =>
      match messageQueue (conn w) with
      | [] => w
      | msg :: rest =>
          if ws_is_open w then
            let w1 := with_conn (set_messageQueue rest) w in
            let w2 := if bool_decide (msg = "") then w1 else ws_send msg w1 in
            flushQueue_loop fuel' w2
          else w
      end
  end.

Definition flushQueue (w : World) : World :=
  flushQueue_loop (length (messageQueue (conn w))) w.

(** [handleMessage(data)] *)
Definition handleMessage (data : string) (w : World) : World :=
  match JSON_parse_type data with
  | Some ty =>
      if bool_decide (ty = "registered") then
        flushQueue (with_conn (set_authenticated true) w)
      else w
  | None => w
  end.

(** *** Socket and timer events

    The handlers installed by [connect] on every socket it creates, and the
    timer callback installed by [scheduleReconnect]. *)
Definition onopen (now : Z) (w : World) : World :=
  authenticate now (with_conn (set_reconnectAttempts 0%N) w).

Definition onmessage (data : string) (w : World) : World :=
  handleMessage data w.

Definition onclose (code : N) (w : World) : World :=
  scheduleReconnect (with_conn (set_authenticated false) w).

Definition onerror (w : World) : World := w.

Inductive Event :=
| SocketOpened (i : nat) (now : Z)
| SocketMessage (i : nat) (data : string)
| SocketClosed (i : nat) (code : N)
| SocketErrored (i : nat)
| TimerFired (timer : nat)
| CallConnect
| CallDisconnect
| CallSendException (capture : ExceptionPayload) (now : Z).

(** One turn of the event loop.  An event the runtime cannot deliver in the
    current state (an open event for a socket that is not connecting, a
    timer that is not pending, ...) leaves the world as it is. *)
Definition step (w : World) (e : Event) : World :=
  match e with
  | SocketOpened i now =>
      if bool_decide (readyState_of w i = Some CONNECTING) then
        onopen now (with_sockets (alter (socket_set_state OPEN) i) w)
      else w
  | SocketMessage i data =>
      if bool_decide (readyState_of w i = Some OPEN) then onmessage data w else w
  | SocketClosed i code =>
      match readyState_of w i with
      | Some CLOSED | None => w
      | Some _ => onclose code (with_sockets (alter (socket_set_state CLOSED) i) w)
      end
  | SocketErrored i =>
      match readyState_of w i with
      | Some _ => onerror w
      | None => w
      end
  | TimerFired timer =>
      match timers w !! timer with
      | Some _ =>
          connect (mkWorld (conn w) (sockets w) (delete timer (timers w)) (nextTimer w))
      | None => w
      end
  | CallConnect => connect w
  | CallDisconnect => disconnect w
  | CallSendException capture now =>
      (* a call that throws leaves the connection as it was *)
      match sendException capture now w with
      | Ok w' => w'
      | Throw _ | OutOfFuel => w
      end
  end.

Definition run (w : World) (es : list Event) : World := fold_left step es w.

End WithRuntime.

End Transport.


(** ** The agent: [ExceptionHandler] hooks and the module state of [mod.ts] *)

Module Agent.

Inductive EventType := ErrorEvent | UnhandledRejectionEvent.

Global Instance EventType_eq_dec : EqDecision EventType.
Proof. solve_decision. Defined.

(** What a capture reads from its surroundings: [Math.random()],
    [randomUUID()], [new Date().toISOString()] and [Date.now()]. *)
Record Ambient := mkAmbient {
  draw : Q;
  uuid : string;
  isoNow : string;
  now : Z
}.

(** The objects one successful [init] creates: the configuration, the
    connection (with its sockets and timers) and the handler's flag. *)
Record Instance := mkInstance {
  config : AgentConfig;
  connection : Transport.World;
  installed : bool
}.

(** The process: every instance created so far, the listeners registered on
    [globalThis] in registration order (each closes over the handler of one
    instance), and the module variables of [mod.ts] ([current] stands for
    [config], [connection] and [exceptionHandler], which are set and cleared
    together once the API key is present). *)
Record Process := mkProcess {
  instances : list Instance;
  listeners : list (EventType * nat);
  current : option nat;
  initialized : bool
}.

Definition freshProcess : Process := mkProcess [] [] None false.

Definition with_connection (f : Transport.World -> Transport.World) (a : Instance) :=
  mkInstance (config a) (f (connection a)) (installed a).
Definition with_config (f : AgentConfig -> AgentConfig) (a : Instance) :=
  mkInstance (f (config a)) (connection a) (installed a).
Definition set_installed (x : bool) (a : Instance) :=
  mkInstance (config a) (connection a) x.

Definition update (i : nat) (f : Instance -> Instance) (p : Process) : Process :=
  mkProcess (alter f i (instances p)) (listeners p) (current p) (initialized p).

Section WithRuntime.
Context {rt : Runtime}.

(** [install()] of the handler of instance [i] *)
Definition install (i : nat) (p : Process) : Process :=
  match instances p !! i with
  | Some a =>
      if installed a then p
      else
        mkProcess (alter (set_installed true) i (instances p))
          (listeners p ++ [(ErrorEvent, i); (UnhandledRejectionEvent, i)])
          (current p) (initialized p)
  | None => p
  end.

(** [uninstall()] of the handler of instance [i] *)
Definition uninstall (i : nat) (p : Process) : Process :=
  match instances p !! i with
  | Some a => if negb (installed a) then p else update i (set_installed false) p
  | None => p
  end.

(** [handleException(error, context)] *)
Definition handleException (error : ErrorObject) (ctx : option (Dict Value))
    (amb : Ambient) (a : Instance) : Result Instance :=
  if negb (Config.shouldSample (config a) (draw amb)) then Ok a
  else
    let report := Capture.createCapture (config a) error ctx (uuid amb) (isoNow amb) in
    w ← Transport.sendException (config a) report (now amb) (connection a);
    mret (with_connection (fun _ => w) a).

(** [capture(error, context, localVars)] *)
Definition capture (heap : Heap) (error : ErrorObject) (ctx : option (Dict Value))
    (localVars : option (Dict Value)) (amb : Ambient) (a : Instance)
    : Result Instance :=
  if negb (Config.shouldSample (config a) (draw amb)) then Ok a
  else
    let report := Capture.createCapture (config a) error ctx (uuid amb) (isoNow amb) in
    report' ←
      match localVars with
      | Some vars =>
          captured ← Capture.captureVariables (config a) heap vars 0;
          mret (Capture.with_localVariables captured report)
      | None => mret report
      end;
    w ← Transport.sendException (config a) report' (now amb) (connection a);
    mret (with_connection (fun _ => w) a).

Definition origin (ty : EventType) : Dict Value :=
  [("origin", VString match ty with
                      | ErrorEvent => "error"
                      | UnhandledRejectionEvent => "unhandledrejection"
                      end)].

(** The body of a listener registered by [install]; [error] is the event's
    error, already wrapped in an [Error] when it was not one. *)
Definition listener (ty : EventType) (i : nat) (error : ErrorObject)
    (amb : Ambient) (p : Process) : Result Process :=
  match instances p !! i with
  | Some a =>
      a' ← handleException error (Some (origin ty)) amb a;
      mret (update i (fun _ => a') p)
  | None => Ok p
  end.

(** The runtime dispatches an event of type [ty] to the listeners registered
    for it, in order; the [k]-th listener called reads [ambs k].  What the
    runtime does with an exception that escapes a listener is not part of
    the repository: the dispatch is followed up to the first listener that
    throws, and its result is then that exception. *)
Fixpoint dispatch_to (ls : list (EventType * nat)) (ty : EventType)
    (error : ErrorObject) (ambs : nat -> Ambient) (k : nat) (p : Process)
    : Result Process :=
  match ls with
  | [] => Ok p
  | (ty', i) :: rest =>
      if bool_decide (ty' = ty)
      then
        p' ← listener ty i error (ambs k) p;
        dispatch_to rest ty error ambs (S k) p'
      else dispatch_to rest ty error ambs k p
  end.

Definition dispatch (ty : EventType) (error : ErrorObject) (ambs : nat -> Ambient)
    (p : Process) : Result Process :=
  dispatch_to (listeners p) ty error ambs 0%nat p.

(** [init(options)]; [cfg] is [new AgentConfig(options)]. *)
Definition init (cfg : AgentConfig) (p : Process) : Process :=
  if initialized p then p
  else if bool_decide (apiKey cfg = "") then p
  else
    let i := length (instances p) in
    let a := mkInstance cfg (Transport.connect cfg Transport.initialWorld) false in
    let p1 := mkProcess (instances p ++ [a]) (listeners p) (Some i) (initialized p) in
    let p2 := install i p1 in
    mkProcess (instances p2) (listeners p2) (current p2) true.

(** [captureException(error, context, localVars)] *)
Definition captureException (heap : Heap) (error : ErrorObject)
    (ctx localVars : option (Dict Value)) (amb : Ambient) (p : Process)
    : Result Process :=
  match initialized p, current p with
  | true, Some i =>
      match instances p !! i with
      | Some a =>
          a' ← capture heap error ctx localVars amb a;
          mret (update i (fun _ => a') p)
      | None => Ok p
      end
  | _, _ => Ok p
  end.

(** [setContext(context)] and [setUser(user)] *)
Definition setContext (ctx : Dict Value) (p : Process) : Process :=
  match initialized p, current p with
  | true, Some i => update i (with_config (Config.setCustomContext ctx)) p
  | _, _ => p
  end.

Definition setUser (u : User) (p : Process) : Process :=
  match initialized p, current p with
  | true, Some i => update i (with_config (Config.setUser u)) p
  | _, _ => p
  end.

(** [disconnect()] of the connection of instance [i] *)
Definition disconnect (i : nat) (p : Process) : Process :=
  update i (fun a => with_connection (Transport.disconnect) a) p.

(** [shutdown()] *)
Definition shutdown (p : Process) : Process :=
  if negb (initialized p) then p
  else
    let p1 := match current p with
              | Some i => disconnect i (uninstall i p)
              | None => p
              end in
    mkProcess (instances p1) (listeners p1) None false.

End WithRuntime.

End Agent.

(** ** Notions used to state the properties *)

(** Nesting depth of a captured tree: 0 for a node without captured
    elements or children. *)
Fixpoint height (cv : CapturedVariable) : nat :=
  match cv with
  | mkCapturedVariable _ _ _ _ _ kids els _ =>
      Nat.max
        (match els with
         | Some l =>
             (fix heights (l : list CapturedVariable) : nat :=
                match l with
                | [] => 0%nat
                | c :: l' => Nat.max (S (height c)) (heights l')
                end) l
         | None => 0%nat
         end)
        (match kids with
         | Some l =>
             (fix heights (l : list (string * CapturedVariable)) : nat :=
                match l with
                | [] => 0%nat
                | kc :: l' => Nat.max (S (height (snd kc))) (heights l')
                end) l
         | None => 0%nat
         end)
  end.

(** A result that is a value satisfying [P] or an exception satisfying
    [Q], and in particular not a lack of fuel. *)
Definition result_sat {A} (P : A -> Prop) (Q : JsException -> Prop)
    (r : Result A) : Prop :=
  match r with
  | Ok a => P a
  | Throw e => Q e
  | OutOfFuel => False
  end.

(** The exception thrown for a date without a time value, on a heap that
    holds one. *)
Definition invalid_date (heap : Heap) (e : JsException) : Prop :=
  e = RangeError "Invalid time value" /\ exists a, heap a = ODate None.

(** A tree that fits the depth budget left at [depth]. *)
Definition within (config : AgentConfig) (depth : Z) (cv : CapturedVariable) : Prop :=
  (height cv <= Z.to_nat (maxCaptureDepth config - depth))%nat.

(** What it means for a list of characters to match
    [/^(.+):(\d+):(\d+)$/] with the given groups. *)
Definition location_shape (cs g1 d2 d3 : list ascii) : Prop :=
  cs = (g1 ++ ":"%char :: d2 ++ ":"%char :: d3)%list /\
  g1 <> [] /\ JsString.no_line_terminator g1 = true /\
  d2 <> [] /\ forallb JsString.is_digit d2 = true /\
  d3 <> [] /\ forallb JsString.is_digit d3 = true.

(** What it means to match [/^(.+?)\s+\((.+)\)$/] with groups [g1] and
    [g2] and the white space [ws] between them, leaving aside which of
    several such splits the pattern prefers. *)
Definition func_shape (cs g1 ws g2 : list ascii) : Prop :=
  cs = (g1 ++ ws ++ "("%char :: g2 ++ [")"%char])%list /\
  g1 <> [] /\ JsString.no_line_terminator g1 = true /\
  ws <> [] /\ forallb JsString.is_whitespace ws = true /\
  g2 <> [] /\ JsString.no_line_terminator g2 = true.

(** A message that is truthy, that is, not the empty string. *)
Definition nonempty (s : string) : bool := negb (bool_decide (s = "")).

(** The send queue of the connection of instance [i]. *)
Definition queue_of (i : nat) (p : Agent.Process) : option (list string) :=
  (fun a => Transport.messageQueue (Transport.conn (Agent.connection a)))
    <$> Agent.instances p !! i.

(** A character of lowercase hexadecimal notation. *)
Definition is_lower_hex (c : ascii) : bool :=
  let n := N_of_ascii c in
  ((48 <=? n) && (n <=? 57) || (97 <=? n) && (n <=? 102))%N.

(** What the fingerprint reads of a frame. *)
Definition frame_key (f : StackFrame) : string * option N :=
  (methodName f, lineNumber f).

(** The text a frame contributes to the fingerprint's seed. *)
Definition fingerprint_part (f : StackFrame) : string :=
  methodName f ++ ":" ++ JsString.of_N (default 0%N (lineNumber f)).

(** The first five frames that are not native. *)
Definition top_frames (frames : list StackFrame) : list StackFrame :=
  take 5 (List.filter (fun f => negb (isNative f)) frames).

(** ** A concrete runtime, configuration and traces, for evaluation *)

Module Sample.

Definition runtime : Runtime := {|
  Deno_inspect := fun _ _ => "{}";
  JSON_stringify := fun e =>
    match e with
    | RegisterEnvelope _ agent _ _ _ => "{type:register,agent_id:" ++ agent ++ "}"
    | ExceptionEnvelope report _ _ _ => "{type:exception,id:" ++ id report ++ "}"
    end;
  JSON_throws := fun report =>
    if existsb (fun kv => match snd kv with CtxValue (VBigInt _) => true | _ => false end)
         (context report)
    then Some "Do not know how to serialize a BigInt"
    else None;
  JSON_parse_type := fun data =>
    if bool_decide (data = "{type:registered}") then Some "registered" else None;
  Date_toISOString := fun t => "T" ++ JsString.of_Z t;
  WebSocket_accepts := fun url => String.prefix "ws" url
|}.

Definition config : AgentConfig :=
  mkAgentConfig "key" "wss://api.aivory.net/ws/agent" "production" 1
    10 1000 100 false "host" "agent-1"
    [("release", VString "1.2.3"); ("user", VString "nobody"); ("region", VString "eu")]
    (mkUser (Some "u-1") None (Some "ada")).

(** The context a caller supplies with a capture. *)
Definition supplied : Dict Value :=
  [("region", VString "us"); ("order", VNumber 17)].

(** The same configuration with strings cut at three characters. *)
Definition short_strings : AgentConfig :=
  mkAgentConfig "key" "wss://api.aivory.net/ws/agent" "production" 1
    10 3 100 false "host" "agent-1" [] (mkUser None None None).

(** Two errors of the same type raised in [foo] at line 42, with different
    messages, files and callers. *)
Definition type_error_1 : ErrorObject :=
  mkErrorObject "TypeError" "x is null" None.
Definition type_error_2 : ErrorObject :=
  mkErrorObject "TypeError" "cannot read properties of undefined" None.

Definition frames_1 : list StackFrame :=
  [mkStackFrame "foo" (Some "a.ts") (Some "file:///app/a.ts") (Some 42%N) (Some 7%N) false;
   mkStackFrame "main" (Some "a.ts") (Some "file:///app/a.ts") (Some 3%N) (Some 1%N) false].
Definition frames_2 : list StackFrame :=
  [mkStackFrame "dispatch" None None None None true;
   mkStackFrame "foo" (Some "b.ts") (Some "file:///srv/b.ts") (Some 42%N) (Some 19%N) false;
   mkStackFrame "main" None (Some "file:///srv/b.ts") (Some 3%N) None false].

Definition newline : string := String "010"%char "".

(** An error with a stack of the shapes the parser tells apart. *)
Definition stack_error : ErrorObject :=
  mkErrorObject "TypeError" "x is null"
    (Some ("TypeError: x is null" ++ newline
           ++ "    at foo (file:///app/a.ts:42:7)" ++ newline
           ++ "    at async Promise.all (index 0)" ++ newline
           ++ "    at C:\app\main.ts:3:1" ++ newline
           ++ "  (not a frame)" ++ newline
           ++ "    at new Foo (native)" ++ newline
           ++ "    at bar [native code]" ++ newline
           ++ "    at weird")).

(** A heap in which every object refers to itself. *)
Definition cyclic : Heap :=
  fun a => OPlain (Some "Node") [("self", VRef a); ("tag", VString "n")].

(** A heap holding one array of three strings. *)
Definition fruit : Heap :=
  fun _ => OArray [VString "apple"; VString "banana"; VString "cherry"].

Definition ambient : Agent.Ambient :=
  Agent.mkAmbient (1 # 2) "id-1" "2026-01-01T00:00:00.000Z" 1767225600000.

(** A connection that is not ready and holds 1000 queued messages. *)
Definition full_queue : Transport.World :=
  Transport.with_conn (Transport.set_messageQueue (repeat "m" 1000))
    Transport.initialWorld.

(** [connect()], then [rounds] times: the socket closes without having
    opened and the reconnect timer fires. *)
Definition failing_rounds (rounds : nat) : list Transport.Event :=
  Transport.CallConnect ::
  flat_map (fun k => [Transport.SocketClosed k 1006; Transport.TimerFired k])
    (seq 0 rounds).

(** The connection after ten scheduled reconnects have all failed: the
    eleventh socket has closed too, and nothing is pending. *)
Definition gave_up : Transport.World :=
  Transport.run (rt := runtime) config Transport.initialWorld
    (failing_rounds 10 ++ [Transport.SocketClosed 10 1006]).

(** A session that connects, registers, and is then torn down. *)
Definition torn_down : Transport.World :=
  Transport.run (rt := runtime) config Transport.initialWorld
    [Transport.CallConnect; Transport.SocketOpened 0 0;
     Transport.SocketMessage 0 "{type:registered}"; Transport.CallDisconnect].

End Sample.

(** ** Construction of the configuration ([new AgentConfig(options)]) *)

Module Construct.

Record ConfigOptions := mkConfigOptions {
  opt_apiKey : option string;
  opt_backendUrl : option string;
  opt_environment : option string;
  opt_samplingRate : option Q;
  opt_maxCaptureDepth : option Z;
  opt_maxStringLength : option Z;
  opt_maxCollectionSize : option Z;
  opt_debug : option bool
}.

(** [new AgentConfig()] is [new AgentConfig({})]. *)
Definition noOptions : ConfigOptions :=
  mkConfigOptions None None None None None None None None.

(** The Numbers that [parseInt] returns: NaN, an integer that a Number
    holds (0 stands for both zeros), or an infinity. *)
Inductive Num :=
| NaN
| Finite (z : Z)
| Infinite (negative : bool).

(** The configuration as constructed.  The sampling rate for which
    [parseFloat] gives NaN is [None]. *)
Record Constructed := mkConstructed {
  new_apiKey : string;
  new_backendUrl : string;
  new_environment : string;
  new_samplingRate : option Q;
  new_maxCaptureDepth : Num;
  new_maxStringLength : Num;
  new_maxCollectionSize : Num;
  new_debug : bool;
  new_hostname : string;
  new_agentId : string
}.

(** [a || b] where [a] is a string or [undefined]: the empty string is
    falsy. *)
Definition or_string (a : option string) (b : string) : string :=
  match a with
  | Some s => if bool_decide (s = "") then b else s
  | None => b
  end.

(** The Number value for a natural number: the number itself up to 2^53,
    and above it the nearest natural number with 53 significant bits, the
    even one of two that are equally near. *)
Definition round53 (n : N) : N :=
  if (n <=? 2 ^ 53)%N then n
  else
    let e := (N.size n - 53)%N in
    let q := N.shiftr n e in
    let r := N.land n (N.ones e) in
    let half := N.shiftl 1 (e - 1) in
    let q' := if (half <? r)%N || ((r =? half)%N && N.odd q) then (q + 1)%N else q in
    N.shiftl q' e.

(** The Number value for an integer given by sign and magnitude; what
    rounds to 2^1024 or more is an infinity. *)
Definition to_number (negative : bool) (n : N) : Num :=
  let r := round53 n in
  if (r <? 2 ^ 1024)%N
  then Finite (if negative then - Z.of_N r else Z.of_N r)
  else Infinite negative.

Definition number_of_Z (z : Z) : Num := to_number (z <? 0) (Z.abs_N z).

(** [parseInt(s, 10)]: leading white space is skipped, a sign is read, and
    the longest run of digits that follows is the value, as a Number;
    without a digit the result is NaN. *)
Definition parseInt (s : string) : Num :=
  let cs := JsString.trimStart_chars (JsString.chars s) in
  let negative :=
    match cs with c :: _ => JsString.is_char "-" c | [] => false end in
  let signed :=
    match cs with
    | c :: _ => JsString.is_char "-" c || JsString.is_char "+" c
    | [] => false
    end in
  let digits := fst (JsString.span JsString.is_digit (if signed then tail cs else cs)) in
  match digits with
  | [] => NaN
  | _ :: _ => to_number negative (JsString.parseInt (JsString.of_chars digits))
  end.

(** [n.toString(16)] for a non-negative integer *)
Definition to_hex (n : N) : string :=
  HexadecimalString.NilZero.string_of_uint (N.to_hex_uint n).

Section WithEnvironment.
(** [parseFloat], a service of the runtime; [None] is NaN. *)
Variable parseFloat : string -> option Q.
(** [Deno.env.get] *)
Variable env : string -> option string.
(** [hostname()], [Date.now()] and [randomUUID()] *)
Variable host : string.
Variable now : N.
Variable uuid : string.

(** [options.x ?? parseInt(Deno.env.get(name) || fallback, 10)] *)
Definition limit (option_value : option Z) (name fallback : string) : Num :=
  match option_value with
  | Some n => Finite n
  | None => parseInt (or_string (env name) fallback)
  end.

(** The constructor of [AgentConfig]. *)
Definition construct (options : ConfigOptions) : Constructed :=
  mkConstructed
    (or_string (opt_apiKey options) (or_string (env "AIVORY_API_KEY") ""))
    (or_string (opt_backendUrl options)
       (or_string (env "AIVORY_BACKEND_URL") "wss://api.aivory.net/ws/agent"))
    (or_string (opt_environment options)
       (or_string (env "AIVORY_ENVIRONMENT") "production"))
    (match opt_samplingRate options with
     | Some r => Some r
     | None => parseFloat (or_string (env "AIVORY_SAMPLING_RATE") "1.0")
     end)
    (limit (opt_maxCaptureDepth options) "AIVORY_MAX_DEPTH" "10")
    (limit (opt_maxStringLength options) "AIVORY_MAX_STRING_LENGTH" "1000")
    (limit (opt_maxCollectionSize options) "AIVORY_MAX_COLLECTION_SIZE" "100")
    (match opt_debug options with
     | Some b => b
     | None => bool_decide (env "AIVORY_DEBUG" = Some "true")
     end)
    host
    ("agent-" ++ to_hex now ++ "-" ++ JsString.slice0 8 uuid).

End WithEnvironment.

(** The constructed configuration as an [AgentConfig], when its numbers are
    numbers; the custom context and the user start empty. *)
Definition finite (x : Num) : option Z :=
  match x with Finite z => Some z | NaN | Infinite _ => None end.

Definition to_config (c : Constructed) : option AgentConfig :=
  rate ← new_samplingRate c;
  depth ← finite (new_maxCaptureDepth c);
  len ← finite (new_maxStringLength c);
  size ← finite (new_maxCollectionSize c);
  Some (mkAgentConfig (new_apiKey c) (new_backendUrl c) (new_environment c)
          rate depth len size (new_debug c) (new_hostname c) (new_agentId c)
          [] (mkUser None None None)).

End Construct.

(** ** Further notions, for the properties beyond the claims *)

(** One step of reading a decimal number, as [JsString.parseInt] folds it. *)
Definition digit_step (acc : N) (c : ascii) : N :=
  (10 * acc + (JsString.code c - 48))%N.

(** Whether a list starts with an element that [p] holds of. *)
Definition starts_with {A} (p : A -> bool) (l : list A) : bool :=
  match l with x :: _ => p x | [] => false end.

Definition is_sign (c : ascii) : bool :=
  JsString.is_char "-" c || JsString.is_char "+" c.

(** A text without a number at its start: it does not start with white
    space, and no digit follows its sign, if it starts with one, or starts it
    otherwise. *)
Definition lacks_number (body : string) : bool :=
  let cs := JsString.chars body in
  negb (starts_with JsString.is_whitespace cs)
  && negb (starts_with JsString.is_digit
             (if starts_with is_sign cs then tail cs else cs)).

(** How the constructor fills a numeric limit from the option [given], the
    environment variable [var] and the default [fallback]: the option if
    given; the default for an absent or empty variable; the Number value of
    the integer whose decimal text follows the variable's leading white
    space; NaN for a variable without a number at its start. *)
Definition reads_limit (field : Construct.Num) (given : option Z)
    (var : option string) (fallback : Z) : Prop :=
  (forall n, given = Some n -> field = Construct.Finite n) /\
  (given = None -> var = None \/ var = Some "" ->
   field = Construct.Finite fallback) /\
  (given = None -> forall blank z rest,
     var = Some (blank ++ JsString.of_Z z ++ rest) ->
     forallb JsString.is_whitespace (JsString.chars blank) = true ->
     starts_with JsString.is_digit (JsString.chars rest) = false ->
     field = Construct.number_of_Z z) /\
  (given = None -> forall blank body,
     var = Some (blank ++ body) -> blank ++ body <> "" ->
     forallb JsString.is_whitespace (JsString.chars blank) = true ->
     lacks_number body = true ->
     field = Construct.NaN).

(** [P i x] for every [x] of a list, [i] counting from [start]. *)
Fixpoint all_from {A} (P : nat -> A -> Prop) (start : nat) (l : list A) : Prop :=
  match l with
  | [] => True
  | x :: l' => P start x /\ all_from P (S start) l'
  end.

(** The shape every captured tree has, at every node: [isNull] and
    [isTruncated] go with the types [null] and [string]; a length is reported
    only for the type [array]; elements and children exclude each other;
    elements are as many as the reported length, at most [limit], and named
    by their index; children are not empty, have distinct keys and are named
    by their key. *)
Fixpoint tree_ok (limit : Z) (cv : CapturedVariable) : Prop :=
  match cv with
  | mkCapturedVariable nm ty val null trunc kids els len =>
      (null = true -> ty = "null" /\ val = "null") /\
      (trunc = true -> ty = "string") /\
      (forall n, len = Some n -> ty = "array" /\ 0 <= n) /\
      match els, kids with
      | Some l, None =>
          len = Some (Z.of_nat (length l)) /\ Z.of_nat (length l) <= limit /\
          all_from (fun i c => name c = "[" ++ JsString.of_nat i ++ "]" /\ tree_ok limit c)
            0%nat l
      | None, Some l =>
          len = None /\ l <> [] /\ NoDup (Dict.keys l) /\
          all_from (fun _ kc => name (snd kc) = fst kc /\ tree_ok limit (snd kc)) 0%nat l
      | None, None => True
      | Some _, Some _ => False
      end
  end.

(** Number of nodes of a captured tree. *)
Fixpoint size (cv : CapturedVariable) : nat :=
  match cv with
  | mkCapturedVariable _ _ _ _ _ kids els _ =>
      S (match els with
         | Some l =>
             (fix sizes (l : list CapturedVariable) : nat :=
                match l with [] => 0%nat | c :: l' => (size c + sizes l')%nat end) l
         | None => 0%nat
         end
         + match kids with
           | Some l =>
               (fix sizes (l : list (string * CapturedVariable)) : nat :=
                  match l with
                  | [] => 0%nat
                  | kc :: l' => (size (snd kc) + sizes l')%nat
                  end) l
           | None => 0%nat
           end)
  end.

(** [1 + w + w^2 + ... + w^h] *)
Fixpoint geometric (w h : nat) : nat :=
  match h with
  | O => 1%nat
  | S h' => S (w * geometric w h')
  end.

(** A burst of calls to [send], in call order. *)
Definition send_all (msgs : list string) (w : Transport.World) : Transport.World :=
  fold_left (fun w0 msg => Transport.send msg w0) msgs w.

(** A method name that the stack parser reads back whole: it does not end in
    white space and has no opening parenthesis and no line terminator. *)
Definition is_method_text (s : string) : bool :=
  let cs := JsString.chars s in
  negb (JsString.is_whitespace (List.last cs " "%char))
  && forallb (fun c => negb (JsString.is_char "(" c)) cs
  && JsString.no_line_terminator cs.

(** A file path of a frame: not empty and on one line. *)
Definition is_path_text (s : string) : bool :=
  JsString.nonnil (JsString.chars s)
  && JsString.no_line_terminator (JsString.chars s).

(** The lines of [error.stack] as the runtime prints them, for a call in a
    named function and for a call at the top level of a module. *)
Definition location_text (path : string) (line column : N) : string :=
  path ++ ":" ++ JsString.of_N line ++ ":" ++ JsString.of_N column.

Definition named_frame_text (indent method path : string) (line column : N) : string :=
  indent ++ "at " ++ method ++ " (" ++ location_text path line column ++ ")".

Definition bare_frame_text (indent path : string) (line column : N) : string :=
  indent ++ "at " ++ location_text path line column.

(** What the parts of a frame are to each other: a frame has no location at
    all, or a path only, or a path with its file name, line and column; a
    native frame has no location. *)
Definition frame_ok (f : StackFrame) : Prop :=
  match fileName f, filePath f, lineNumber f, columnNumber f with
  | None, None, None, None => True
  | None, Some _, None, None => isNative f = false
  | Some n, Some p, Some _, Some _ => n = Capture.getFileName p /\ isNative f = false
  | _, _, _, _ => False
  end.

(** No separator of a path occurs in the string. *)
Definition no_slash (s : string) : bool :=
  forallb (fun c => negb (Capture.is_slash c)) (JsString.chars s).

(** What [init] followed by [shutdown] leaves of the instance it created. *)
Definition retired {rt : Runtime} (cfg : AgentConfig) : Agent.Instance :=
  Agent.mkInstance cfg
    (Transport.disconnect (Transport.connect cfg Transport.initialWorld)) false.

(** Rounds of [init] followed by [shutdown], one for each configuration. *)
Definition restarts {rt : Runtime} (cfgs : list AgentConfig) (p : Agent.Process)
    : Agent.Process :=
  fold_left (fun q cfg => Agent.shutdown (Agent.init cfg q)) cfgs p.

(** The two listeners [install] registers for instance [i]. *)
Definition registered (i : nat) : list (Agent.EventType * nat) :=
  [(Agent.ErrorEvent, i); (Agent.UnhandledRejectionEvent, i)].

(** The message [sendException] builds for the report of [error]. *)
Definition report_text {rt : Runtime} (cfg : AgentConfig) (error : ErrorObject)
    (ctx : option (Dict Value)) (amb : Agent.Ambient) : string :=
  JSON_stringify
    (ExceptionEnvelope
       (Capture.createCapture cfg error ctx (Agent.uuid amb) (Agent.isoNow amb))
       (agentId cfg) (environment cfg) (Agent.now amb)).

(** Further concrete states. *)
Module Scenario.

(** A connection that is not ready and holds 998 queued messages. *)
Definition nearly_full : Transport.World :=
  Transport.with_conn (Transport.set_messageQueue (repeat "m" 998))
    Transport.initialWorld.

(** A session that has connected and registered. *)
Definition ready : Transport.World :=
  Transport.run (rt := Sample.runtime) Sample.config Transport.initialWorld
    [Transport.CallConnect; Transport.SocketOpened 0 0;
     Transport.SocketMessage 0 "{type:registered}"].

(** An environment that sets the capture depth, with a unit after the
    number. *)
Definition environment (name : string) : option string :=
  if bool_decide (name = "AIVORY_MAX_DEPTH") then Some "7 levels" else None.

(** Environments that set the capture depth to 2^53 + 1, and to a word. *)
Definition environment_large (name : string) : option string :=
  if bool_decide (name = "AIVORY_MAX_DEPTH") then Some "9007199254740993" else None.

Definition environment_word (name : string) : option string :=
  if bool_decide (name = "AIVORY_MAX_DEPTH") then Some " -deep" else None.

(** An instance that samples half of the errors, and a draw that is not
    taken. *)
Definition half_sampled : Agent.Instance :=
  Agent.mkInstance
    (mkAgentConfig "key" "wss://api.aivory.net/ws/agent" "production" (1 # 2)
       10 1000 100 false "host" "agent-1" [] (mkUser None None None))
    Transport.initialWorld true.

Definition half_sampled_off : Agent.Instance :=
  Agent.set_installed false half_sampled.

Definition high_draw : Agent.Ambient :=
  Agent.mkAmbient (3 # 4) "id-2" "2026-01-01T00:00:00.000Z" 1767225600000.

(** A configuration that captures three levels of two entries each. *)
Definition narrow : AgentConfig :=
  mkAgentConfig "key" "wss://api.aivory.net/ws/agent" "production" 1
    3 1000 2 false "host" "agent-1" [] (mkUser None None None).

(** Local variables handed to a manual capture. *)
Definition locals : Dict Value :=
  [("count", VNumber 30); ("items", VRef 0)].

(** A torn-down session to which two reports were handed afterwards. *)
Definition down_with_queue : Transport.World :=
  send_all ["r1"; "r2"] Sample.torn_down.

End Scenario.

(** * The two patterns of the stack parser *)

Section PatternProperties.
Import JsString.

Lemma span_spec {A} (p : A -> bool) l : forall yes rest,
  span p l = (yes, rest) ->
  l = (yes ++ rest)%list /\ forallb p yes = true /\
  (forall x rest', rest = x :: rest' -> p x = false).
Proof.
  induction l as [|x l IH]; intros yes rest H; simpl in H.
  - inversion H; subst. repeat split; auto. intros; discriminate.
  - destruct (p x) eqn:E.
    + destruct (span p l) as [yes' rest'] eqn:Es. inversion H; subst.
      destruct (IH _ _ eq_refl) as (H1 & H2 & H3). subst l. simpl.
      rewrite E, H2. repeat split; auto.
    + inversion H; subst. split; [reflexivity|]. split; [reflexivity|].
      intros y r Hr. inversion Hr; subst. exact E.
Qed.

Lemma span_app {A} (p : A -> bool) yes rest :
  forallb p yes = true ->
  (forall x rest', rest = x :: rest' -> p x = false) ->
  span p (yes ++ rest) = (yes, rest).
Proof.
  induction yes as [|y yes IH]; simpl; intros Hy Hr.
  - destruct rest as [|x rest']; [reflexivity|]. simpl.
    rewrite (Hr x rest' eq_refl). reflexivity.
  - apply andb_true_iff in Hy as [Hy1 Hy2]. rewrite Hy1, IH by assumption.
    reflexivity.
Qed.

Lemma forallb_rev {A} (p : A -> bool) (l : list A) :
  forallb p (rev l) = forallb p l.
Proof.
  induction l as [|x l IH]; simpl; [reflexivity|].
  rewrite forallb_app. simpl. rewrite IH, andb_true_r, andb_comm. reflexivity.
Qed.

Lemma nonnil_true {A} (l : list A) : nonnil l = true <-> l <> [].
Proof. destruct l; simpl; split; congruence. Qed.

Lemma rev_nonnil {A} (l : list A) : l <> [] -> rev l <> [].
Proof.
  intros H Hr. apply H. rewrite <- (rev_involutive l), Hr. reflexivity.
Qed.

(** [location_groups] finds exactly the match of the location pattern,
    which is unique. *)
Theorem location_groups_spec cs g1 d2 d3 :
  location_groups cs = Some (g1, d2, d3) <-> location_shape cs g1 d2 d3.
Proof.
  unfold location_groups, location_shape, no_line_terminator. split.
  - destruct (span is_digit (rev cs)) as [d3r r1] eqn:E1.
    destruct r1 as [|c2 r2]; [discriminate|].
    destruct (span is_digit r2) as [d2r r3] eqn:E2.
    destruct r3 as [|c1 g1r]; [discriminate|].
    destruct (_ && _) eqn:Ec; [|discriminate].
    intros H. inversion H; subst. clear H.
    repeat (apply andb_true_iff in Ec as [Ec ?]).
    apply bool_decide_eq_true in Ec. subst c2.
    match goal with H : is_char _ c1 = true |- _ =>
      apply bool_decide_eq_true in H; subst c1 end.
    destruct (span_spec _ _ _ _ E1) as (Hcs & Hd3 & _).
    destruct (span_spec _ _ _ _ E2) as (Hr2 & Hd2 & _). subst r2.
    repeat split; try (apply rev_nonnil, nonnil_true; assumption);
      try (rewrite forallb_rev; assumption).
    rewrite <- (rev_involutive cs), Hcs.
    rewrite !rev_app_distr. simpl. rewrite !rev_app_distr. simpl.
    rewrite <- !app_assoc. reflexivity.
  - intros (Hcs & Hg1 & Hlt & Hd2n & Hd2 & Hd3n & Hd3). subst cs.
    assert (Hrev : rev (g1 ++ ":"%char :: d2 ++ ":"%char :: d3)
                   = (rev d3 ++ ":"%char :: rev d2 ++ ":"%char :: rev g1)%list).
    { rewrite !rev_app_distr. simpl. rewrite !rev_app_distr. simpl.
      rewrite <- !app_assoc. reflexivity. }
    rewrite Hrev.
    rewrite span_app;
      [|rewrite forallb_rev; exact Hd3|intros x r Hx; inversion Hx; reflexivity].
    rewrite span_app;
      [|rewrite forallb_rev; exact Hd2|intros x r Hx; inversion Hx; reflexivity].
    apply rev_nonnil, nonnil_true in Hg1, Hd2n, Hd3n.
    rewrite Hg1, Hd2n, Hd3n, forallb_rev, Hlt. cbn.
    rewrite !rev_involutive. reflexivity.
Qed.

(** [func_tail] recognizes what follows group 1. *)
Lemma func_tail_spec cs g2 :
  func_tail cs = Some g2 <->
  exists ws,
    cs = (ws ++ "("%char :: g2 ++ [")"%char])%list /\
    ws <> [] /\ forallb is_whitespace ws = true /\
    g2 <> [] /\ no_line_terminator g2 = true.
Proof.
  unfold func_tail, no_line_terminator. split.
  - destruct (span is_whitespace cs) as [blank rest] eqn:E.
    destruct rest as [|open inner]; [discriminate|].
    destruct (rev inner) as [|close g2r] eqn:Er; [discriminate|].
    destruct (_ && _) eqn:Ec; [|discriminate].
    intros H. inversion H; subst. clear H.
    repeat (apply andb_true_iff in Ec as [Ec ?]).
    apply bool_decide_eq_true in Ec. subst open.
    match goal with H : is_char _ close = true |- _ =>
      apply bool_decide_eq_true in H; subst close end.
    destruct (span_spec _ _ _ _ E) as (Hcs & Hws & _).
    exists blank. split.
    { rewrite Hcs. do 2 f_equal.
      rewrite <- (rev_involutive inner), Er. reflexivity. }
    repeat split; try assumption; try (apply nonnil_true; assumption);
      try (apply rev_nonnil, nonnil_true; assumption);
      try (rewrite forallb_rev; assumption).
  - intros (ws & Hcs & Hwsn & Hws & Hg2n & Hlt). subst cs.
    rewrite span_app; [|exact Hws|intros x r Hx; inversion Hx; reflexivity].
    rewrite rev_app_distr. simpl.
    apply nonnil_true in Hwsn. apply rev_nonnil, nonnil_true in Hg2n.
    rewrite Hwsn, Hg2n, forallb_rev, Hlt. cbn. rewrite rev_involutive. reflexivity.
Qed.

(** [func_scan] stops at the first split after which the tail matches. *)
Lemma func_scan_sound cs : forall acc g1 g2,
  func_scan acc cs = Some (g1, g2) ->
  exists pre post,
    cs = (pre ++ post)%list /\ g1 = (rev acc ++ pre)%list /\ g1 <> [] /\
    no_line_terminator pre = true /\ func_tail post = Some g2 /\
    (forall pre1 pre2, pre = (pre1 ++ pre2)%list -> pre2 <> [] ->
       (rev acc ++ pre1)%list <> [] -> func_tail (pre2 ++ post) = None).
Proof.
  induction cs as [|c cs IH]; intros acc g1 g2 H; cbn [func_scan] in H;
    [discriminate|].
  destruct (if nonnil acc then func_tail (c :: cs) else None) as [g2'|] eqn:Et.
  - inversion H; subst. destruct (nonnil acc) eqn:Ea; [|discriminate].
    exists [], (c :: cs). rewrite app_nil_r.
    split; [reflexivity|]. split; [reflexivity|].
    split; [apply rev_nonnil, nonnil_true; exact Ea|].
    split; [reflexivity|]. split; [exact Et|].
    intros pre1 pre2 Hp Hne _. destruct pre1, pre2; simpl in Hp; congruence.
  - destruct (is_line_terminator c) eqn:Elt; [discriminate|].
    destruct (IH _ _ _ H) as (pre & post & Hcs & Hg1 & Hne & Hlt & Htail & Hmin).
    exists (c :: pre), post.
    split; [simpl; f_equal; exact Hcs|].
    split; [simpl in Hg1; rewrite <- app_assoc in Hg1; exact Hg1|].
    split; [exact Hne|].
    split; [unfold no_line_terminator in *; simpl; rewrite Elt; exact Hlt|].
    split; [exact Htail|].
    intros pre1 pre2 Hp Hp2 Hacc. destruct pre1 as [|x pre1].
    + simpl in Hp. subst pre2. rewrite app_nil_r in Hacc.
      assert (Ha : nonnil acc = true).
      { apply nonnil_true. intros ->. apply Hacc. reflexivity. }
      rewrite Ha in Et. simpl. rewrite <- Hcs. exact Et.
    + simpl in Hp. inversion Hp; subst x pre.
      apply (Hmin pre1 pre2 eq_refl Hp2).
      simpl. rewrite <- app_assoc. destruct (rev acc); discriminate.
Qed.

Lemma func_scan_complete cs : forall acc pre post g2,
  cs = (pre ++ post)%list ->
  no_line_terminator pre = true ->
  (rev acc ++ pre)%list <> [] ->
  func_tail post = Some g2 ->
  exists g1' g2',
    func_scan acc cs = Some (g1', g2') /\
    (length g1' <= length (rev acc ++ pre))%nat.
Proof.
  induction cs as [|c cs IH]; intros acc pre post g2 Hcs Hlt Hne Htail.
  - symmetry in Hcs. apply app_eq_nil in Hcs as [-> ->]. discriminate.
  - cbn [func_scan].
    destruct (if nonnil acc then func_tail (c :: cs) else None) as [g2'|] eqn:Et.
    + exists (rev acc), g2'. split; [reflexivity|]. rewrite length_app. lia.
    + destruct pre as [|x pre].
      * simpl in Hcs. subst post. rewrite app_nil_r in Hne.
        assert (Ha : nonnil acc = true).
        { apply nonnil_true. intros ->. apply Hne. reflexivity. }
        rewrite Ha in Et. congruence.
      * simpl in Hcs. inversion Hcs; subst x cs.
        unfold no_line_terminator in Hlt. simpl in Hlt.
        apply andb_true_iff in Hlt as [Hc Hlt].
        apply negb_true_iff in Hc. rewrite Hc.
        destruct (IH (c :: acc) pre post g2 eq_refl Hlt) as (g1' & g2'' & Hs & Hl);
          [simpl; rewrite <- app_assoc; destruct (rev acc); discriminate|exact Htail|].
        exists g1', g2''. split; [exact Hs|].
        simpl in Hl. rewrite <- app_assoc in Hl. exact Hl.
Qed.

(** [func_groups] finds the match of the method pattern that the lazy first
    group selects: among the splits of the right shape, the one with the
    shortest group 1. *)
Theorem func_groups_spec cs g1 g2 :
  func_groups cs = Some (g1, g2) <->
  (exists ws, func_shape cs g1 ws g2) /\
  (forall g1' ws' g2', func_shape cs g1' ws' g2' -> (length g1 <= length g1')%nat).
Proof.
  unfold func_groups, func_shape. split.
  - intros H. destruct (func_scan_sound _ _ _ _ H)
      as (pre & post & Hcs & Hg1 & Hne & Hlt & Htail & Hmin).
    simpl in Hg1. subst pre.
    destruct (proj1 (func_tail_spec _ _) Htail) as (ws & Hpost & Hwsn & Hws & Hg2n & Hg2).
    split.
    + exists ws. subst post. repeat split; assumption.
    + intros g1' ws' g2' (Hcs' & Hg1n' & _ & Hwsn' & Hws' & Hg2n' & Hg2').
      destruct (Nat.le_gt_cases (length g1) (length g1')) as [|Hlen]; [assumption|].
      exfalso. rewrite Hcs in Hcs'.
      apply app_eq_app in Hcs' as [l [[H1 H2]|[H1 H2]]].
      * assert (Hl : l <> []).
        { intros ->. rewrite app_nil_r in H1. subst g1'. lia. }
        specialize (Hmin g1' l H1 Hl Hg1n'). rewrite <- H2 in Hmin.
        assert (Hsome : func_tail (ws' ++ "("%char :: g2' ++ [")"%char]) = Some g2').
        { apply func_tail_spec. exists ws'. repeat split; assumption. }
        congruence.
      * rewrite H1, length_app in Hlen. lia.
  - intros [(ws & Hcs & Hg1n & Hlt & Hwsn & Hws & Hg2n & Hg2) Hmin].
    assert (Htail : func_tail (ws ++ "("%char :: g2 ++ [")"%char]) = Some g2).
    { apply func_tail_spec. exists ws. repeat split; assumption. }
    destruct (func_scan_complete cs [] g1 _ g2 Hcs Hlt Hg1n Htail)
      as (g1' & g2' & Hs & Hl).
    simpl in Hl. rewrite Hs.
    destruct (func_scan_sound _ _ _ _ Hs)
      as (pre & post & Hcs' & Hg1' & Hne' & Hlt' & Htail' & _).
    simpl in Hg1'. subst pre.
    destruct (proj1 (func_tail_spec _ _) Htail')
      as (ws' & Hpost' & Hwsn' & Hws' & Hg2n' & Hg2').
    assert (Hge : (length g1 <= length g1')%nat).
    { apply (Hmin g1' ws' g2'). subst post. repeat split; assumption. }
    rewrite Hcs in Hcs'.
    apply app_inj_1 in Hcs' as [-> Hpost]; [|lia].
    rewrite <- Hpost in Htail'. congruence.
Qed.

End PatternProperties.

(** * Properties of the transport *)

Section TransportProperties.
Import Transport.
Context {rt : Runtime}.
Variable config : AgentConfig.

(** Sending on a socket leaves every ready state as it was. *)
Lemma readyState_of_send data i w j :
  readyState_of (with_sockets (alter (socket_send data) i) w) j = readyState_of w j.
Proof.
  unfold readyState_of, with_sockets; simpl.
  destruct (decide (i = j)) as [->|Hne].
  - rewrite list_lookup_alter_eq. destruct (sockets w !! j); reflexivity.
  - rewrite list_lookup_alter_ne by done. reflexivity.
Qed.

Lemma ws_is_open_ws_send data w : ws_is_open (ws_send data w) = ws_is_open w.
Proof.
  unfold ws_is_open, ws_send. destruct (ws (conn w)) as [i|] eqn:E; simpl.
  - rewrite E. rewrite readyState_of_send. reflexivity.
  - rewrite E. reflexivity.
Qed.

Lemma ws_is_open_set_queue q w :
  ws_is_open (with_conn (set_messageQueue q) w) = ws_is_open w.
Proof. reflexivity. Qed.

Lemma sent_on_ws_send data w :
  ws_is_open w = true -> sent_on (ws_send data w) = (sent_on w ++ [data])%list.
Proof.
  unfold ws_is_open, sent_on, ws_send, readyState_of.
  destruct (ws (conn w)) as [i|] eqn:E; [|discriminate]. simpl. rewrite E.
  rewrite list_lookup_alter_eq.
  destruct (sockets w !! i) as [s|]; simpl; [reflexivity|].
  intros H. discriminate.
Qed.

Lemma conn_ws_send data w : conn (ws_send data w) = conn w.
Proof. unfold ws_send. destruct (ws (conn w)); reflexivity. Qed.

Lemma timers_ws_send data w : timers (ws_send data w) = timers w.
Proof. unfold ws_send. destruct (ws (conn w)); reflexivity. Qed.

(** The loop of [flushQueue] on a socket that is not open does nothing. *)
Lemma flushQueue_loop_not_open fuel w :
  ws_is_open w = false -> flushQueue_loop fuel w = w.
Proof.
  intros H. destruct fuel as [|fuel]; simpl; [reflexivity|].
  destruct (messageQueue (conn w)); [reflexivity|]. rewrite H. reflexivity.
Qed.

(** On an open socket, with a turn available for every queued message, the
    loop empties the queue and transmits the non-empty messages in queue
    order; it changes nothing else of the connection. *)
Lemma flushQueue_loop_open fuel : forall w,
  ws_is_open w = true ->
  (length (messageQueue (conn w)) <= fuel)%nat ->
  let w' := flushQueue_loop fuel w in
  conn w' = set_messageQueue [] (conn w) /\
  sent_on w' = (sent_on w ++ List.filter nonempty (messageQueue (conn w)))%list /\
  ws_is_open w' = true /\
  timers w' = timers w.
Proof.
  induction fuel as [|fuel IH]; intros w Hopen Hlen; simpl.
  - destruct w as [[? ? ? q ?] ? ? ?]; simpl in *.
    destruct q; simpl in *; [|lia].
    repeat split; auto. unfold sent_on; simpl. rewrite app_nil_r. reflexivity.
  - destruct (messageQueue (conn w)) as [|msg rest] eqn:Eq.
    + repeat split; auto.
      * destruct w as [[? ? ? q ?] ? ? ?]; simpl in *. subst q. reflexivity.
      * simpl. rewrite app_nil_r. reflexivity.
    + rewrite Hopen. simpl in Hlen.
      set (w1 := with_conn (set_messageQueue rest) w).
      assert (Hopen1 : ws_is_open w1 = true) by exact Hopen.
      assert (Hsent1 : sent_on w1 = sent_on w) by reflexivity.
      cbn [List.filter]. unfold nonempty at 1.
      destruct (bool_decide (msg = "")); cbn [negb].
      * specialize (IH w1 Hopen1). simpl in IH.
        destruct IH as (Hc & Hs & Ho & Ht); [simpl; lia|].
        repeat split; auto; rewrite Hs; reflexivity.
      * specialize (IH (ws_send msg w1)).
        rewrite ws_is_open_ws_send, conn_ws_send, timers_ws_send in IH.
        destruct IH as (Hc & Hs & Ho & Ht); [exact Hopen1|simpl; lia|].
        repeat split; auto.
        rewrite Hs, sent_on_ws_send by exact Hopen1.
        rewrite Hsent1, <- app_assoc. reflexivity.
Qed.

(** The loop never lengthens the queue. *)
Lemma flushQueue_loop_queue_le fuel : forall w,
  (length (messageQueue (conn (flushQueue_loop fuel w)))
   <= length (messageQueue (conn w)))%nat.
Proof.
  induction fuel as [|fuel IH]; intros w; simpl; [lia|].
  destruct (messageQueue (conn w)) as [|msg rest] eqn:Eq; [rewrite Eq; lia|].
  destruct (ws_is_open w); [|rewrite Eq; lia].
  etransitivity; [apply IH|].
  destruct (bool_decide (msg = "")); rewrite ?conn_ws_send; simpl; lia.
Qed.

(** What each operation leaves of the queue. *)
Lemma queue_scheduleReconnect w :
  messageQueue (conn (scheduleReconnect w)) = messageQueue (conn w).
Proof. unfold scheduleReconnect. destruct (_ <=? _)%N; reflexivity. Qed.

Lemma queue_connect w :
  messageQueue (conn (connect config w)) = messageQueue (conn w).
Proof.
  unfold connect. destruct (ws_is_open w); [reflexivity|].
  destruct (WebSocket_accepts _); [reflexivity|apply queue_scheduleReconnect].
Qed.

Lemma queue_disconnect w :
  messageQueue (conn (disconnect w)) = messageQueue (conn w).
Proof.
  unfold disconnect. destruct w as [[s a n q [t|]] ss ts nt]; destruct s; reflexivity.
Qed.

Lemma queue_authenticate now w :
  messageQueue (conn (authenticate config now w)) = messageQueue (conn w).
Proof.
  unfold authenticate. destruct (ws_is_open w); [|reflexivity].
  rewrite conn_ws_send. reflexivity.
Qed.

Lemma queue_send msg w :
  (length (messageQueue (conn w)) <= 1000)%nat ->
  (length (messageQueue (conn (send msg w))) <= 1000)%nat.
Proof.
  intros H. unfold send.
  destruct (ws_is_open w && authenticated (conn w)).
  - rewrite conn_ws_send. exact H.
  - destruct (length (messageQueue (conn w)) <? 1000)%nat eqn:E; [|exact H].
    apply Nat.ltb_lt in E. simpl. rewrite length_app. simpl. lia.
Qed.

Lemma queue_handleMessage data w :
  (length (messageQueue (conn (handleMessage data w)))
   <= length (messageQueue (conn w)))%nat.
Proof.
  unfold handleMessage. destruct (JSON_parse_type data); [|lia].
  destruct (bool_decide _); [|lia].
  unfold flushQueue. etransitivity; [apply flushQueue_loop_queue_le|]. simpl. lia.
Qed.

(** One turn of the event loop keeps the queue within its bound. *)
Lemma step_queue_bound w e :
  (length (messageQueue (conn w)) <= 1000)%nat ->
  (length (messageQueue (conn (step config w e))) <= 1000)%nat.
Proof.
  intros H. destruct e; cbn [step].
  - destruct (bool_decide _); [|exact H].
    unfold onopen. rewrite queue_authenticate. exact H.
  - destruct (bool_decide _); [|exact H].
    unfold onmessage. etransitivity; [apply queue_handleMessage|exact H].
  - destruct (readyState_of w i) as [[]|]; try exact H;
      unfold onclose; rewrite queue_scheduleReconnect; exact H.
  - destruct (readyState_of w i); exact H.
  - destruct (timers w !! timer); [|exact H]. rewrite queue_connect. exact H.
  - rewrite queue_connect. exact H.
  - rewrite queue_disconnect. exact H.
  - unfold sendException. destruct (JSON_throws capture); [exact H|].
    apply queue_send. exact H.
Qed.

Lemma run_queue_bound es : forall w,
  (length (messageQueue (conn w)) <= 1000)%nat ->
  (length (messageQueue (conn (run config w es))) <= 1000)%nat.
Proof.
  induction es as [|e es IH]; intros w H; simpl; [exact H|].
  apply IH, step_queue_bound, H.
Qed.

(** C3.  The send queue never holds more than 1000 messages, whatever the
    calls and events.  While the connection is not ready, [send] appends the
    message when fewer than 1000 are queued and otherwise changes nothing, so
    a message offered to a queue of 1000 is dropped and the 1000 stay as they
    are.  When the registration is acknowledged the queue is flushed: the
    loop ends with the queue empty or the socket not open, and on an open
    socket the transmitted frames grow by the queued messages in queue order
    (an empty message is taken off the queue without being transmitted). *)
Theorem send_queue_bounded_fifo :
  (forall es,
     (length (messageQueue (conn (run config initialWorld es))) <= 1000)%nat) /\
  (forall msg w,
     ws_is_open w && authenticated (conn w) = false ->
     send msg w =
       if (length (messageQueue (conn w)) <? 1000)%nat
       then with_conn (set_messageQueue (messageQueue (conn w) ++ [msg])) w
       else w) /\
  (forall msg w,
     ws_is_open w && authenticated (conn w) = false ->
     length (messageQueue (conn w)) = 1000%nat ->
     send msg w = w) /\
  (forall data w,
     JSON_parse_type data = Some "registered" ->
     let w' := onmessage data w in
     authenticated (conn w') = true /\
     (messageQueue (conn w') = [] \/ ws_is_open w' = false) /\
     if ws_is_open w
     then messageQueue (conn w') = [] /\
          sent_on w' = (sent_on w ++ List.filter nonempty (messageQueue (conn w)))%list
     else messageQueue (conn w') = messageQueue (conn w) /\ sockets w' = sockets w).
Proof.
  split; [|split; [|split]].
  - intros es. apply run_queue_bound. simpl. lia.
  - intros msg w H. unfold send. rewrite H. reflexivity.
  - intros msg w H Hlen. unfold send. rewrite H, Hlen. reflexivity.
  - intros data w Hty. unfold onmessage, handleMessage. rewrite Hty.
    cbn [bool_decide decide_rel]. simpl bool_decide.
    set (w1 := with_conn (set_authenticated true) w).
    assert (Hopen : ws_is_open w1 = ws_is_open w) by reflexivity.
    destruct (ws_is_open w) eqn:E.
    + destruct (flushQueue_loop_open (length (messageQueue (conn w1))) w1)
        as (Hc & Hs & Ho & _); [exact Hopen|lia|].
      unfold flushQueue. cbv zeta. rewrite Hc, Hs.
      repeat split; auto.
    + unfold flushQueue. cbv zeta.
      rewrite flushQueue_loop_not_open by exact Hopen.
      repeat split; auto.
Qed.

(** *** Reconnection *)

Lemma reconnectDelay_capped n : (5 <= n)%N -> reconnectDelay n = 30000%N.
Proof.
  intros H. unfold reconnectDelay. apply N.min_r.
  assert (2 ^ 5 <= 2 ^ n)%N by (apply N.pow_le_mono_r; lia).
  change (2 ^ 5)%N with 32%N in *. lia.
Qed.

Lemma scheduleReconnect_below w :
  (reconnectAttempts (conn w) < 10)%N ->
  scheduleReconnect w =
    mkWorld
      (set_reconnectTimer (Some (nextTimer w))
         (set_reconnectAttempts (reconnectAttempts (conn w) + 1)%N (conn w)))
      (sockets w)
      (<[nextTimer w := reconnectDelay (reconnectAttempts (conn w))]> (timers w))
      (S (nextTimer w)).
Proof.
  intros H. unfold scheduleReconnect, maxReconnectAttempts.
  destruct (10 <=? reconnectAttempts (conn w))%N eqn:E; [|reflexivity].
  apply N.leb_le in E. lia.
Qed.

Lemma scheduleReconnect_exhausted w :
  (10 <= reconnectAttempts (conn w))%N -> scheduleReconnect w = w.
Proof.
  intros H. unfold scheduleReconnect, maxReconnectAttempts.
  apply N.leb_le in H. rewrite H. reflexivity.
Qed.

(** With the attempts used up, only the [open] event of a socket changes the
    counter or may be followed by a new timer. *)
Lemma step_exhausted w e :
  (10 <= reconnectAttempts (conn w))%N ->
  (forall i now, e <> SocketOpened i now) ->
  reconnectAttempts (conn (step config w e)) = reconnectAttempts (conn w) /\
  timers (step config w e) ⊆ timers w.
Proof.
  intros H Hne.
  assert (Hconnect : forall w0, reconnectAttempts (conn w0) = reconnectAttempts (conn w) ->
            reconnectAttempts (conn (connect config w0)) = reconnectAttempts (conn w) /\
            timers (connect config w0) = timers w0).
  { intros w0 H0. unfold connect. destruct (ws_is_open w0); [auto|].
    destruct (WebSocket_accepts _); [auto|].
    rewrite scheduleReconnect_exhausted by (rewrite H0; exact H). auto. }
  destruct e; cbn [step].
  - exfalso. eapply Hne. reflexivity.
  - destruct (bool_decide _); [|auto].
    unfold onmessage, handleMessage. destruct (JSON_parse_type data); [|auto].
    destruct (bool_decide _); [|auto].
    set (w1 := with_conn (set_authenticated true) w).
    unfold flushQueue. destruct (ws_is_open w1) eqn:E.
    + destruct (flushQueue_loop_open (length (messageQueue (conn w1))) w1)
        as (Hc & _ & _ & Ht); [exact E|lia|].
      cbv zeta in Hc, Ht. rewrite Hc, Ht. auto.
    + rewrite flushQueue_loop_not_open by exact E. auto.
  - destruct (readyState_of w i) as [[]|]; auto;
      unfold onclose; rewrite scheduleReconnect_exhausted by exact H; auto.
  - destruct (readyState_of w i); auto.
  - destruct (timers w !! timer); [|auto].
    edestruct Hconnect as [Ha Ht]; [|rewrite Ha, Ht]; [reflexivity|].
    split; [reflexivity|]. simpl. apply delete_subseteq.
  - edestruct Hconnect as [Ha Ht]; [|rewrite Ha, Ht]; [reflexivity|]. auto.
  - unfold disconnect. destruct w as [[s a n q [t|]] ss ts nt]; destruct s; simpl;
      split; auto; apply delete_subseteq.
  - unfold sendException. destruct (JSON_throws capture); [auto|].
    unfold send. destruct (_ && _).
    + rewrite conn_ws_send, timers_ws_send. auto.
    + destruct (_ <? _)%nat; auto.
Qed.

Lemma attempts_authenticate now w :
  reconnectAttempts (conn (authenticate config now w)) = reconnectAttempts (conn w).
Proof.
  unfold authenticate. destruct (ws_is_open w); [|reflexivity].
  rewrite conn_ws_send. reflexivity.
Qed.

(** C4, amended.  The delay of a scheduling made with [n] earlier attempts is
    [min (1000 * 2^n) 30000] ms: 1000, 2000, 4000, 8000, 16000 for [n] from 0
    to 4 and 30000 from 5 on.  A scheduling increments the counter and arms
    one timer with that delay; with 10 attempts reached it does nothing.  The
    counter starts at 0 and is reset by the [open] event of a socket; with 10
    attempts reached, no other call or event (an explicit [connect()]
    included) changes the counter or adds a timer. *)
Theorem reconnect_backoff :
  (forall n, reconnectDelay n = N.min (1000 * 2 ^ n) 30000) /\
  reconnectDelay <$> [0; 1; 2; 3; 4]%N = [1000; 2000; 4000; 8000; 16000]%N /\
  (forall n, (5 <= n)%N -> reconnectDelay n = 30000%N) /\
  (forall w,
     (reconnectAttempts (conn w) < 10)%N ->
     let w' := scheduleReconnect w in
     reconnectAttempts (conn w') = (reconnectAttempts (conn w) + 1)%N /\
     reconnectTimer (conn w') = Some (nextTimer w) /\
     timers w' =
       <[nextTimer w := reconnectDelay (reconnectAttempts (conn w))]> (timers w)) /\
  (forall w,
     (10 <= reconnectAttempts (conn w))%N -> scheduleReconnect w = w) /\
  reconnectAttempts initialConnection = 0%N /\
  (forall now w, reconnectAttempts (conn (onopen config now w)) = 0%N) /\
  (forall w e,
     (10 <= reconnectAttempts (conn w))%N ->
     (forall i now, e <> SocketOpened i now) ->
     reconnectAttempts (conn (step config w e)) = reconnectAttempts (conn w) /\
     timers (step config w e) ⊆ timers w).
Proof.
  repeat apply conj.
  - reflexivity.
  - reflexivity.
  - exact reconnectDelay_capped.
  - intros w H. cbv zeta. rewrite scheduleReconnect_below by exact H. auto.
  - exact scheduleReconnect_exhausted.
  - reflexivity.
  - intros now w. unfold onopen. rewrite attempts_authenticate. reflexivity.
  - exact step_exhausted.
Qed.

(** *** Teardown *)

(** [disconnect()] cancels the timer it knows of, asks the socket it holds
    to close with code 1000, forgets both and clears the authenticated flag. *)
Lemma disconnect_teardown w :
  let w' := disconnect w in
  reconnectTimer (conn w') = None /\
  ws (conn w') = None /\
  authenticated (conn w') = false /\
  (forall timer, reconnectTimer (conn w) = Some timer -> timers w' !! timer = None) /\
  (forall i, ws (conn w) = Some i ->
     sockets w' !! i = socket_close 1000 "Agent shutdown" <$> sockets w !! i).
Proof.
  unfold disconnect. destruct w as [[s a n q t] ss ts nt].
  destruct t as [t|], s as [i|]; simpl; repeat split; auto;
    intros x Hx; inversion Hx; subst;
    rewrite ?lookup_delete_eq, ?list_lookup_alter_eq; reflexivity.
Qed.

Lemma disconnect_idempotent w : disconnect (disconnect w) = disconnect w.
Proof.
  unfold disconnect. destruct w as [[s a n q t] ss ts nt].
  destruct t, s; reflexivity.
Qed.

(** The handlers of the socket stay attached: when its [close] event
    arrives after [disconnect()], the handler arms a reconnect timer. *)
Lemma close_after_disconnect_rearms w i s code :
  ws (conn w) = Some i ->
  sockets w !! i = Some s ->
  readyState s <> CLOSED ->
  (reconnectAttempts (conn w) < 10)%N ->
  let w' := step config (disconnect w) (SocketClosed i code) in
  reconnectTimer (conn w') = Some (nextTimer w) /\
  timers w' !! nextTimer w = Some (reconnectDelay (reconnectAttempts (conn w))).
Proof.
  intros Hws Hs Hst Hn.
  assert (Hrs : exists st, readyState_of (disconnect w) i = Some st /\ st <> CLOSED).
  { unfold readyState_of. destruct (disconnect_teardown w) as (_ & _ & _ & _ & Hsock).
    rewrite (Hsock i Hws), Hs. simpl.
    unfold socket_close. destruct (readyState s) eqn:E; simpl; rewrite ?E; eauto. }
  destruct Hrs as (st & Hrs & Hne).
  assert (Hatt : reconnectAttempts (conn (disconnect w)) = reconnectAttempts (conn w)).
  { unfold disconnect. destruct w as [[s0 a n q t] ss ts nt]; destruct t, s0; reflexivity. }
  assert (Hnt : nextTimer (disconnect w) = nextTimer w).
  { unfold disconnect. destruct w as [[s0 a n q t] ss ts nt]; destruct t, s0; reflexivity. }
  cbv zeta. cbn [step]. rewrite Hrs.
  assert (Hgo : forall w0, reconnectAttempts (conn w0) = reconnectAttempts (conn w) ->
            nextTimer w0 = nextTimer w ->
            reconnectTimer (conn (onclose code w0)) = Some (nextTimer w) /\
            timers (onclose code w0) !! nextTimer w
              = Some (reconnectDelay (reconnectAttempts (conn w)))).
  { intros w0 H1 H2. unfold onclose.
    rewrite scheduleReconnect_below by (simpl; rewrite H1; exact Hn).
    simpl. rewrite H1, H2, lookup_insert_eq. auto. }
  destruct st; try congruence; apply Hgo; simpl; auto.
Qed.

End TransportProperties.

(** C3 at a connection that is not ready and holds 1000 messages. *)
Lemma send_queue_bounded_fifo_witness :
  Transport.send "late" Sample.full_queue = Sample.full_queue.
Proof.
  destruct (send_queue_bounded_fifo (rt := Sample.runtime) Sample.config)
    as (_ & _ & Hfull & _).
  apply Hfull; vm_compute; reflexivity.
Defined.

(** C4 at the first scheduling of a new connection. *)
Lemma reconnect_backoff_witness :
  Transport.reconnectAttempts
    (Transport.conn (Transport.scheduleReconnect Transport.initialWorld)) = 1%N.
Proof.
  destruct (reconnect_backoff (rt := Sample.runtime) Sample.config)
    as (_ & _ & _ & Hstep & _).
  destruct (Hstep Transport.initialWorld) as (Hcount & _); [vm_compute; reflexivity|].
  exact Hcount.
Defined.

(** The delays armed by ten failures in a row, and none after the eleventh. *)
Example backoff_sequence :
  (fun k =>
     Transport.timers
       (Transport.run (rt := Sample.runtime) Sample.config Transport.initialWorld
          (Sample.failing_rounds k ++ [Transport.SocketClosed k 1006])) !! k)
    <$> seq 0 11
  = [Some 1000; Some 2000; Some 4000; Some 8000; Some 16000; Some 30000;
     Some 30000; Some 30000; Some 30000; Some 30000; None]%N.
Proof. vm_compute. reflexivity. Qed.

(** C4 as stated fails: after ten failed attempts an explicit [connect()]
    leaves the counter at 10, and when its socket closes no reconnect is
    scheduled. *)
Lemma explicit_connect_keeps_counter :
  Transport.reconnectAttempts (Transport.conn Sample.gave_up) = 10%N /\
  Transport.reconnectAttempts
    (Transport.conn (Transport.connect (rt := Sample.runtime) Sample.config Sample.gave_up))
    = 10%N /\
  let w := Transport.run (rt := Sample.runtime) Sample.config Sample.gave_up
             [Transport.CallConnect; Transport.SocketClosed 11 1006] in
  Transport.readyState_of w 11 = Some Transport.CLOSED /\
  Transport.reconnectAttempts (Transport.conn w) = 10%N /\
  map_to_list (Transport.timers w) = [].
Proof. vm_compute. repeat split; reflexivity. Qed.

(** C1 on the code: a session is torn down by [disconnect()], which leaves no
    timer and a socket asked to close with code 1000; the [close] event of
    that socket then arms a timer of 1000 ms, and when it fires [connect()]
    opens a second socket. *)
Theorem reconnect_fires_after_disconnect :
  let w0 := Sample.torn_down in
  let w1 := Transport.step (rt := Sample.runtime) Sample.config w0
              (Transport.SocketClosed 0 1000) in
  let w2 := Transport.step (rt := Sample.runtime) Sample.config w1
              (Transport.TimerFired 0) in
  (Transport.ws (Transport.conn w0) = None /\
   Transport.reconnectTimer (Transport.conn w0) = None /\
   Transport.authenticated (Transport.conn w0) = false /\
   map_to_list (Transport.timers w0) = [] /\
   Transport.closeCall <$> Transport.sockets w0 !! 0%nat
     = Some (Some (1000%N, "Agent shutdown"))) /\
  (map_to_list (Transport.timers w1) = [(0%nat, 1000%N)] /\
   Transport.reconnectAttempts (Transport.conn w1) = 1%N) /\
  (length (Transport.sockets w2) = 2%nat /\
   Transport.ws (Transport.conn w2) = Some 1%nat /\
   Transport.readyState_of w2 1 = Some Transport.CONNECTING).
Proof. vm_compute. repeat split; reflexivity. Qed.

(** * The hash function against the test vectors of FIPS 180-4 *)

Example sha256_abc :
  Sha256.sha256_hex "abc"
    = "ba7816bf8f01cfea414140de5dae2223b00361a396177a9cb410ff61f20015ad".
Proof. vm_compute. reflexivity. Qed.

Example sha256_two_blocks :
  Sha256.sha256_hex "abcdbcdecdefdefgefghfghighijhijkijkljklmklmnlmnomnopnopq"
    = "248d6a61d20638b8e5c026930c3e6039a33ce45964ff2167f6ecedd419db06c1".
Proof. vm_compute. reflexivity. Qed.

(** * Properties of the capture pipeline *)

Section CaptureProperties.
Import Capture.
Context {rt : Runtime}.
Variable config : AgentConfig.

(** *** Strings *)

Lemma substring_length_le n : forall s,
  (n <= String.length s)%nat -> String.length (String.substring 0 n s) = n.
Proof.
  induction n as [|n IH]; intros [|c s] H; simpl in *; try lia; auto.
  rewrite IH by lia. reflexivity.
Qed.

Lemma slice_end_inside e len :
  0 <= e -> e <= Z.of_nat len -> JsString.slice_end e len = Z.to_nat e.
Proof.
  intros H0 H1. unfold JsString.slice_end.
  destruct (e <? 0) eqn:E; [apply Z.ltb_lt in E; lia|].
  rewrite Z.min_l by lia. reflexivity.
Qed.

(** C7.  A string longer than [maxStringLength] is rendered as its first
    [maxStringLength] characters and flagged truncated (the limit being a
    length, that is, not negative); a string within the limit is rendered
    unchanged and not flagged. *)
Theorem string_truncation heap nm s depth :
  0 <= maxStringLength config ->
  exists cv,
    captureValue config heap nm (VString s) depth = Ok cv /\
    name cv = nm /\ type cv = "string" /\
    (maxStringLength config < Z.of_nat (String.length s) ->
       Z.of_nat (String.length (value cv)) = maxStringLength config /\
       value cv = String.substring 0 (Z.to_nat (maxStringLength config)) s /\
       isTruncated cv = true) /\
    (Z.of_nat (String.length s) <= maxStringLength config ->
       value cv = s /\ isTruncated cv = false).
Proof.
  intros Hlimit. unfold captureValue, fuel_for. cbn [captureValue_fuel].
  destruct (Z.of_nat (String.length s) >? maxStringLength config) eqn:E.
  - apply Z.gtb_lt in E. eexists. split; [reflexivity|]. cbn.
    repeat split; try lia.
    + unfold JsString.slice0. rewrite slice_end_inside by lia.
      rewrite substring_length_le by lia. lia.
    + unfold JsString.slice0. rewrite slice_end_inside by lia. reflexivity.
  - assert (Z.of_nat (String.length s) <= maxStringLength config).
    { destruct (Z.gtb_spec (Z.of_nat (String.length s)) (maxStringLength config));
        [discriminate|lia]. }
    eexists. split; [reflexivity|]. cbn. repeat split; lia.
Qed.

(** *** Stack traces *)

Lemma parseStackTrace_loop_spec lines : forall frames,
  (length frames < 50)%nat ->
  parseStackTrace_loop lines frames
    = take 50 (frames ++ omap parseStackFrame lines).
Proof.
  induction lines as [|line rest IH]; intros frames H;
    cbn [parseStackTrace_loop omap list_omap].
  - rewrite app_nil_r, take_ge by lia. reflexivity.
  - destruct (parseStackFrame line) as [frame|].
    + assert (Hcons : (frames ++ frame :: omap parseStackFrame rest
                       = (frames ++ [frame]) ++ omap parseStackFrame rest)%list)
        by (rewrite <- app_assoc; reflexivity).
      rewrite Hcons.
      destruct (50 <=? length (frames ++ [frame]))%nat eqn:E.
      * apply Nat.leb_le in E. rewrite length_app in E. simpl in E.
        rewrite take_app_length'; [reflexivity|].
        rewrite length_app. simpl. lia.
      * apply Nat.leb_gt in E. apply IH. exact E.
    + destruct (50 <=? length frames)%nat eqn:E.
      * apply Nat.leb_le in E. lia.
      * apply IH. exact H.
Qed.

(** C8.  Parsing is a total function of the error's stack text: it drops the
    first line, keeps the frames of the remaining lines in order, and returns
    the first 50 of them, so never more than 50. *)
Theorem parseStackTrace_total_capped error :
  parseStackTrace error
    = take 50 (omap parseStackFrame
                 (tail (JsString.split is_newline (default "" (error_stack error))))) /\
  (length (parseStackTrace error) <= 50)%nat.
Proof.
  assert (H : parseStackTrace error
    = take 50 (omap parseStackFrame
                 (tail (JsString.split is_newline (default "" (error_stack error)))))).
  { unfold parseStackTrace. rewrite parseStackTrace_loop_spec by (simpl; lia).
    reflexivity. }
  split; [exact H|]. rewrite H, length_take. lia.
Qed.

Example parse_sample_stack :
  parseStackTrace Sample.stack_error
  = [ mkStackFrame "foo" (Some "a.ts") (Some "file:///app/a.ts")
        (Some 42%N) (Some 7%N) false;
      mkStackFrame "async Promise.all" None (Some "index 0") None None false;
      mkStackFrame "<anonymous>" (Some "main.ts") (Some "C:\app\main.ts")
        (Some 3%N) (Some 1%N) false;
      mkStackFrame "new Foo" None None None None true;
      mkStackFrame "bar" None None None None true;
      mkStackFrame "weird" None None None None false ].
Proof. vm_compute. reflexivity. Qed.

(** *** Fingerprint *)

Lemma fingerprint_loop_spec frames : forall added parts,
  fingerprint_loop frames added parts
    = (parts ++ (fingerprint_part <$>
                 take (5 - added) (List.filter (fun f => negb (isNative f)) frames)))%list.
Proof.
  induction frames as [|f rest IH]; intros added parts;
    cbn [fingerprint_loop List.filter].
  - rewrite take_nil. cbn. rewrite app_nil_r. reflexivity.
  - destruct (5 <=? added)%nat eqn:E.
    + apply Nat.leb_le in E. replace (5 - added)%nat with 0%nat by lia.
      rewrite take_0. cbn. rewrite app_nil_r. reflexivity.
    + apply Nat.leb_gt in E. destruct (isNative f); cbn [negb].
      * apply IH.
      * rewrite IH. replace (5 - added)%nat with (S (5 - S added)) by lia.
        cbn [take fmap list_fmap]. rewrite <- app_assoc. reflexivity.
Qed.

Lemma fingerprint_part_key f g :
  frame_key f = frame_key g -> fingerprint_part f = fingerprint_part g.
Proof.
  unfold frame_key, fingerprint_part. intros H. inversion H as [[Hm Hl]].
  rewrite Hm, Hl. reflexivity.
Qed.

Lemma fingerprint_parts_key (l : list StackFrame) : forall l' : list StackFrame,
  frame_key <$> l = frame_key <$> l' ->
  fingerprint_part <$> l = fingerprint_part <$> l'.
Proof.
  induction l as [|f l IH]; intros [|g l'] H; simpl in *; try discriminate; auto.
  injection H as Hm Hl Hrest. f_equal.
  - apply fingerprint_part_key. unfold frame_key. rewrite Hm, Hl. reflexivity.
  - apply IH. exact Hrest.
Qed.

Lemma hex_digit_lower n : is_lower_hex (Sha256.hex_digit n) = true.
Proof.
  unfold Sha256.hex_digit. generalize (n mod 16)%N. intros m.
  destruct m as [|p]; [reflexivity|].
  do 4 (try destruct p as [p|p|]); reflexivity.
Qed.

Lemma hex_prefix_16 st :
  String.substring 0 16 (Sha256.hex st)
    = Sha256.hex32 (Sha256.ha st) (Sha256.hex32 (Sha256.hb st) "").
Proof. reflexivity. Qed.

(** C5.  The fingerprint is a function of the exception type and of the
    (method name, line number) pairs of the first five frames that are not
    native: errors that agree on these have equal fingerprints, whatever
    their messages and their other frames.  A fingerprint is 16 characters
    of lowercase hexadecimal notation. *)
Theorem fingerprint_by_call_site :
  (forall error frames,
     String.length (calculateFingerprint error frames) = 16%nat /\
     forallb is_lower_hex (JsString.chars (calculateFingerprint error frames)) = true) /\
  (forall e1 e2 frames1 frames2,
     error_name e1 = error_name e2 ->
     frame_key <$> top_frames frames1 = frame_key <$> top_frames frames2 ->
     calculateFingerprint e1 frames1 = calculateFingerprint e2 frames2).
Proof.
  split.
  - intros error frames. unfold calculateFingerprint, Sha256.sha256_hex.
    rewrite hex_prefix_16. split; [reflexivity|].
    cbn [Sha256.hex32 JsString.chars list_ascii_of_string forallb].
    rewrite !hex_digit_lower. reflexivity.
  - intros e1 e2 frames1 frames2 Hname Hkeys.
    unfold calculateFingerprint, fingerprint_parts.
    rewrite !fingerprint_loop_spec, Hname.
    pose proof (fingerprint_parts_key _ _ Hkeys) as Hparts.
    unfold top_frames in Hparts. change (5 - 0)%nat with 5%nat.
    rewrite Hparts. reflexivity.
Qed.

(** *** Context *)

Lemma dict_get_set {A} key key' (v : A) d :
  Dict.get key (Dict.set key' v d)
    = if bool_decide (key' = key) then Some v else Dict.get key d.
Proof.
  induction d as [|[k v0] d IH]; simpl.
  - reflexivity.
  - destruct (bool_decide (k = key')) eqn:E; simpl.
    + apply bool_decide_eq_true in E. subst k.
      destruct (bool_decide (key' = key)); reflexivity.
    + rewrite IH. apply bool_decide_eq_false in E.
      destruct (bool_decide (k = key)) eqn:E1; [|reflexivity].
      apply bool_decide_eq_true in E1. subst k.
      rewrite bool_decide_eq_false_2 by congruence. reflexivity.
Qed.

Lemma dict_get_absent {A} key (d : Dict A) :
  key ∉ Dict.keys d -> Dict.get key d = None.
Proof.
  induction d as [|[k v] d IH]; simpl; intros H; [reflexivity|].
  apply not_elem_of_cons in H as [Hne Hd].
  rewrite bool_decide_eq_false_2 by congruence. apply IH, Hd.
Qed.

(** In [{ ...target, ...source }] a key of the source wins. *)
Lemma dict_get_assign {A} key (source : Dict A) : forall target,
  NoDup (Dict.keys source) ->
  Dict.get key (Dict.assign target source)
    = match Dict.get key source with
      | Some v => Some v
      | None => Dict.get key target
      end.
Proof.
  unfold Dict.assign.
  induction source as [|[k v] source IH]; intros target Hnd; simpl; [reflexivity|].
  apply NoDup_cons in Hnd as [Hk Hnd].
  rewrite IH by exact Hnd. rewrite dict_get_set.
  destruct (bool_decide (k = key)) eqn:E; [|reflexivity].
  apply bool_decide_eq_true in E. subst k.
  rewrite dict_get_absent by exact Hk. reflexivity.
Qed.

Lemma dict_get_fmap {A B} (f : A -> B) key (d : Dict A) :
  Dict.get key (prod_map (fun k => k) f <$> d) = f <$> Dict.get key d.
Proof.
  induction d as [|[k v] d IH]; simpl; [reflexivity|].
  destruct (bool_decide (k = key)); [reflexivity|apply IH].
Qed.

Lemma dict_keys_fmap {A B} (f : A -> B) (d : Dict A) :
  Dict.keys (prod_map (fun k => k) f <$> d) = Dict.keys d.
Proof.
  unfold Dict.keys. induction d as [|[k v] d IH]; simpl; [reflexivity|].
  f_equal. exact IH.
Qed.

(** C6.  The context of a report is the custom context of the
    configuration, overlaid with the context supplied at the call, overlaid
    with the entry [user] holding the current user: a key is looked up first
    as [user], then in the supplied context, then in the custom context. *)
Theorem context_merge_precedence error ctx uuid isoNow :
  let custom := prod_map (fun k => k) CtxValue <$> Config.getCustomContext config in
  let supplied := prod_map (fun k => k) CtxValue <$> default [] ctx in
  let merged := context (createCapture config error ctx uuid isoNow) in
  merged
    = Dict.assign (Dict.assign (Dict.assign [] custom) supplied)
        [("user", CtxUser (Config.getUser config))] /\
  (NoDup (Dict.keys (customContext config)) ->
   NoDup (Dict.keys (default [] ctx)) ->
   forall key,
     Dict.get key merged
       = if bool_decide (key = "user") then Some (CtxUser (user config))
         else match Dict.get key (default [] ctx) with
              | Some v => Some (CtxValue v)
              | None => CtxValue <$> Dict.get key (customContext config)
              end).
Proof.
  cbv zeta. split; [reflexivity|].
  intros Hcustom Hctx key. unfold createCapture. cbn [context].
  rewrite dict_get_set.
  destruct (bool_decide (key = "user")) eqn:E.
  - apply bool_decide_eq_true in E. subst key. reflexivity.
  - apply bool_decide_eq_false in E.
    rewrite bool_decide_eq_false_2 by congruence.
    rewrite !dict_get_assign by (rewrite dict_keys_fmap; assumption).
    rewrite !dict_get_fmap. unfold Config.getCustomContext.
    destruct (Dict.get key (default [] ctx)); simpl; [reflexivity|].
    destruct (Dict.get key (customContext config)); reflexivity.
Qed.

End CaptureProperties.

(** * Properties of the serializer *)

Section SerializerProperties.
Import Capture.
Context {rt : Runtime}.
Variable config : AgentConfig.
Variable heap : Heap.

Lemma result_sat_bind {A B} (P : A -> Prop) (P' : B -> Prop) Q
    (r : Result A) (k : A -> Result B) :
  result_sat P Q r ->
  (forall a, P a -> result_sat P' Q (k a)) ->
  result_sat P' Q (r ≫= k).
Proof. destruct r; simpl; auto. Qed.

Lemma result_sat_weaken {A} (P P' : A -> Prop) Q (r : Result A) :
  result_sat P Q r -> (forall a, P a -> P' a) -> result_sat P' Q r.
Proof. destruct r; simpl; auto. Qed.

(** *** The two loops over elements and properties *)

Lemma capture_items_sat (P : CapturedVariable -> Prop) Q f items : forall i,
  (forall n item, result_sat P Q (f n item)) ->
  result_sat (Forall P) Q (capture_items f i items).
Proof.
  induction items as [|item rest IH]; intros i Hf; cbn [capture_items].
  - constructor.
  - eapply result_sat_bind; [apply Hf|]. intros cv Hcv.
    eapply result_sat_bind; [apply IH, Hf|]. intros cvs Hcvs.
    constructor; assumption.
Qed.

Lemma capture_items_ok f items : forall i els,
  capture_items f i items = Ok els ->
  length els = length items /\
  forall j item, items !! j = Some item ->
    exists cv, els !! j = Some cv /\
               f ("[" ++ JsString.of_nat (i + j) ++ "]") item = Ok cv.
Proof.
  induction items as [|item0 rest IH]; intros i els H; cbn [capture_items] in H.
  - inversion H; subst. split; [reflexivity|]. intros j item Hj.
    rewrite lookup_nil in Hj. discriminate.
  - destruct (f ("[" ++ JsString.of_nat i ++ "]") item0) as [cv| |] eqn:E0;
      try discriminate.
    cbn in H. destruct (capture_items f (S i) rest) as [cvs| |] eqn:E1;
      try discriminate.
    cbn in H. inversion H; subst. destruct (IH _ _ E1) as [Hlen Hrest].
    split; [simpl; f_equal; exact Hlen|].
    intros [|j] item Hj; simpl in Hj.
    + inversion Hj; subst. exists cv. rewrite Nat.add_0_r. auto.
    + destruct (Hrest j item Hj) as (cv' & H1 & H2).
      exists cv'. rewrite Nat.add_succ_r. auto.
Qed.

Lemma dict_set_length {A} key (v : A) d :
  (length d <= length (Dict.set key v d) <= S (length d))%nat /\
  (1 <= length (Dict.set key v d))%nat.
Proof.
  induction d as [|[k v0] d IH]; simpl; [lia|].
  destruct (bool_decide (k = key)); simpl; lia.
Qed.

Lemma dict_set_keys {A} key (v : A) d x :
  x ∈ Dict.keys (Dict.set key v d) -> x ∈ Dict.keys d \/ x = key.
Proof.
  unfold Dict.keys. induction d as [|[k v0] d IH]; simpl.
  - intros H. apply list_elem_of_singleton in H. auto.
  - destruct (bool_decide (k = key)); simpl; intros H;
      apply elem_of_cons in H as [H|H]; subst.
    + left. apply elem_of_cons. auto.
    + left. apply elem_of_cons. auto.
    + left. apply elem_of_cons. auto.
    + destruct (IH H); [left; apply elem_of_cons|]; auto.
Qed.

Lemma dict_set_Forall {A} (P : string * A -> Prop) key v d :
  P (key, v) -> (forall v0, P (key, v0) -> P (key, v)) ->
  Forall P d -> Forall P (Dict.set key v d).
Proof.
  intros Hv _. induction 1 as [|[k v0] d Hx Hd IH]; simpl.
  - constructor; [exact Hv|constructor].
  - destruct (bool_decide (k = key)) eqn:E.
    + apply bool_decide_eq_true in E. subst k. constructor; assumption.
    + constructor; assumption.
Qed.

Lemma capture_children_sat (P : CapturedVariable -> Prop) Q f props keys :
  forall acc,
  (forall k item, result_sat P Q (f k item)) ->
  Forall (fun kc => P (snd kc)) acc ->
  result_sat (Forall (fun kc => P (snd kc))) Q (capture_children f props keys acc).
Proof.
  induction keys as [|key rest IH]; intros acc Hf Hacc; cbn [capture_children].
  - exact Hacc.
  - eapply result_sat_bind; [apply Hf|]. intros cv Hcv.
    apply IH; [exact Hf|]. apply dict_set_Forall; auto.
Qed.

Lemma capture_children_ok f props keys : forall acc kids,
  capture_children f props keys acc = Ok kids ->
  (length acc <= length kids <= length acc + length keys)%nat /\
  (keys <> [] -> kids <> []) /\
  (forall k, k ∈ Dict.keys kids -> k ∈ Dict.keys acc \/ k ∈ keys) /\
  (forall k cv, Dict.get k kids = Some cv ->
     Dict.get k acc = Some cv \/
     (k ∈ keys /\ f k (default VUndefined (Dict.get k props)) = Ok cv)).
Proof.
  induction keys as [|key rest IH]; intros acc kids H; cbn [capture_children] in H.
  - inversion H; subst. repeat split; auto; simpl; try lia; congruence.
  - destruct (f key (default VUndefined (Dict.get key props))) as [cv| |] eqn:E;
      try discriminate.
    cbn [mbind Result_bind] in H. destruct (IH _ _ H) as (Hlen & _ & Hkeys & Hget).
    pose proof (dict_set_length key cv acc) as Hset.
    split; [simpl; lia|]. split; [|split].
    + intros _ ->. cbn [length] in Hlen. lia.
    + intros k Hk. destruct (Hkeys k Hk) as [Hin|Hin].
      * destruct (dict_set_keys _ _ _ _ Hin) as [?| ->]; auto.
        right. apply elem_of_cons. auto.
      * right. apply elem_of_cons. auto.
    + intros k c Hk. destruct (Hget k c Hk) as [Hacc|[Hin Hf]].
      * rewrite dict_get_set in Hacc.
        destruct (bool_decide (key = k)) eqn:Ek; [|auto].
        apply bool_decide_eq_true in Ek. subst k. inversion Hacc; subst.
        right. split; [apply elem_of_cons; auto|exact E].
      * right. split; [apply elem_of_cons; auto|exact Hf].
Qed.

(** *** Depth *)

Lemma height_bound nm ty val null trunc kids els len (b : nat) :
  (forall l, els = Some l -> Forall (fun c => (S (height c) <= b)%nat) l) ->
  (forall l, kids = Some l -> Forall (fun kc => (S (height (snd kc)) <= b)%nat) l) ->
  (height (mkCapturedVariable nm ty val null trunc kids els len) <= b)%nat.
Proof.
  intros Hels Hkids. cbn [height]. apply Nat.max_lub.
  - destruct els as [l|]; [|lia]. specialize (Hels l eq_refl).
    induction Hels as [|c l Hc Hl IH]; [lia|]. apply Nat.max_lub; assumption.
  - destruct kids as [l|]; [|lia]. specialize (Hkids l eq_refl).
    induction Hkids as [|c l Hc Hl IH]; [lia|]. apply Nat.max_lub; assumption.
Qed.

Lemma within_simple depth nm ty val null trunc :
  within config depth (simple nm ty val null trunc).
Proof. unfold within, simple. apply height_bound; discriminate. Qed.

(** With fuel above the remaining depth budget, a call returns a tree no
    deeper than that budget or throws for a date without a time value; it
    never runs out of fuel. *)
Lemma captureValue_fuel_sat fuel : forall nm v depth,
  (Z.to_nat (maxCaptureDepth config - depth) < fuel)%nat ->
  result_sat (within config depth) (invalid_date heap) (captureValue_fuel config heap fuel nm v depth).
Proof.
  induction fuel as [|fuel IH]; intros nm v depth Hfuel; [lia|].
  cbn [captureValue_fuel].
  destruct v; try apply within_simple.
  - destruct (_ >? _); apply within_simple.
  - destruct (heap a) as [elems|[t|]|ename emessage|size|size|href|ctor props] eqn:Ha;
      try apply within_simple.
    + destruct (depth <? maxCaptureDepth config) eqn:Ed; cbn [andb].
      * apply Z.ltb_lt in Ed.
        destruct (_ <=? _).
        -- eapply result_sat_bind.
           ++ apply capture_items_sat with (P := within config (depth + 1)).
              intros n item. apply IH. lia.
           ++ intros els Hels. cbn. apply height_bound; [|discriminate].
              intros l Hl. inversion Hl; subst l.
              eapply Forall_impl; [exact Hels|].
              unfold within. intros c Hc. lia.
        -- apply height_bound; discriminate.
      * apply height_bound; discriminate.
    + split; [reflexivity|eauto].
    + destruct (depth <? maxCaptureDepth config) eqn:Ed; [|apply within_simple].
      apply Z.ltb_lt in Ed.
      eapply result_sat_bind.
      * apply capture_children_sat with (P := within config (depth + 1)); [|constructor].
        intros k item. apply IH. lia.
      * intros kids Hkids. cbn. apply height_bound; [discriminate|].
        intros l Hl. destruct (Dict.keys kids); [discriminate|].
        inversion Hl; subst l.
        eapply Forall_impl; [exact Hkids|].
        unfold within. intros c Hc. simpl in Hc. lia.
Qed.

(** [captureValue] is total: it returns a tree whose nesting is bounded by
    the depth budget, or throws; a throw stems from a date without a time
    value. *)
Lemma captureValue_total nm v depth :
  result_sat (within config depth) (invalid_date heap) (captureValue config heap nm v depth).
Proof. apply captureValue_fuel_sat. unfold fuel_for. lia. Qed.

(** On a heap without such dates every value, cyclic ones included, is
    captured. *)
Lemma captureValue_returns nm v depth :
  (forall a, heap a <> ODate None) ->
  exists cv, captureValue config heap nm v depth = Ok cv /\ within config depth cv.
Proof.
  intros Hdates. pose proof (captureValue_total nm v depth) as H.
  destruct (captureValue config heap nm v depth) as [cv|e|]; simpl in H.
  - eauto.
  - destruct H as (_ & a & Ha). exfalso. exact (Hdates a Ha).
  - contradiction.
Qed.

(** *** The recursion, without fuel *)

Lemma fuel_for_next depth :
  depth < maxCaptureDepth config ->
  Z.to_nat (maxCaptureDepth config - depth) = fuel_for config (depth + 1).
Proof. intros H. unfold fuel_for. lia. Qed.

Lemma captureValue_array nm a elems depth :
  heap a = OArray elems ->
  let len := Z.of_nat (length elems) in
  let val := "Array(" ++ JsString.of_Z len ++ ")" in
  captureValue config heap nm (VRef a) depth =
    if (depth <? maxCaptureDepth config) && (len <=? maxCollectionSize config)
    then
      els ← capture_items
              (fun n item => captureValue config heap n item (depth + 1))
              0%nat (slice0 (maxCollectionSize config) elems);
      mret (mkCapturedVariable nm "array" val false false None (Some els) (Some len))
    else Ok (mkCapturedVariable nm "array" val false false None None (Some len)).
Proof.
  intros Ha. cbv zeta. unfold captureValue at 1, fuel_for.
  cbn [captureValue_fuel]. rewrite Ha.
  destruct (depth <? maxCaptureDepth config) eqn:Ed; [|reflexivity].
  apply Z.ltb_lt in Ed. rewrite (fuel_for_next depth Ed). reflexivity.
Qed.

Lemma captureValue_object nm a ctor props depth :
  heap a = OPlain ctor props ->
  let ty := or_else (default "" ctor) "Object" in
  let val := Deno_inspect heap (VRef a) in
  captureValue config heap nm (VRef a) depth =
    if depth <? maxCaptureDepth config
    then
      kids ← capture_children
               (fun k item => captureValue config heap k item (depth + 1))
               props (slice0 (maxCollectionSize config) (Dict.keys props)) [];
      mret (mkCapturedVariable nm ty val false false
              (match Dict.keys kids with [] => None | _ :: _ => Some kids end)
              None None)
    else Ok (simple nm ty val false false).
Proof.
  intros Ha. cbv zeta. unfold captureValue at 1, fuel_for.
  cbn [captureValue_fuel]. rewrite Ha.
  destruct (depth <? maxCaptureDepth config) eqn:Ed; [|reflexivity].
  apply Z.ltb_lt in Ed. rewrite (fuel_for_next depth Ed). reflexivity.
Qed.

(** *** Collections *)

Lemma slice0_all {A} e (l : list A) :
  Z.of_nat (length l) <= e -> slice0 e l = l.
Proof.
  intros H. unfold slice0, JsString.slice_end.
  destruct (e <? 0) eqn:E; [apply Z.ltb_lt in E; lia|].
  apply take_ge. lia.
Qed.

Lemma slice0_length {A} e (l : list A) :
  0 <= e -> Z.of_nat (length (slice0 e l)) <= e.
Proof.
  intros H. unfold slice0, JsString.slice_end.
  destruct (e <? 0) eqn:E; [apply Z.ltb_lt in E; lia|].
  rewrite length_take. lia.
Qed.

(** C9.  For an array the serializer reports the array's length in
    [arrayLength]; it attaches [arrayElements], one captured element per
    element and each captured one level deeper, exactly when the depth is
    below [maxCaptureDepth] and the length is at most [maxCollectionSize],
    and otherwise returns the length alone.  For a plain object below the
    depth limit the children are captured from the first
    [maxCollectionSize] keys, one level deeper, so there are at most that
    many, and the field is absent when no key is selected; at or beyond the
    limit there are no children.  In each case the call returns, or throws
    for a date without a time value met on the way. *)
Theorem collection_limits nm a depth :
  let r := captureValue config heap nm (VRef a) depth in
  ((exists cv, r = Ok cv) \/ (exists e, r = Throw e /\ invalid_date heap e)) /\
  (forall elems, heap a = OArray elems ->
     let len := Z.of_nat (length elems) in
     let gate := (depth <? maxCaptureDepth config) && (len <=? maxCollectionSize config) in
     (gate = false ->
        r = Ok (mkCapturedVariable nm "array" ("Array(" ++ JsString.of_Z len ++ ")")
                  false false None None (Some len))) /\
     (forall cv, r = Ok cv ->
        type cv = "array" /\ arrayLength cv = Some len /\ children cv = None /\
        if gate
        then exists els,
               arrayElements cv = Some els /\ length els = length elems /\
               forall i item, elems !! i = Some item ->
                 exists c, els !! i = Some c /\
                   captureValue config heap ("[" ++ JsString.of_nat i ++ "]") item
                     (depth + 1) = Ok c
        else arrayElements cv = None)) /\
  (forall ctor props, heap a = OPlain ctor props ->
     let selected := slice0 (maxCollectionSize config) (Dict.keys props) in
     (maxCaptureDepth config <= depth ->
        r = Ok (simple nm (or_else (default "" ctor) "Object")
                  (Deno_inspect heap (VRef a)) false false)) /\
     (forall cv, r = Ok cv ->
        arrayElements cv = None /\ arrayLength cv = None /\
        if depth <? maxCaptureDepth config
        then match children cv with
             | None => selected = []
             | Some kids =>
                 kids <> [] /\
                 (0 <= maxCollectionSize config ->
                    Z.of_nat (length kids) <= maxCollectionSize config) /\
                 (forall k, k ∈ Dict.keys kids -> k ∈ selected) /\
                 (forall k c, Dict.get k kids = Some c ->
                    captureValue config heap k
                      (default VUndefined (Dict.get k props)) (depth + 1) = Ok c)
             end
        else children cv = None)).
Proof.
  cbv zeta. split; [|split].
  - pose proof (captureValue_total nm (VRef a) depth) as H.
    destruct (captureValue config heap nm (VRef a) depth) as [cv|e|]; simpl in H;
      [left|right|contradiction]; eauto.
  - intros elems Ha. rewrite (captureValue_array nm a elems depth Ha). cbv zeta.
    destruct ((depth <? maxCaptureDepth config)
              && (Z.of_nat (length elems) <=? maxCollectionSize config)) eqn:Egate.
    + split; [discriminate|]. intros cv Hcv.
      apply andb_true_iff in Egate as [_ Hlen]. apply Z.leb_le in Hlen.
      rewrite slice0_all in Hcv by exact Hlen.
      destruct (capture_items _ 0%nat elems) as [els| |] eqn:Eitems;
        try discriminate.
      cbn in Hcv. inversion Hcv; subst cv. cbn.
      destruct (capture_items_ok _ _ _ _ Eitems) as [Hl Hitems].
      repeat split. exists els. repeat split; auto.
    + split; [reflexivity|]. intros cv Hcv. inversion Hcv; subst cv. cbn. auto.
  - intros ctor props Ha. rewrite (captureValue_object nm a ctor props depth Ha).
    cbv zeta. destruct (depth <? maxCaptureDepth config) eqn:Ed.
    + apply Z.ltb_lt in Ed. split; [lia|]. intros cv Hcv.
      destruct (capture_children _ props _ []) as [kids| |] eqn:Ekids;
        try discriminate.
      cbn in Hcv. inversion Hcv; subst cv. cbn.
      destruct (capture_children_ok _ _ _ _ _ Ekids) as (Hlen & Hne & Hkeys & Hget).
      split; [reflexivity|]. split; [reflexivity|].
      destruct kids as [|kc kids]; cbn.
      * destruct (slice0 _ (Dict.keys props)) as [|k ks] eqn:Esel; [reflexivity|].
        exfalso. apply Hne; [discriminate|reflexivity].
      * split; [discriminate|]. split; [|split].
        -- intros Hcoll.
           pose proof (slice0_length (maxCollectionSize config) (Dict.keys props) Hcoll).
           simpl in Hlen. simpl. lia.
        -- intros k Hk. destruct (Hkeys k Hk) as [Hin|Hin]; [|exact Hin].
           inversion Hin.
        -- intros k c Hk. destruct (Hget k c Hk) as [Hin|[_ Hf]]; [|exact Hf].
           discriminate.
    + apply Z.ltb_ge in Ed. split; [reflexivity|].
      intros cv Hcv. inversion Hcv; subst cv. cbn. auto.
Qed.

End SerializerProperties.

(** C2 on the code: a date without a time value makes [captureValue] throw,
    and [captureVariables] with it, whatever the configuration. *)
Theorem invalid_date_raises `{rt : Runtime} (config : AgentConfig) nm depth :
  Capture.captureValue config (fun _ => ODate None) nm (VRef 0) depth
    = Throw (RangeError "Invalid time value") /\
  Capture.captureVariables config (fun _ => ODate None) [(nm, VRef 0)] depth
    = Throw (RangeError "Invalid time value").
Proof. split; reflexivity. Qed.

(** The same through the public entry point: [captureException] with a
    local variable holding such a date throws to its caller. *)
Example captureException_raises :
  Agent.captureException (rt := Sample.runtime) (fun _ => ODate None)
    Sample.type_error_1 None (Some [("d", VRef 0)]) Sample.ambient
    (Agent.init (rt := Sample.runtime) Sample.config Agent.freshProcess)
  = Throw (RangeError "Invalid time value").
Proof. vm_compute. reflexivity. Qed.

(** A self-referential object is captured down to the depth limit. *)
Lemma cyclic_value_captured :
  exists cv,
    Capture.captureValue (rt := Sample.runtime) Sample.config Sample.cyclic
      "node" (VRef 0) 0 = Ok cv /\
    height cv = 10%nat.
Proof. eexists. split; vm_compute; reflexivity. Qed.

(** C9 at an array of three elements, within the limits. *)
Lemma collection_limits_witness :
  exists cv,
    Capture.captureValue (rt := Sample.runtime) Sample.config Sample.fruit
      "items" (VRef 0) 0 = Ok cv /\
    arrayLength cv = Some 3 /\
    exists els, arrayElements cv = Some els /\ length els = 3%nat.
Proof.
  destruct (collection_limits (rt := Sample.runtime) Sample.config Sample.fruit
              "items" 0%nat 0) as (_ & Harray & _).
  destruct (Harray [VString "apple"; VString "banana"; VString "cherry"] eq_refl)
    as (_ & Hshape).
  eexists. split; [vm_compute; reflexivity|].
  edestruct Hshape as (_ & Hlen & _ & Hels); [vm_compute; reflexivity|].
  split; [exact Hlen|].
  destruct Hels as (els & H1 & H2 & _). exists els. split; [exact H1|exact H2].
Defined.


(** C7 at a string of five characters and a limit of three. *)
Lemma string_truncation_witness :
  exists cv,
    Capture.captureValue (rt := Sample.runtime) Sample.short_strings
      (fun _ => OMap 0) "s" (VString "hello") 0 = Ok cv /\
    value cv = "hel" /\ isTruncated cv = true.
Proof.
  destruct (string_truncation (rt := Sample.runtime) Sample.short_strings
              (fun _ => OMap 0) "s" "hello" 0)
    as (cv & Hcv & _ & _ & Hlong & _); [vm_compute; discriminate|].
  exists cv. split; [exact Hcv|].
  destruct Hlong as (_ & Hvalue & Htrunc); [vm_compute; reflexivity|].
  split; [exact Hvalue|exact Htrunc].
Defined.

(** C5 at two errors that differ in message, file and later frames. *)
Lemma fingerprint_by_call_site_witness :
  Capture.calculateFingerprint Sample.type_error_1 Sample.frames_1
    = Capture.calculateFingerprint Sample.type_error_2 Sample.frames_2.
Proof.
  destruct fingerprint_by_call_site as (_ & Hsame).
  apply Hsame; reflexivity.
Defined.

(** C6 at a custom context, a supplied context and a user that collide. *)
Lemma context_merge_precedence_witness :
  let merged :=
    context (Capture.createCapture Sample.config Sample.type_error_1
               (Some Sample.supplied) "id-1" "2026-01-01T00:00:00.000Z") in
  Dict.get "user" merged = Some (CtxUser (user Sample.config)) /\
  Dict.get "region" merged = Some (CtxValue (VString "us")) /\
  Dict.get "release" merged = Some (CtxValue (VString "1.2.3")).
Proof.
  destruct (context_merge_precedence Sample.config Sample.type_error_1
              (Some Sample.supplied) "id-1" "2026-01-01T00:00:00.000Z")
    as (_ & Hget).
  assert (H1 : NoDup (Dict.keys (customContext Sample.config)))
    by (apply (bool_decide_unpack _); vm_compute; exact I).
  assert (H2 : NoDup (Dict.keys (default [] (Some Sample.supplied))))
    by (apply (bool_decide_unpack _); vm_compute; exact I).
  cbv zeta in *. rewrite !(Hget H1 H2). repeat split.
Defined.

(** * Properties of the hooks *)

Section AgentProperties.
Import Agent.
Context {rt : Runtime}.

Lemma uninstall_cases i p :
  uninstall i p = p \/
  (uninstall i p = update i (set_installed false) p /\
   installed <$> instances p !! i = Some true).
Proof.
  unfold uninstall. destruct (instances p !! i) as [a|] eqn:E; [|auto].
  destruct (installed a) eqn:Ei; simpl; [right|left; reflexivity].
  split; [reflexivity|]. rewrite Ei. reflexivity.
Qed.

Lemma uninstall_instance i p a :
  instances p !! i = Some a ->
  instances (uninstall i p) !! i = Some (set_installed false a).
Proof.
  intros H. unfold uninstall. rewrite H.
  destruct (installed a) eqn:Ei; simpl.
  - rewrite list_lookup_alter_eq, H. reflexivity.
  - rewrite H. destruct a; simpl in *. subst. reflexivity.
Qed.

(** The first process state that holds listeners: one [init], then
    [shutdown]. *)
Lemma init_shutdown cfg :
  apiKey cfg <> "" ->
  shutdown (init cfg freshProcess)
    = mkProcess
        [mkInstance cfg (Transport.disconnect (Transport.connect cfg Transport.initialWorld))
           false]
        [(ErrorEvent, 0%nat); (UnhandledRejectionEvent, 0%nat)] None false.
Proof.
  intros Hkey. unfold init. cbn [initialized freshProcess].
  rewrite bool_decide_eq_false_2 by exact Hkey. reflexivity.
Qed.

Lemma queue_after_teardown cfg msg :
  Transport.messageQueue
    (Transport.conn
       (Transport.send msg
          (Transport.disconnect (Transport.connect cfg Transport.initialWorld))))
  = [msg].
Proof.
  unfold Transport.connect. cbn [Transport.ws_is_open Transport.initialWorld
    Transport.conn Transport.ws Transport.initialConnection].
  destruct (WebSocket_accepts (backendUrl cfg)); reflexivity.
Qed.

Lemma listener_sampled ty i error amb p a :
  instances p !! i = Some a ->
  Config.shouldSample (config a) (draw amb) = true ->
  listener ty i error amb p
  = match JSON_throws (Capture.createCapture (config a) error (Some (origin ty))
                         (uuid amb) (isoNow amb)) with
    | Some msg => Throw (TypeError msg)
    | None =>
        Ok (update i
              (fun _ =>
                 mkInstance (config a)
                   (Transport.send
                      (JSON_stringify
                         (ExceptionEnvelope
                            (Capture.createCapture (config a) error (Some (origin ty))
                               (uuid amb) (isoNow amb))
                            (agentId (config a)) (environment (config a)) (now amb)))
                      (connection a))
                   (installed a))
              p)
    end.
Proof.
  intros Ha Hsample. unfold listener. rewrite Ha.
  unfold handleException. rewrite Hsample. cbn [negb].
  unfold Transport.sendException. destruct (JSON_throws _); reflexivity.
Qed.

(** C10.  [uninstall()] clears the [installed] flag of its handler and
    changes nothing else: the listeners registered by [install()] stay
    registered, and the configuration and connection they close over stay as
    they were.  A listener called after [uninstall()] therefore still builds
    the report and hands it to the connection: when the report can be
    serialized its message reaches the connection, and when it cannot the
    listener throws the [TypeError] of [JSON.stringify].  After [init] and
    [shutdown] both listeners are still registered, and an event whose sample
    is taken leaves its serialized report in the send queue of the torn-down
    connection. *)
Theorem uninstall_keeps_listeners :
  (forall i p,
     listeners (uninstall i p) = listeners p /\
     current (uninstall i p) = current p /\
     initialized (uninstall i p) = initialized p /\
     forall j a, instances p !! j = Some a ->
       instances (uninstall i p) !! j
         = Some (if bool_decide (i = j) then set_installed false a else a)) /\
  (forall i p a ty error amb,
     instances p !! i = Some a ->
     Config.shouldSample (config a) (draw amb) = true ->
     let report :=
       Capture.createCapture (config a) error (Some (origin ty)) (uuid amb) (isoNow amb) in
     (JSON_throws report = None ->
      exists p',
        listener ty i error amb (uninstall i p) = Ok p' /\
        instances p' !! i
          = Some (mkInstance (config a)
                    (Transport.send
                       (JSON_stringify
                          (ExceptionEnvelope report (agentId (config a))
                             (environment (config a)) (now amb)))
                       (connection a))
                    false)) /\
     (forall msg, JSON_throws report = Some msg ->
        listener ty i error amb (uninstall i p) = Throw (TypeError msg))) /\
  (forall cfg ty error ambs,
     apiKey cfg <> "" ->
     Config.shouldSample cfg (draw (ambs 0%nat)) = true ->
     let p := shutdown (init cfg freshProcess) in
     let report :=
       Capture.createCapture cfg error (Some (origin ty))
         (uuid (ambs 0%nat)) (isoNow (ambs 0%nat)) in
     initialized p = false /\
     listeners p = [(ErrorEvent, 0%nat); (UnhandledRejectionEvent, 0%nat)] /\
     queue_of 0 p = Some [] /\
     (JSON_throws report = None ->
      exists p',
        dispatch ty error ambs p = Ok p' /\
        queue_of 0 p'
          = Some [JSON_stringify
                    (ExceptionEnvelope report (agentId cfg) (environment cfg)
                       (now (ambs 0%nat)))]) /\
     (forall msg, JSON_throws report = Some msg ->
        dispatch ty error ambs p = Throw (TypeError msg))).
Proof.
  split; [|split].
  - intros i p.
    destruct (uninstall_cases i p) as [H|[H Hi]]; rewrite H.
    + repeat split. intros j a Hj. rewrite Hj. f_equal.
      destruct (bool_decide (i = j)) eqn:E; [|reflexivity].
      apply bool_decide_eq_true in E. subst j.
      unfold uninstall in H. rewrite Hj in H.
      destruct (installed a) eqn:Ea; simpl in H.
      * exfalso. apply (f_equal (fun q => installed <$> instances q !! i)) in H.
        simpl in H. rewrite list_lookup_alter_eq, Hj in H. simpl in H.
        rewrite Ea in H. discriminate.
      * destruct a; simpl in *; subst; reflexivity.
    + repeat split. intros j a Hj. simpl.
      destruct (bool_decide (i = j)) eqn:E.
      * apply bool_decide_eq_true in E. subst j.
        rewrite list_lookup_alter_eq, Hj. reflexivity.
      * apply bool_decide_eq_false in E.
        rewrite list_lookup_alter_ne by exact E. exact Hj.
  - intros i p a ty error amb Ha Hsample report.
    pose proof (listener_sampled ty i error amb (uninstall i p) (set_installed false a)
                  (uninstall_instance i p a Ha) Hsample) as Hl.
    cbn [config connection installed set_installed] in Hl. fold report in Hl.
    split.
    + intros Hok. rewrite Hok in Hl. eexists. split; [exact Hl|].
      unfold update. cbn [instances].
      rewrite list_lookup_alter_eq, (uninstall_instance i p a Ha). reflexivity.
    + intros msg Hmsg. rewrite Hmsg in Hl. exact Hl.
  - intros cfg ty error ambs Hkey Hsample p report. subst p.
    rewrite (init_shutdown cfg Hkey).
    split; [reflexivity|]. split; [reflexivity|]. split.
    + unfold queue_of. cbn [instances lookup list_lookup fmap option_fmap option_map connection].
      unfold Transport.connect. cbn [Transport.ws_is_open Transport.initialWorld
        Transport.conn Transport.ws Transport.initialConnection].
      destruct (WebSocket_accepts (backendUrl cfg)); reflexivity.
    + set (a0 := mkInstance cfg
                   (Transport.disconnect (Transport.connect cfg Transport.initialWorld))
                   false).
      set (p0 := mkProcess [a0] [(ErrorEvent, 0%nat); (UnhandledRejectionEvent, 0%nat)]
                   None false).
      pose proof (listener_sampled ty 0 error (ambs 0%nat) p0 a0 eq_refl Hsample) as Hl.
      cbn [config connection installed a0] in Hl. fold report in Hl.
      assert (Hd : dispatch ty error ambs p0
                   = p' ← listener ty 0 error (ambs 0%nat) p0; Ok p').
      { unfold dispatch. cbn [listeners p0 dispatch_to].
        destruct ty.
        - rewrite bool_decide_eq_true_2 by reflexivity.
          rewrite bool_decide_eq_false_2 by discriminate.
          destruct (listener _ _ _ _ _); reflexivity.
        - rewrite bool_decide_eq_false_2 by discriminate.
          rewrite bool_decide_eq_true_2 by reflexivity.
          destruct (listener _ _ _ _ _); reflexivity. }
      rewrite Hd, Hl. split.
      * intros Hok. rewrite Hok. cbn [mbind Result_bind].
        eexists. split; [reflexivity|].
        unfold queue_of, update, p0.
        cbn [instances alter list_alter lookup list_lookup fmap option_fmap option_map
             connection].
        rewrite queue_after_teardown. reflexivity.
      * intros msg Hmsg. rewrite Hmsg. reflexivity.
Qed.

End AgentProperties.

(** C10 at the sample configuration and an error event. *)
Lemma uninstall_keeps_listeners_witness :
  exists p',
    Agent.dispatch (rt := Sample.runtime) Agent.ErrorEvent Sample.type_error_1
      (fun _ => Sample.ambient)
      (Agent.shutdown (Agent.init (rt := Sample.runtime) Sample.config Agent.freshProcess))
    = Ok p' /\
    queue_of 0 p' = Some ["{type:exception,id:id-1}"].
Proof.
  destruct (uninstall_keeps_listeners (rt := Sample.runtime)) as (_ & _ & Hdown).
  destruct (Hdown Sample.config Agent.ErrorEvent Sample.type_error_1
              (fun _ => Sample.ambient)) as (_ & _ & _ & Hqueue & _);
    [vm_compute; discriminate|vm_compute; reflexivity|].
  apply Hqueue. vm_compute. reflexivity.
Defined.


(** * Further properties of the transport *)

Section TransportDelivery.
Import Transport.
Context {rt : Runtime}.
Variable config : AgentConfig.

Lemma ws_send_frame msg w :
  nextTimer (ws_send msg w) = nextTimer w /\
  length (sockets (ws_send msg w)) = length (sockets w).
Proof.
  unfold ws_send. destruct (ws (conn w)); cbn; rewrite ?length_alter; auto.
Qed.

(** What the loop of [flushQueue] never touches. *)
Lemma flushQueue_loop_frame fuel : forall w,
  let w' := flushQueue_loop fuel w in
  ws (conn w') = ws (conn w) /\
  authenticated (conn w') = authenticated (conn w) /\
  reconnectAttempts (conn w') = reconnectAttempts (conn w) /\
  reconnectTimer (conn w') = reconnectTimer (conn w) /\
  timers w' = timers w /\ nextTimer w' = nextTimer w /\
  length (sockets w') = length (sockets w).
Proof.
  induction fuel as [|fuel IH]; intros w; cbn [flushQueue_loop]; [repeat split|].
  destruct (messageQueue (conn w)) as [|msg rest]; [repeat split|].
  destruct (ws_is_open w); [|repeat split].
  destruct (bool_decide (msg = "")).
  - destruct (IH (with_conn (set_messageQueue rest) w)) as (H1 & H2 & H3 & H4 & H5 & H6 & H7).
    cbv zeta. rewrite H1, H2, H3, H4, H5, H6, H7. repeat split.
  - destruct (IH (ws_send msg (with_conn (set_messageQueue rest) w)))
      as (H1 & H2 & H3 & H4 & H5 & H6 & H7).
    cbv zeta. rewrite H1, H2, H3, H4, H5, H6, H7.
    rewrite conn_ws_send, timers_ws_send.
    destruct (ws_send_frame msg (with_conn (set_messageQueue rest) w)) as [-> ->].
    repeat split.
Qed.

Lemma attempts_scheduleReconnect w :
  (reconnectAttempts (conn w) <= 10)%N ->
  (reconnectAttempts (conn (scheduleReconnect w)) <= 10)%N.
Proof.
  intros H. unfold scheduleReconnect, maxReconnectAttempts.
  destruct (10 <=? reconnectAttempts (conn w))%N eqn:E; [exact H|].
  apply N.leb_gt in E. cbn. lia.
Qed.

Lemma attempts_connect w :
  (reconnectAttempts (conn w) <= 10)%N ->
  (reconnectAttempts (conn (connect config w)) <= 10)%N.
Proof.
  intros H. unfold connect. destruct (ws_is_open w); [exact H|].
  destruct (WebSocket_accepts _); [exact H|apply attempts_scheduleReconnect, H].
Qed.

Lemma attempts_handleMessage data w :
  reconnectAttempts (conn (handleMessage data w)) = reconnectAttempts (conn w).
Proof.
  unfold handleMessage. destruct (JSON_parse_type data); [|reflexivity].
  destruct (bool_decide _); [|reflexivity].
  unfold flushQueue.
  destruct (flushQueue_loop_frame
              (length (messageQueue (conn (with_conn (set_authenticated true) w))))
              (with_conn (set_authenticated true) w)) as (_ & _ & H & _).
  exact H.
Qed.

Lemma step_attempts_bound w e :
  (reconnectAttempts (conn w) <= 10)%N ->
  (reconnectAttempts (conn (step config w e)) <= 10)%N.
Proof.
  intros H. destruct e; cbn [step].
  - destruct (bool_decide _); [|exact H].
    unfold onopen. rewrite attempts_authenticate. cbn. lia.
  - destruct (bool_decide _); [|exact H].
    unfold onmessage. rewrite attempts_handleMessage. exact H.
  - destruct (readyState_of w i) as [[]|]; try exact H;
      unfold onclose; apply attempts_scheduleReconnect; exact H.
  - destruct (readyState_of w i); exact H.
  - destruct (timers w !! timer); [|exact H]. apply attempts_connect. exact H.
  - apply attempts_connect. exact H.
  - unfold disconnect. destruct w as [[s a n q [t|]] ss ts nt]; destruct s; exact H.
  - unfold sendException. destruct (JSON_throws capture); [exact H|].
    unfold send. destruct (_ && _).
    + rewrite conn_ws_send. exact H.
    + destruct (_ <? _)%nat; exact H.
Qed.

(** X1.  In every execution the attempt counter stays at most 10: whatever
    the calls and events, no more than ten reconnects are scheduled between
    two socket openings. *)
Theorem reconnect_attempts_bounded es :
  (reconnectAttempts (conn (run config initialWorld es)) <= 10)%N.
Proof.
  unfold run. assert (H : (reconnectAttempts (conn initialWorld) <= 10)%N) by (cbn; lia).
  revert H. generalize initialWorld.
  induction es as [|e es IH]; intros w H; cbn [fold_left]; [exact H|].
  apply IH, step_attempts_bound, H.
Qed.

Lemma send_not_ready msg w :
  ws_is_open w && authenticated (conn w) = false ->
  ws_is_open (send msg w) && authenticated (conn (send msg w)) = false.
Proof.
  intros H. unfold send. rewrite H.
  destruct (_ <? _)%nat; exact H.
Qed.

(** X2.  While the connection is not ready a burst of messages is queued
    oldest first and cut at 1000: the queue becomes the first 1000 of the old
    queue followed by the burst, and nothing else changes (nothing is
    transmitted, no message already queued is displaced). *)
Theorem burst_keeps_oldest msgs : forall w,
  ws_is_open w && authenticated (conn w) = false ->
  (length (messageQueue (conn w)) <= 1000)%nat ->
  send_all msgs w
    = with_conn (set_messageQueue (take 1000 (messageQueue (conn w) ++ msgs))) w.
Proof.
  unfold send_all.
  induction msgs as [|msg msgs IH]; intros w Hready Hlen; cbn [fold_left].
  - rewrite app_nil_r, take_ge by exact Hlen.
    destruct w as [[? ? ? ? ?] ? ? ?]. reflexivity.
  - rewrite IH; [|apply send_not_ready, Hready|apply queue_send, Hlen].
    unfold send. rewrite Hready.
    destruct (length (messageQueue (conn w)) <? 1000)%nat eqn:E.
    + cbn. rewrite <- app_assoc. reflexivity.
    + apply Nat.ltb_ge in E.
      rewrite !take_app_le by lia. rewrite take_ge by lia.
      destruct w as [[? ? ? ? ?] ? ? ?]. reflexivity.
Qed.

(** X3.  On a ready connection messages go out at once and in call order:
    the frames handed to the socket grow by exactly the burst, and the
    connection's own state, its queue included, stays as it was. *)
Theorem ready_sends_in_order msgs : forall w,
  ws_is_open w = true ->
  authenticated (conn w) = true ->
  sent_on (send_all msgs w) = (sent_on w ++ msgs)%list /\
  conn (send_all msgs w) = conn w /\
  timers (send_all msgs w) = timers w.
Proof.
  unfold send_all.
  induction msgs as [|msg msgs IH]; intros w Hopen Hauth; cbn [fold_left].
  - rewrite app_nil_r. auto.
  - assert (Hsend : send msg w = ws_send msg w).
    { unfold send. rewrite Hopen, Hauth. reflexivity. }
    rewrite Hsend.
    destruct (IH (ws_send msg w)) as (H1 & H2 & H3).
    + rewrite ws_is_open_ws_send. exact Hopen.
    + rewrite conn_ws_send. exact Hauth.
    + rewrite H1, H2, H3, sent_on_ws_send, conn_ws_send, timers_ws_send by exact Hopen.
      rewrite <- app_assoc. auto.
Qed.

(** X4.  An inbound message that cannot be parsed, or whose type is not
    [registered], changes nothing; and no inbound message whatsoever changes
    the socket held, the attempt counter or the timers, or lengthens the
    queue. *)
Theorem inbound_messages_contained data w :
  (JSON_parse_type data <> Some "registered" -> handleMessage data w = w) /\
  ws (conn (handleMessage data w)) = ws (conn w) /\
  reconnectAttempts (conn (handleMessage data w)) = reconnectAttempts (conn w) /\
  reconnectTimer (conn (handleMessage data w)) = reconnectTimer (conn w) /\
  timers (handleMessage data w) = timers w /\
  (length (messageQueue (conn (handleMessage data w)))
   <= length (messageQueue (conn w)))%nat.
Proof.
  split.
  - intros H. unfold handleMessage. destruct (JSON_parse_type data) as [ty|]; [|reflexivity].
    destruct (bool_decide (ty = "registered")) eqn:E; [|reflexivity].
    apply bool_decide_eq_true in E. subst ty. contradiction.
  - split; [|split; [exact (attempts_handleMessage data w)|split; [|split]]];
      try apply queue_handleMessage;
      unfold handleMessage; destruct (JSON_parse_type data); try reflexivity;
      destruct (bool_decide _); try reflexivity; unfold flushQueue;
      destruct (flushQueue_loop_frame
                  (length (messageQueue (conn (with_conn (set_authenticated true) w))))
                  (with_conn (set_authenticated true) w))
        as (H1 & H2 & H3 & H4 & H5 & H6 & H7); assumption.
Qed.

(** X5.  Messages queued while the connection was down are delivered by
    the next successful connection: after [connect()], the socket's opening
    and the backend's acknowledgement, the new socket has been handed the
    registration message followed by the queued messages in queue order, the
    queue is empty, the connection is authenticated and the attempt counter
    is back at 0. *)
Theorem queue_delivered_after_reconnect w now ack :
  ws_is_open w = false ->
  WebSocket_accepts (backendUrl config) = true ->
  JSON_parse_type ack = Some "registered" ->
  let i := length (sockets w) in
  let w' := run config w [CallConnect; SocketOpened i now; SocketMessage i ack] in
  ws (conn w') = Some i /\
  readyState_of w' i = Some OPEN /\
  authenticated (conn w') = true /\
  reconnectAttempts (conn w') = 0%N /\
  messageQueue (conn w') = [] /\
  sent_on w'
    = JSON_stringify
        (RegisterEnvelope (apiKey config) (agentId config) (hostname config)
           (environment config) now)
      :: List.filter nonempty (messageQueue (conn w)).
Proof.
  intros Hclosed Hurl Hack. cbv zeta. unfold run. cbn [fold_left].
  set (i := length (sockets w)).
  (* connect() *)
  assert (H1 : step config w CallConnect
               = mkWorld (set_ws (Some i) (conn w)) (sockets w ++ [newSocket])
                   (timers w) (nextTimer w)).
  { cbn [step]. unfold connect. rewrite Hclosed, Hurl. reflexivity. }
  rewrite H1. clear H1.
  set (w1 := mkWorld (set_ws (Some i) (conn w)) (sockets w ++ [newSocket])
               (timers w) (nextTimer w)).
  assert (Hsock1 : (sockets w ++ [newSocket])%list !! i = Some newSocket).
  { apply list_lookup_middle. reflexivity. }
  (* the socket opens *)
  set (w1' := with_sockets (alter (socket_set_state OPEN) i) w1).
  assert (Hopen1 : ws_is_open (with_conn (set_reconnectAttempts 0%N) w1') = true).
  { unfold ws_is_open, readyState_of, w1', w1.
    cbn [with_conn conn ws set_reconnectAttempts with_sockets sockets set_ws].
    rewrite list_lookup_alter_eq, Hsock1. reflexivity. }
  assert (Hsent1 : sent_on (with_conn (set_reconnectAttempts 0%N) w1') = []).
  { unfold sent_on, w1', w1.
    cbn [with_conn conn ws set_reconnectAttempts with_sockets sockets set_ws].
    rewrite list_lookup_alter_eq, Hsock1. reflexivity. }
  set (auth := JSON_stringify
                 (RegisterEnvelope (apiKey config) (agentId config) (hostname config)
                    (environment config) now)).
  assert (H2 : step config w1 (SocketOpened i now)
               = ws_send auth (with_conn (set_reconnectAttempts 0%N) w1')).
  { assert (Hrs : readyState_of w1 i = Some CONNECTING).
    { unfold readyState_of, w1. cbn [sockets]. rewrite Hsock1. reflexivity. }
    cbn [step]. rewrite bool_decide_eq_true_2 by exact Hrs.
    unfold onopen, authenticate. fold w1'. rewrite Hopen1. reflexivity. }
  rewrite H2. clear H2.
  set (w2 := ws_send auth (with_conn (set_reconnectAttempts 0%N) w1')).
  assert (Hopen2 : ws_is_open w2 = true).
  { unfold w2. rewrite ws_is_open_ws_send. exact Hopen1. }
  assert (Hconn2 : conn w2 = set_reconnectAttempts 0%N (set_ws (Some i) (conn w))).
  { unfold w2. rewrite conn_ws_send. reflexivity. }
  assert (Hsent2 : sent_on w2 = [auth]).
  { unfold w2. rewrite sent_on_ws_send by exact Hopen1. rewrite Hsent1. reflexivity. }
  assert (Hstate2 : readyState_of w2 i = Some OPEN).
  { unfold ws_is_open in Hopen2. rewrite Hconn2 in Hopen2. cbn in Hopen2.
    apply bool_decide_eq_true in Hopen2. exact Hopen2. }
  (* the acknowledgement arrives *)
  cbn [step]. rewrite bool_decide_eq_true_2 by exact Hstate2.
  unfold onmessage, handleMessage. rewrite Hack.
  rewrite bool_decide_eq_true_2 by reflexivity.
  set (w2' := with_conn (set_authenticated true) w2).
  destruct (flushQueue_loop_open (length (messageQueue (conn w2'))) w2')
    as (Hc & Hs & Ho & _); [exact Hopen2|lia|].
  unfold flushQueue. cbv zeta in Hc, Hs, Ho.
  assert (Hconn3 : conn w2' = set_authenticated true (conn w2)) by reflexivity.
  rewrite Hc, Hs. rewrite Hconn3, Hconn2.
  assert (Hws3 : ws (conn (flushQueue_loop (length (messageQueue (conn w2'))) w2')) = Some i).
  { rewrite Hc, Hconn3, Hconn2. reflexivity. }
  split; [reflexivity|]. split.
  { unfold ws_is_open in Ho. rewrite Hws3 in Ho.
    apply bool_decide_eq_true in Ho. exact Ho. }
  split; [reflexivity|]. split; [reflexivity|]. split; [reflexivity|].
  change (sent_on w2') with (sent_on w2). rewrite Hsent2. reflexivity.
Qed.

End TransportDelivery.

(** X2 at a queue of 998 messages and a burst of four. *)
Lemma burst_keeps_oldest_witness :
  Transport.messageQueue
    (Transport.conn (send_all ["a"; "b"; "c"; "d"] Scenario.nearly_full))
  = (repeat "m" 998 ++ ["a"; "b"])%list.
Proof.
  rewrite (burst_keeps_oldest ["a"; "b"; "c"; "d"] Scenario.nearly_full);
    [|vm_compute; reflexivity|vm_compute; lia].
  vm_compute. reflexivity.
Defined.

(** X3 at a registered session. *)
Lemma ready_sends_in_order_witness :
  Transport.sent_on (send_all ["a"; "b"] Scenario.ready)
  = ["{type:register,agent_id:agent-1}"; "a"; "b"].
Proof.
  destruct (ready_sends_in_order ["a"; "b"] Scenario.ready) as (H & _);
    [vm_compute; reflexivity|vm_compute; reflexivity|].
  rewrite H. vm_compute. reflexivity.
Defined.

(** X4 at a message that is not JSON. *)
Lemma inbound_messages_contained_witness :
  Transport.handleMessage (rt := Sample.runtime) "not json" Scenario.ready
  = Scenario.ready.
Proof.
  destruct (inbound_messages_contained (rt := Sample.runtime) "not json" Scenario.ready)
    as (H & _).
  apply H. vm_compute. discriminate.
Defined.

(** X5 at a torn-down session holding two queued reports. *)
Lemma queue_delivered_after_reconnect_witness :
  Transport.sent_on
    (Transport.run (rt := Sample.runtime) Sample.config Scenario.down_with_queue
       [Transport.CallConnect; Transport.SocketOpened 1 7;
        Transport.SocketMessage 1 "{type:registered}"])
  = ["{type:register,agent_id:agent-1}"; "r1"; "r2"].
Proof.
  destruct (queue_delivered_after_reconnect (rt := Sample.runtime) Sample.config
              Scenario.down_with_queue 7 "{type:registered}")
    as (_ & _ & _ & _ & _ & H);
    [vm_compute; reflexivity|vm_compute; reflexivity|vm_compute; reflexivity|].
  exact H.
Defined.

(** * Decimal text *)

Section DecimalText.
Import JsString.

Lemma chars_app (a b : string) : chars (a ++ b) = (chars a ++ chars b)%list.
Proof.
  unfold chars. induction a as [|c a IH]; simpl; [reflexivity|].
  rewrite IH. reflexivity.
Qed.

Lemma of_chars_chars (s : string) : of_chars (chars s) = s.
Proof. apply string_of_list_ascii_of_string. Qed.

Lemma chars_of_chars (cs : list ascii) : chars (of_chars cs) = cs.
Proof. apply list_ascii_of_string_of_list_ascii. Qed.

Lemma uint_digits d :
  forallb is_digit (chars (NilEmpty.string_of_uint d)) = true.
Proof. induction d; simpl; auto. Qed.

Lemma fold_uint_pos d : forall q,
  fold_left digit_step (chars (NilEmpty.string_of_uint d)) (N.pos q)
    = N.pos (Pos.of_uint_acc d q).
Proof.
  induction d; intros q;
    cbn [NilEmpty.string_of_uint chars list_ascii_of_string fold_left Pos.of_uint_acc];
    [reflexivity|..];
    match goal with
    | |- fold_left _ _ ?acc = N.pos (Pos.of_uint_acc _ ?q') =>
        replace acc with (N.pos q') by (unfold digit_step; cbn; lia)
    end; apply IHd.
Qed.

Lemma fold_uint d :
  fold_left digit_step (chars (NilEmpty.string_of_uint d)) 0%N = Pos.of_uint d.
Proof.
  induction d;
    cbn [NilEmpty.string_of_uint chars list_ascii_of_string fold_left Pos.of_uint];
    [reflexivity|exact IHd|..];
    match goal with
    | |- fold_left _ _ ?acc = N.pos (Pos.of_uint_acc _ ?q') =>
        change acc with (N.pos q')
    end; apply fold_uint_pos.
Qed.

(** The decimal text of a natural number is its digits, at least one. *)
Lemma of_N_text n : of_N n = NilEmpty.string_of_uint (N.to_uint n).
Proof.
  destruct n as [|q]; [reflexivity|].
  unfold of_N, of_Z. cbn [Z.of_N Z.to_int NilZero.string_of_int N.to_uint].
  unfold NilZero.string_of_uint.
  pose proof (DecimalPos.Unsigned.to_uint_nonnil q) as H.
  destruct (Pos.to_uint q); [contradiction|..]; reflexivity.
Qed.

Lemma of_N_digits n :
  forallb is_digit (chars (of_N n)) = true /\ chars (of_N n) <> [].
Proof.
  rewrite of_N_text. split; [apply uint_digits|].
  destruct n as [|q]; [discriminate|]. cbn [N.to_uint].
  pose proof (DecimalPos.Unsigned.to_uint_nonnil q) as H.
  destruct (Pos.to_uint q); [contradiction|..]; discriminate.
Qed.

(** Reading back the decimal text of a number gives the number. *)
Lemma parseInt_of_N n : JsString.parseInt (of_N n) = n.
Proof.
  unfold JsString.parseInt. rewrite of_N_text.
  change (fun acc c => (10 * acc + (code c - 48))%N) with digit_step.
  rewrite fold_uint. apply DecimalN.Unsigned.of_to.
Qed.

Lemma of_Z_text z :
  of_Z z = if z <? 0 then "-" ++ of_N (Z.to_N (- z)) else of_N (Z.to_N z).
Proof.
  destruct z as [|q|q]; [reflexivity|reflexivity|].
  change (of_Z (Z.neg q) = "-" ++ of_N (N.pos q)). rewrite of_N_text.
  unfold of_Z. cbn [Z.to_int NilZero.string_of_int N.to_uint].
  unfold NilZero.string_of_uint.
  pose proof (DecimalPos.Unsigned.to_uint_nonnil q) as H.
  destruct (Pos.to_uint q); [contradiction|..]; reflexivity.
Qed.

Lemma trimStart_head c cs :
  is_whitespace c = false -> trimStart_chars (c :: cs) = c :: cs.
Proof. intros H. unfold trimStart_chars. simpl. rewrite H. reflexivity. Qed.

Lemma digit_not_blank c :
  is_digit c = true ->
  is_whitespace c = false /\ is_char "-" c = false /\ is_char "+" c = false.
Proof.
  unfold is_digit, is_whitespace, is_char, code. intros H.
  apply andb_true_iff in H as [H1 H2].
  apply N.leb_le in H1. apply N.leb_le in H2.
  repeat split.
  - repeat (apply orb_false_iff; split);
      rewrite ?andb_false_iff, ?N.leb_gt, ?N.eqb_neq; lia.
  - apply bool_decide_eq_false. intros ->. vm_compute in H1. contradiction.
  - apply bool_decide_eq_false. intros ->. vm_compute in H1. contradiction.
Qed.

Lemma trimStart_blank blank cs :
  forallb is_whitespace blank = true ->
  starts_with is_whitespace cs = false ->
  trimStart_chars (blank ++ cs) = cs.
Proof.
  intros Hb Hcs. unfold trimStart_chars. rewrite span_app; [reflexivity|exact Hb|].
  intros x r ->. exact Hcs.
Qed.

(** [parseInt] reads the decimal text of any integer after leading white
    space, and ignores what follows it when that does not start with a
    digit. *)
Lemma parseInt_decimal blank z rest :
  forallb is_whitespace (chars blank) = true ->
  starts_with is_digit (chars rest) = false ->
  Construct.parseInt (blank ++ of_Z z ++ rest) = Construct.number_of_Z z.
Proof.
  intros Hblank Hrest.
  assert (Hspan : forall n,
            span is_digit (chars (of_N n) ++ chars rest) = (chars (of_N n), chars rest)).
  { intros n. apply span_app; [apply of_N_digits|].
    intros x r Hx. rewrite Hx in Hrest. exact Hrest. }
  assert (Hhead : forall n, exists c cs,
            chars (of_N n) = c :: cs /\ is_digit c = true).
  { intros n. destruct (of_N_digits n) as [Hd Hn].
    destruct (chars (of_N n)) as [|c cs]; [contradiction|].
    exists c, cs. simpl in Hd. apply andb_true_iff in Hd as [Hc _]. auto. }
  unfold Construct.parseInt, Construct.number_of_Z.
  rewrite !chars_app, of_Z_text.
  destruct (z <? 0) eqn:Ez.
  - apply Z.ltb_lt in Ez. rewrite chars_app.
    change (chars "-") with ["-"%char]. cbn [app].
    rewrite trimStart_blank by (exact Hblank || reflexivity).
    change (is_char "-" "-") with true. cbn [orb tail]. rewrite Hspan. cbn [fst].
    destruct (Hhead (Z.to_N (- z))) as (c & cs & Hc & _).
    rewrite Hc, <- Hc, of_chars_chars, parseInt_of_N. f_equal. lia.
  - apply Z.ltb_ge in Ez.
    destruct (Hhead (Z.to_N z)) as (c & cs & Hc & Hdig).
    destruct (digit_not_blank c Hdig) as (Hb & Hm & Hp).
    rewrite Hc. cbn [app]. rewrite trimStart_blank by (exact Hblank || exact Hb).
    rewrite Hm, Hp. cbn [orb].
    change (c :: (cs ++ chars rest))%list with ((c :: cs) ++ chars rest)%list.
    rewrite <- Hc, Hspan. cbn [fst].
    rewrite Hc, <- Hc, of_chars_chars, parseInt_of_N. f_equal. lia.
Qed.

(** [parseInt] finds no number in a text that lacks one. *)
Lemma parseInt_lacking blank body :
  forallb is_whitespace (chars blank) = true ->
  lacks_number body = true ->
  Construct.parseInt (blank ++ body) = Construct.NaN.
Proof.
  intros Hblank Hbody. unfold lacks_number in Hbody. cbv zeta in Hbody.
  apply andb_true_iff in Hbody as [Hws Hdig].
  apply negb_true_iff in Hws. apply negb_true_iff in Hdig.
  unfold Construct.parseInt. rewrite chars_app, (trimStart_blank _ _ Hblank Hws).
  assert (Hno : forall cs, starts_with is_digit cs = false ->
                           fst (span is_digit cs) = []).
  { intros [|c cs] H; [reflexivity|]. simpl in *. rewrite H. reflexivity. }
  destruct (chars body) as [|c cs]; [reflexivity|].
  cbn [starts_with] in Hdig. unfold is_sign in Hdig.
  rewrite (Hno _ Hdig). reflexivity.
Qed.

(** Up to 2^53 in magnitude the Number value of an integer is the integer. *)
Lemma number_of_Z_exact z :
  Z.abs z <= 2 ^ 53 -> Construct.number_of_Z z = Construct.Finite z.
Proof.
  intros H. unfold Construct.number_of_Z, Construct.to_number, Construct.round53.
  assert (Hn : (Z.abs_N z <= 2 ^ 53)%N) by lia.
  cbv zeta. rewrite (proj2 (N.leb_le _ _) Hn).
  assert (Hlt : (Z.abs_N z <? 2 ^ 1024)%N = true).
  { apply N.ltb_lt. eapply N.le_lt_trans; [exact Hn|]. reflexivity. }
  rewrite Hlt. f_equal. destruct (z <? 0) eqn:E; lia.
Qed.

End DecimalText.

(** * Properties of the configuration *)

Section ConstructProperties.
Import Construct.
Variable parseFloat : string -> option Q.
Variable env : string -> option string.
Variable host : string.
Variable now : N.
Variable uuid : string.

Lemma of_Z_nonempty z rest : JsString.of_Z z ++ rest <> "".
Proof.
  rewrite of_Z_text. destruct (z <? 0); [discriminate|].
  destruct (of_N_digits (Z.to_N z)) as [_ H].
  intros E. apply H. apply (f_equal JsString.chars) in E.
  rewrite chars_app in E. apply app_eq_nil in E as [E _]. exact E.
Qed.

Lemma limit_reads given name fallback_text fallback :
  parseInt fallback_text = Finite fallback ->
  reads_limit (limit env given name fallback_text) given (env name) fallback.
Proof.
  intros Hdefault. unfold reads_limit, limit. repeat apply conj.
  - intros n ->. reflexivity.
  - intros -> [->| ->]; exact Hdefault.
  - intros -> blank z rest Hvar Hblank Hrest. rewrite Hvar. unfold or_string.
    destruct (bool_decide (blank ++ JsString.of_Z z ++ rest = "")) eqn:E.
    + apply bool_decide_eq_true in E. exfalso.
      destruct blank; [|discriminate]. exact (of_Z_nonempty z rest E).
    + apply parseInt_decimal; assumption.
  - intros -> blank body Hvar Hne Hblank Hbody. rewrite Hvar. unfold or_string.
    rewrite bool_decide_eq_false_2 by exact Hne.
    apply parseInt_lacking; assumption.
Qed.

(** X6.  How the constructor reads the three limits, the API key and the
    debug flag.  A limit given in the options is used as it is, 0 included;
    otherwise an absent or empty environment variable gives the default (10,
    1000, 100); a variable that holds, after white space, the decimal text of
    an integer gives the Number value of that integer, which is the integer
    itself up to 2^53 in magnitude; and a variable without a number at its
    start gives NaN, not the default.  The API key is empty exactly when
    neither the options nor the environment hold a non-empty one.  Without a
    [debug] option the flag is set exactly by the variable's value [true]. *)
Theorem configuration_sources options :
  let c := construct parseFloat env host now uuid options in
  reads_limit (new_maxCaptureDepth c) (opt_maxCaptureDepth options)
    (env "AIVORY_MAX_DEPTH") 10 /\
  reads_limit (new_maxStringLength c) (opt_maxStringLength options)
    (env "AIVORY_MAX_STRING_LENGTH") 1000 /\
  reads_limit (new_maxCollectionSize c) (opt_maxCollectionSize options)
    (env "AIVORY_MAX_COLLECTION_SIZE") 100 /\
  (forall z, Z.abs z <= 2 ^ 53 -> number_of_Z z = Finite z) /\
  (new_apiKey c = "" <->
     (opt_apiKey options = None \/ opt_apiKey options = Some "") /\
     (env "AIVORY_API_KEY" = None \/ env "AIVORY_API_KEY" = Some "")) /\
  (opt_debug options = None ->
     (new_debug c = true <-> env "AIVORY_DEBUG" = Some "true")).
Proof.
  cbv zeta. unfold construct.
  cbn [new_maxCaptureDepth new_maxStringLength new_maxCollectionSize new_apiKey new_debug].
  split; [apply limit_reads; reflexivity|].
  split; [apply limit_reads; reflexivity|].
  split; [apply limit_reads; reflexivity|].
  split; [exact number_of_Z_exact|].
  split.
  - unfold or_string.
    destruct (opt_apiKey options) as [k|]; destruct (env "AIVORY_API_KEY") as [e|].
    + destruct (bool_decide (k = "")) eqn:Ek.
      * apply bool_decide_eq_true in Ek. subst k.
        destruct (bool_decide (e = "")) eqn:Ee.
        -- apply bool_decide_eq_true in Ee. subst e. split; auto.
        -- apply bool_decide_eq_false in Ee.
           split; [contradiction|]. intros [_ [H|H]]; congruence.
      * apply bool_decide_eq_false in Ek.
        split; [contradiction|]. intros [[H|H] _]; congruence.
    + destruct (bool_decide (k = "")) eqn:Ek.
      * apply bool_decide_eq_true in Ek. subst k. split; auto.
      * apply bool_decide_eq_false in Ek.
        split; [contradiction|]. intros [[H|H] _]; congruence.
    + destruct (bool_decide (e = "")) eqn:Ee.
      * apply bool_decide_eq_true in Ee. subst e. split; auto.
      * apply bool_decide_eq_false in Ee.
        split; [contradiction|]. intros [_ [H|H]]; congruence.
    + split; auto.
  - intros ->. apply bool_decide_eq_true.
Qed.

End ConstructProperties.

(** X6 at environments that set the depth to [7 levels], to 2^53 + 1, which
    no Number holds, and to a word. *)
Lemma configuration_sources_witness :
  Construct.new_maxCaptureDepth
    (Construct.construct (fun _ => Some 1%Q) Scenario.environment "host" 0 ""
       Construct.noOptions)
  = Construct.Finite 7 /\
  Construct.new_maxCaptureDepth
    (Construct.construct (fun _ => Some 1%Q) Scenario.environment_large "host" 0 ""
       Construct.noOptions)
  = Construct.Finite 9007199254740992 /\
  Construct.new_maxCaptureDepth
    (Construct.construct (fun _ => Some 1%Q) Scenario.environment_word "host" 0 ""
       Construct.noOptions)
  = Construct.NaN.
Proof.
  split; [|split].
  - destruct (configuration_sources (fun _ => Some 1%Q) Scenario.environment "host" 0 ""
                Construct.noOptions) as ((_ & _ & Hread & _) & _).
    apply (Hread eq_refl "" 7 " levels"); reflexivity.
  - destruct (configuration_sources (fun _ => Some 1%Q) Scenario.environment_large
                "host" 0 "" Construct.noOptions) as ((_ & _ & Hread & _) & _).
    apply (Hread eq_refl "" 9007199254740993 ""); reflexivity.
  - destruct (configuration_sources (fun _ => Some 1%Q) Scenario.environment_word
                "host" 0 "" Construct.noOptions) as ((_ & _ & _ & Hnan) & _).
    apply (Hnan eq_refl " " "-deep"); [reflexivity|discriminate|reflexivity|reflexivity].
Defined.

(** * Sampling *)

Section SamplingProperties.
Import Agent.
Context {rt : Runtime}.

(** X7.  The sampling gate.  With a rate of 1 or more every draw passes;
    with a rate of 0 or less none does; in between a draw passes exactly when
    it is below the rate.  A capture whose draw does not pass has no effect
    at all: the handler and the connection stay as they were, and the local
    variables are not even looked at (so nothing can be thrown). *)
Theorem sampling_gate :
  (forall cfg d, (1 <= samplingRate cfg)%Q -> Config.shouldSample cfg d = true) /\
  (forall cfg d, (samplingRate cfg <= 0)%Q -> Config.shouldSample cfg d = false) /\
  (forall cfg d, (0 < samplingRate cfg)%Q -> (samplingRate cfg < 1)%Q ->
     (Config.shouldSample cfg d = true <-> (d < samplingRate cfg)%Q)) /\
  (forall heap error ctx locals amb a,
     Config.shouldSample (config a) (draw amb) = false ->
     handleException error ctx amb a = Ok a /\
     capture heap error ctx locals amb a = Ok a).
Proof.
  repeat apply conj.
  - intros cfg d H. unfold Config.shouldSample.
    apply Qle_bool_iff in H. rewrite H. reflexivity.
  - intros cfg d H. unfold Config.shouldSample.
    destruct (Qle_bool 1 (samplingRate cfg)) eqn:E1.
    + apply Qle_bool_iff in E1. exfalso.
      pose proof (Qle_trans _ _ _ E1 H) as H0. unfold Qle in H0. simpl in H0. lia.
    + apply Qle_bool_iff in H. rewrite H. reflexivity.
  - intros cfg d H0 H1. unfold Config.shouldSample.
    destruct (Qle_bool 1 (samplingRate cfg)) eqn:E1.
    { apply Qle_bool_iff in E1. exfalso. exact (Qlt_not_le _ _ H1 E1). }
    destruct (Qle_bool (samplingRate cfg) 0) eqn:E0.
    { apply Qle_bool_iff in E0. exfalso. exact (Qlt_not_le _ _ H0 E0). }
    rewrite negb_true_iff. split.
    + intros H. apply Qnot_le_lt. intros Hle.
      apply Qle_bool_iff in Hle. congruence.
    + intros H. destruct (Qle_bool (samplingRate cfg) d) eqn:E; [|reflexivity].
      apply Qle_bool_iff in E. exfalso. exact (Qlt_not_le _ _ H E).
  - intros heap error ctx locals amb a H.
    unfold handleException, capture. rewrite H. auto.
Qed.

End SamplingProperties.

(** X7 at a rate of one half and a draw of three quarters. *)
Lemma sampling_gate_witness :
  Agent.handleException (rt := Sample.runtime) Sample.type_error_1 None
    Scenario.high_draw Scenario.half_sampled
  = Ok Scenario.half_sampled.
Proof.
  destruct (sampling_gate (rt := Sample.runtime)) as (_ & _ & _ & Hskip).
  destruct (Hskip (fun _ => ODate None) Sample.type_error_1 None None
              Scenario.high_draw Scenario.half_sampled) as [H _];
    [vm_compute; reflexivity|exact H].
Defined.

(** * Further properties of the serializer *)

Section SerializerShape.
Import Capture.
Context {rt : Runtime}.
Variable config : AgentConfig.
Variable heap : Heap.

Lemma capture_items_full (P : string -> CapturedVariable -> Prop) Q f items :
  forall i,
  (forall n item, result_sat (P n) Q (f n item)) ->
  result_sat
    (fun els => length els = length items /\
                all_from (fun j c => P ("[" ++ JsString.of_nat j ++ "]") c) i els)
    Q (capture_items f i items).
Proof.
  induction items as [|item rest IH]; intros i Hf; cbn [capture_items].
  - split; [reflexivity|exact I].
  - eapply result_sat_bind; [apply Hf|]. intros cv Hcv.
    eapply result_sat_bind; [apply IH, Hf|]. intros cvs [Hlen Hall].
    split; [simpl; f_equal; exact Hlen|]. split; assumption.
Qed.

Lemma dict_set_absent {A} key (v : A) d :
  key ∉ Dict.keys d -> Dict.set key v d = (d ++ [(key, v)])%list.
Proof.
  induction d as [|[k v0] d IH]; simpl; intros H; [reflexivity|].
  apply not_elem_of_cons in H as [Hne Hd].
  rewrite bool_decide_eq_false_2 by congruence. rewrite IH by exact Hd. reflexivity.
Qed.

Lemma dict_set_NoDup {A} key (v : A) d :
  NoDup (Dict.keys d) -> NoDup (Dict.keys (Dict.set key v d)).
Proof.
  unfold Dict.keys. induction d as [|[k v0] d IH]; simpl; intros H.
  - constructor; [apply not_elem_of_nil|constructor].
  - apply NoDup_cons in H as [Hk Hd].
    destruct (bool_decide (k = key)) eqn:E; simpl.
    + apply NoDup_cons. auto.
    + apply NoDup_cons. split; [|apply IH, Hd].
      intros Hin. apply (dict_set_keys key v d k) in Hin as [Hin| ->]; [auto|].
      apply bool_decide_eq_false in E. congruence.
Qed.

Lemma capture_children_full (P : string -> CapturedVariable -> Prop) Q f props keys :
  forall acc,
  (forall k item, result_sat (P k) Q (f k item)) ->
  Forall (fun kc => P (fst kc) (snd kc)) acc ->
  NoDup (Dict.keys acc) ->
  result_sat
    (fun kids => Forall (fun kc => P (fst kc) (snd kc)) kids /\
                 NoDup (Dict.keys kids) /\
                 (length kids <= length acc + length keys)%nat)
    Q (capture_children f props keys acc).
Proof.
  induction keys as [|key rest IH]; intros acc Hf Hacc Hnd; cbn [capture_children].
  - repeat split; auto. lia.
  - eapply result_sat_bind; [apply Hf|]. intros cv Hcv.
    eapply result_sat_weaken.
    + apply IH; [exact Hf| |apply dict_set_NoDup, Hnd].
      apply dict_set_Forall; auto.
    + intros kids (H1 & H2 & H3). repeat split; auto.
      pose proof (dict_set_length key cv acc). simpl. lia.
Qed.

Lemma all_from_Forall {A} (P : A -> Prop) (l : list A) : forall i,
  all_from (fun _ x => P x) i l <-> Forall P l.
Proof.
  induction l as [|x l IH]; intros i; simpl.
  - split; auto.
  - rewrite IH, Forall_cons. reflexivity.
Qed.

Lemma tree_ok_simple limit nm ty val null trunc :
  (null = true -> ty = "null" /\ val = "null") ->
  (trunc = true -> ty = "string") ->
  tree_ok limit (simple nm ty val null trunc).
Proof.
  intros H1 H2. unfold simple. cbn [tree_ok].
  split; [exact H1|]. split; [exact H2|]. split; [discriminate|exact I].
Qed.

Local Ltac leaf :=
  split; [reflexivity|apply tree_ok_simple; intros; first [discriminate | auto]].

(** With enough fuel a call returns a node that bears the given name and
    has the shape [tree_ok], or throws. *)
Lemma captureValue_fuel_shape fuel : forall nm v depth,
  (Z.to_nat (maxCaptureDepth config - depth) < fuel)%nat ->
  result_sat
    (fun cv => name cv = nm /\ tree_ok (maxCollectionSize config) cv)
    (fun _ => True)
    (captureValue_fuel config heap fuel nm v depth).
Proof.
  induction fuel as [|fuel IH]; intros nm v depth Hfuel; [lia|].
  cbn [captureValue_fuel].
  destruct v; try (cbn [result_sat getType]; leaf).
  - destruct (_ >? _); cbn [result_sat getType]; leaf.
  - destruct (heap a) as [elems|[t|]|ename emessage|sz|sz|href|ctor props] eqn:Ha;
      try (cbn [result_sat]; leaf); [| exact I |].
    + destruct (depth <? maxCaptureDepth config) eqn:Ed; cbn [andb].
      * apply Z.ltb_lt in Ed.
        destruct (Z.of_nat (length elems) <=? maxCollectionSize config) eqn:El.
        -- apply Z.leb_le in El. rewrite slice0_all by exact El.
           eapply result_sat_bind.
           ++ apply capture_items_full
                with (P := fun n c => name c = n /\ tree_ok (maxCollectionSize config) c).
              intros n item. apply IH. lia.
           ++ intros els [Hlen Hall]. cbn.
              split; [reflexivity|]. split; [discriminate|]. split; [discriminate|].
              split; [intros n Hn; inversion Hn; split; [reflexivity|lia]|].
              rewrite Hlen. auto.
        -- cbn. split; [reflexivity|]. split; [discriminate|]. split; [discriminate|].
           split; [intros n Hn; inversion Hn; split; [reflexivity|lia]|exact I].
      * cbn. split; [reflexivity|]. split; [discriminate|]. split; [discriminate|].
        split; [intros n Hn; inversion Hn; split; [reflexivity|lia]|exact I].
    + destruct (depth <? maxCaptureDepth config) eqn:Ed; [|cbn [result_sat]; leaf].
      apply Z.ltb_lt in Ed.
      eapply result_sat_bind.
      * apply capture_children_full
          with (P := fun k c => name c = k /\ tree_ok (maxCollectionSize config) c);
          [|constructor|constructor].
        intros k item. apply IH. lia.
      * intros kids (Hall & Hnd & _). cbn.
        split; [reflexivity|]. split; [discriminate|]. split; [discriminate|].
        split; [discriminate|].
        destruct kids as [|kc kids]; cbn [Dict.keys fmap list_fmap]; [exact I|].
        split; [reflexivity|]. split; [discriminate|]. split; [exact Hnd|].
        apply (all_from_Forall
                 (fun kc => name (snd kc) = fst kc
                            /\ tree_ok (maxCollectionSize config) (snd kc))).
        exact Hall.
Qed.

(** X8.  Every captured tree has the shape of the data model at every node:
    it bears the name it was captured under; elements and children exclude
    each other; the elements attached to an array are as many as the
    reported length, at most [maxCollectionSize], and named [[0]], [[1]], ...;
    children are never an empty mapping, have distinct keys and bear their
    key as name; [isNull] occurs only with type [null], [isTruncated] only
    with type [string], and a length only with type [array]. *)
Theorem captured_tree_shape nm v depth cv :
  captureValue config heap nm v depth = Ok cv ->
  name cv = nm /\ tree_ok (maxCollectionSize config) cv.
Proof.
  intros H. pose proof (captureValue_fuel_shape (fuel_for config depth) nm v depth) as Hs.
  unfold captureValue in H. rewrite H in Hs. apply Hs. unfold fuel_for. lia.
Qed.

(** *** Size *)

Lemma geometric_pos w h : (1 <= geometric w h)%nat.
Proof. destruct h; simpl; lia. Qed.

Lemma size_node nm ty val null trunc kids els len (w g : nat) :
  (forall l, els = Some l ->
     (length l <= w)%nat /\ Forall (fun c => (size c <= g)%nat) l) ->
  (forall l, kids = Some l ->
     (length l <= w)%nat /\ Forall (fun kc => (size (snd kc) <= g)%nat) l) ->
  els = None \/ kids = None ->
  (size (mkCapturedVariable nm ty val null trunc kids els len) <= S (w * g))%nat.
Proof.
  intros Hels Hkids Hone. cbn [size]. apply le_n_S.
  assert (Hsum1 : forall l, Forall (fun c => (size c <= g)%nat) l ->
            ((fix sizes (l : list CapturedVariable) : nat :=
                match l with [] => 0%nat | c :: l' => (size c + sizes l')%nat end) l
             <= length l * g)%nat).
  { induction 1 as [|c l Hc Hl IH]; simpl; lia. }
  assert (Hsum2 : forall l, Forall (fun kc => (size (snd kc) <= g)%nat) l ->
            ((fix sizes (l : list (string * CapturedVariable)) : nat :=
                match l with
                | [] => 0%nat
                | kc :: l' => (size (snd kc) + sizes l')%nat
                end) l
             <= length l * g)%nat).
  { induction 1 as [|c l Hc Hl IH]; simpl; lia. }
  destruct Hone as [-> | ->].
  - destruct kids as [l|]; [|lia].
    destruct (Hkids l eq_refl) as [Hlen Hall]. specialize (Hsum2 l Hall).
    etransitivity; [exact Hsum2|]. apply Nat.mul_le_mono_r. exact Hlen.
  - destruct els as [l|]; [|lia].
    destruct (Hels l eq_refl) as [Hlen Hall]. specialize (Hsum1 l Hall).
    rewrite Nat.add_0_r.
    etransitivity; [exact Hsum1|]. apply Nat.mul_le_mono_r. exact Hlen.
Qed.

Lemma size_simple nm ty val null trunc w h :
  (size (simple nm ty val null trunc) <= geometric w h)%nat.
Proof. cbn. apply geometric_pos. Qed.

Lemma size_leaf_node nm ty val len w h :
  (size (mkCapturedVariable nm ty val false false None None len) <= geometric w h)%nat.
Proof. cbn. apply geometric_pos. Qed.

Lemma captureValue_fuel_size fuel : forall nm v depth,
  0 <= maxCollectionSize config ->
  (Z.to_nat (maxCaptureDepth config - depth) < fuel)%nat ->
  result_sat
    (fun cv => (size cv <= geometric (Z.to_nat (maxCollectionSize config))
                             (Z.to_nat (maxCaptureDepth config - depth)))%nat)
    (fun _ => True)
    (captureValue_fuel config heap fuel nm v depth).
Proof.
  induction fuel as [|fuel IH]; intros nm v depth Hw Hfuel; [lia|].
  cbn [captureValue_fuel].
  destruct v; try (cbn [result_sat]; apply size_simple).
  - destruct (_ >? _); cbn [result_sat]; apply size_simple.
  - destruct (heap a) as [elems|[t|]|ename emessage|sz|sz|href|ctor props] eqn:Ha;
      try (cbn [result_sat]; apply size_simple); [| exact I |].
    + destruct (depth <? maxCaptureDepth config) eqn:Ed; cbn [andb];
        [|cbn [result_sat]; apply size_leaf_node].
      apply Z.ltb_lt in Ed.
      destruct (Z.of_nat (length elems) <=? maxCollectionSize config) eqn:El;
        [|cbn [result_sat]; apply size_leaf_node].
      apply Z.leb_le in El. rewrite slice0_all by exact El.
      eapply result_sat_bind.
      * apply capture_items_full
          with (P := fun _ c =>
                  (size c <= geometric (Z.to_nat (maxCollectionSize config))
                               (Z.to_nat (maxCaptureDepth config - (depth + 1))))%nat).
        intros n item. apply IH; [exact Hw|lia].
      * intros els [Hlen Hall]. cbn [mret Result_ret result_sat].
        replace (Z.to_nat (maxCaptureDepth config - depth))
          with (S (Z.to_nat (maxCaptureDepth config - (depth + 1)))) by lia.
        cbn [geometric]. apply size_node; [|discriminate|auto].
        intros l Hl. inversion Hl; subst l. split; [lia|].
        apply (all_from_Forall _ els 0%nat). exact Hall.
    + destruct (depth <? maxCaptureDepth config) eqn:Ed;
        [|cbn [result_sat]; apply size_simple].
      apply Z.ltb_lt in Ed.
      eapply result_sat_bind.
      * apply capture_children_full
          with (P := fun _ c =>
                  (size c <= geometric (Z.to_nat (maxCollectionSize config))
                               (Z.to_nat (maxCaptureDepth config - (depth + 1))))%nat);
          [|constructor|constructor].
        intros k item. apply IH; [exact Hw|lia].
      * intros kids (Hall & _ & Hlen). cbn [mret Result_ret result_sat].
        replace (Z.to_nat (maxCaptureDepth config - depth))
          with (S (Z.to_nat (maxCaptureDepth config - (depth + 1)))) by lia.
        cbn [geometric]. apply size_node; [discriminate| |auto].
        intros l Hl. destruct (Dict.keys kids); [discriminate|].
        inversion Hl; subst l. split; [|exact Hall].
        pose proof (slice0_length (maxCollectionSize config) (Dict.keys props) Hw).
        simpl in Hlen. lia.
Qed.

(** X9.  The work of one capture is bounded: with a collection limit [w]
    that is not negative, a tree captured at [depth] has at most
    [1 + w + ... + w^(maxCaptureDepth - depth)] nodes, whatever the value,
    self-referential ones included. *)
Theorem captured_tree_size nm v depth cv :
  0 <= maxCollectionSize config ->
  captureValue config heap nm v depth = Ok cv ->
  (size cv <= geometric (Z.to_nat (maxCollectionSize config))
                (Z.to_nat (maxCaptureDepth config - depth)))%nat.
Proof.
  intros Hw H.
  pose proof (captureValue_fuel_size (fuel_for config depth) nm v depth Hw) as Hs.
  unfold captureValue in H. rewrite H in Hs. apply Hs. unfold fuel_for. lia.
Qed.

(** *** Local variables *)

Lemma captureVariables_loop_spec entries depth : forall acc result,
  NoDup (Dict.keys acc ++ Dict.keys entries) ->
  captureVariables_loop config heap entries depth acc = Ok result ->
  exists captured,
    result = (acc ++ captured)%list /\
    Forall2 (fun entry out =>
               fst out = fst entry /\
               captureValue config heap (fst entry) (snd entry) depth = Ok (snd out))
      entries captured.
Proof.
  induction entries as [|[nm v] rest IH]; intros acc result Hnd H;
    cbn [captureVariables_loop] in H.
  - inversion H; subst. exists []. rewrite app_nil_r. split; [reflexivity|constructor].
  - destruct (captureValue config heap nm v depth) as [cv| |] eqn:E; try discriminate.
    cbn [mbind Result_bind] in H.
    assert (Habsent : nm ∉ Dict.keys acc).
    { apply NoDup_app in Hnd as (_ & Hdisj & _). intros Hin.
      apply (Hdisj nm Hin). apply elem_of_cons. auto. }
    rewrite dict_set_absent in H by exact Habsent.
    assert (Hnd' : NoDup (Dict.keys (acc ++ [(nm, cv)])%list ++ Dict.keys rest)).
    { unfold Dict.keys in *. rewrite fmap_app, <- app_assoc. exact Hnd. }
    destruct (IH _ _ Hnd' H) as (captured & Hres & Hall).
    exists ((nm, cv) :: captured). split.
    + rewrite Hres, <- app_assoc. reflexivity.
    + constructor; [split; [reflexivity|exact E]|exact Hall].
Qed.

(** X10.  [captureVariables] captures each variable under its own name: for
    variables with distinct names the result has the same names in the same
    order, each bound to the capture of its value at the given depth; so a
    variable is looked up in the result exactly as in the input. *)
Theorem captureVariables_entries vars depth result :
  NoDup (Dict.keys vars) ->
  captureVariables config heap vars depth = Ok result ->
  Dict.keys result = Dict.keys vars /\
  Forall2 (fun entry out =>
             fst out = fst entry /\
             captureValue config heap (fst entry) (snd entry) depth = Ok (snd out))
    vars result /\
  forall nm v, Dict.get nm vars = Some v ->
    exists cv, Dict.get nm result = Some cv /\
               captureValue config heap nm v depth = Ok cv.
Proof.
  intros Hnd H. unfold captureVariables in H.
  destruct (captureVariables_loop_spec vars depth [] result Hnd H)
    as (captured & Hres & Hall).
  simpl in Hres. subst captured. clear H Hnd.
  split; [|split; [exact Hall|]].
  - unfold Dict.keys. induction Hall as [|[n v] [n' c] vars result [Hn _] _ IH];
      simpl in *; [reflexivity|]. subst n'. f_equal. exact IH.
  - induction Hall as [|[n v] [n' c] vars result [Hn Hc] _ IH];
      intros nm v0 Hget; simpl in *; [discriminate|]. subst n'.
    destruct (bool_decide (n = nm)) eqn:E.
    + apply bool_decide_eq_true in E. subst n. inversion Hget; subst v0. eauto.
    + apply IH. exact Hget.
Qed.

End SerializerShape.

(** X8 at the array of three strings. *)
Lemma captured_tree_shape_witness :
  exists cv,
    Capture.captureValue (rt := Sample.runtime) Sample.config Sample.fruit
      "items" (VRef 0) 0 = Ok cv /\
    name cv = "items" /\ tree_ok 100 cv.
Proof.
  eexists. split; [vm_compute; reflexivity|].
  apply (captured_tree_shape (rt := Sample.runtime) Sample.config Sample.fruit
           "items" (VRef 0) 0).
  vm_compute. reflexivity.
Defined.

(** X9 at the self-referential object, with two properties per level. *)
Lemma captured_tree_size_witness :
  exists cv,
    Capture.captureValue (rt := Sample.runtime) Scenario.narrow Sample.cyclic
      "node" (VRef 0) 0 = Ok cv /\
    (size cv <= 15)%nat.
Proof.
  eexists. split; [vm_compute; reflexivity|].
  apply (captured_tree_size (rt := Sample.runtime) Scenario.narrow Sample.cyclic
           "node" (VRef 0) 0); [vm_compute; discriminate|vm_compute; reflexivity].
Defined.

(** X10 at two local variables. *)
Lemma captureVariables_entries_witness :
  exists result,
    Capture.captureVariables (rt := Sample.runtime) Sample.config Sample.fruit
      Scenario.locals 0 = Ok result /\
    Dict.keys result = ["count"; "items"].
Proof.
  eexists. split; [vm_compute; reflexivity|].
  apply (captureVariables_entries (rt := Sample.runtime) Sample.config Sample.fruit
           Scenario.locals 0);
    [apply (bool_decide_unpack _); vm_compute; exact I|vm_compute; reflexivity].
Defined.

(** * Reading frames back *)

Section ParserProperties.
Import JsString Capture.

Lemma forallb_lookup {A} (f : A -> bool) (l : list A) i x :
  forallb f l = true -> l !! i = Some x -> f x = true.
Proof.
  intros H Hl. rewrite forallb_forall in H. apply H, list_elem_of_In.
  eapply list_elem_of_lookup_2. exact Hl.
Qed.

Lemma substring_all s : String.substring 0 (String.length s) s = s.
Proof. induction s as [|c s IH]; simpl; [reflexivity|]. rewrite IH. reflexivity. Qed.

Lemma trim_solid ws x body z body' :
  forallb is_whitespace ws = true ->
  is_whitespace x = false -> is_whitespace z = false ->
  rev (x :: body) = z :: body' ->
  trim (of_chars (ws ++ x :: body)) = of_chars (x :: body).
Proof.
  intros Hws Hx Hz Hrev. unfold trim, trimStart_chars.
  rewrite chars_of_chars, span_app;
    [|exact Hws|intros y r Hr; inversion Hr; subst; exact Hx].
  cbn [snd]. rewrite Hrev. cbn [span]. rewrite Hz. cbn [snd].
  rewrite <- Hrev, rev_involutive. reflexivity.
Qed.

(** The line of a frame, trimmed and without its [at ]. *)
Lemma frame_content indent rest z body' :
  forallb is_whitespace (chars indent) = true ->
  rev (chars rest) = z :: body' -> is_whitespace z = false ->
  let trimmed := trim (indent ++ "at " ++ rest) in
  startsWith "at " trimmed = true /\ slice_from 3 trimmed = rest.
Proof.
  intros Hws Hrev Hz trimmed.
  assert (Ht : trimmed = "at " ++ rest).
  { unfold trimmed. rewrite <- (of_chars_chars (indent ++ "at " ++ rest)), chars_app.
    change (chars ("at " ++ rest)) with ("a"%char :: "t"%char :: " "%char :: chars rest).
    rewrite (trim_solid (chars indent) "a" _ z
               (body' ++ [" "%char; "t"%char; "a"%char])%list Hws eq_refl Hz).
    - change ("a"%char :: "t"%char :: " "%char :: chars rest)
        with (chars ("at " ++ rest)).
      apply of_chars_chars.
    - change ("a"%char :: "t"%char :: " "%char :: chars rest)
        with (["a"%char; "t"%char; " "%char] ++ chars rest)%list.
      rewrite rev_app_distr, Hrev. reflexivity. }
  rewrite Ht. split.
  - simpl. destruct (ascii_dec "a" "a"); [|congruence].
    destruct (ascii_dec "t" "t"); [|congruence].
    destruct (ascii_dec " " " "); [|congruence].
    destruct rest; reflexivity.
  - unfold slice_from. simpl. rewrite Nat.sub_0_r. apply substring_all.
Qed.

Lemma method_shortest m0 z rest g1' ws' g2' :
  is_whitespace z = false ->
  forallb (fun c => negb (is_char "(" c)) (m0 ++ [z]) = true ->
  ((m0 ++ [z]) ++ rest = g1' ++ ws' ++ "("%char :: g2')%list ->
  forallb is_whitespace ws' = true ->
  (length (m0 ++ [z]) <= length g1')%nat.
Proof.
  intros Hz Hopen Heq Hblank.
  destruct (decide (length (m0 ++ [z]) <= length g1')%nat) as [|Hlt]; [assumption|].
  exfalso. apply Nat.nle_gt in Hlt. rewrite length_app in Hlt. simpl in Hlt.
  destruct (decide (length g1' + length ws' < length m0 + 1)%nat) as [Hk|Hk].
  - assert (H1 : (g1' ++ ws' ++ "("%char :: g2')%list !! (length g1' + length ws')%nat
                 = Some "("%char).
    { rewrite app_assoc. apply list_lookup_middle. rewrite length_app. reflexivity. }
    rewrite <- Heq in H1.
    rewrite lookup_app_l in H1 by (rewrite length_app; simpl; lia).
    pose proof (forallb_lookup _ _ _ _ Hopen H1) as Hc. vm_compute in Hc. discriminate.
  - assert (H1 : ((m0 ++ [z]) ++ rest)%list !! length m0 = Some z).
    { rewrite <- app_assoc. apply list_lookup_middle. reflexivity. }
    rewrite Heq in H1. rewrite lookup_app_r in H1 by lia.
    rewrite lookup_app_l in H1 by lia.
    pose proof (forallb_lookup _ _ _ _ Hblank H1). congruence.
Qed.

Lemma prefix_app_split needle : forall a b,
  String.prefix needle (a ++ b) = true ->
  String.prefix needle a = true \/
  exists c b', b = String c b' /\ In c (chars needle).
Proof.
  induction needle as [|x needle IH]; intros a b H; [left; destruct a; reflexivity|].
  destruct a as [|y a]; simpl in H.
  - destruct b as [|c b']; simpl in H; [discriminate|].
    destruct (ascii_dec x c); [|discriminate]. subst c.
    right. exists x, b'. split; [reflexivity|left; reflexivity].
  - destruct (ascii_dec x y) as [->|]; [|discriminate].
    destruct (IH _ _ H) as [Ha|(c & b' & -> & Hin)].
    + left. simpl. destruct (ascii_dec y y); [exact Ha|congruence].
    + right. exists c, b'. split; [reflexivity|right; exact Hin].
Qed.

Lemma includes_none x needle b :
  (forall c, In c (chars b) -> c <> x) ->
  includes (String x needle) b = false.
Proof.
  induction b as [|c b IH]; intros H; [reflexivity|].
  cbn [includes String.prefix].
  destruct (ascii_dec x c) as [->|].
  - exfalso. apply (H c); [left; reflexivity|reflexivity].
  - apply IH. intros c' Hc'. apply H. right. exact Hc'.
Qed.

Lemma includes_app x needle a b :
  includes (String x needle) a = false ->
  (forall c, In c (chars b) -> ~ In c (chars (String x needle))) ->
  includes (String x needle) (a ++ b) = false.
Proof.
  intros Ha Hb. induction a as [|y a IH].
  - apply includes_none. intros c Hc ->. apply (Hb x Hc). left. reflexivity.
  - cbn [includes] in Ha. apply orb_false_iff in Ha as [Hp Hi].
    change (String y a ++ b) with (String y (a ++ b)).
    cbn [includes]. rewrite (IH Hi), orb_false_r.
    destruct (String.prefix (String x needle) (String y (a ++ b))) eqn:E;
      [|reflexivity].
    destruct (prefix_app_split (String x needle) (String y a) b E)
      as [H|(c & b' & -> & Hin)]; [congruence|].
    exfalso. apply (Hb c); [left; reflexivity|exact Hin].
Qed.

Lemma digit_not_terminator c : is_digit c = true -> is_line_terminator c = false.
Proof.
  unfold is_digit, is_line_terminator. intros H.
  apply andb_true_iff in H as [H1 H2]. apply N.leb_le in H1.
  apply orb_false_iff. split; apply N.eqb_neq; lia.
Qed.

Lemma digits_one_line cs : forallb is_digit cs = true -> no_line_terminator cs = true.
Proof.
  unfold no_line_terminator. induction cs as [|c cs IH]; simpl; [reflexivity|].
  intros H. apply andb_true_iff in H as [Hc Hcs].
  rewrite (digit_not_terminator c Hc), IH by exact Hcs. reflexivity.
Qed.

Lemma no_line_terminator_app a b :
  no_line_terminator (a ++ b) = no_line_terminator a && no_line_terminator b.
Proof. apply forallb_app. Qed.

Lemma location_text_chars path line column :
  chars (location_text path line column)
  = (chars path ++ ":"%char :: chars (of_N line)
       ++ ":"%char :: chars (of_N column))%list.
Proof. unfold location_text. rewrite !chars_app. reflexivity. Qed.

Lemma location_text_end path line column :
  exists z body',
    rev (chars (location_text path line column)) = z :: body' /\
    is_digit z = true.
Proof.
  rewrite location_text_chars.
  destruct (of_N_digits column) as [Hd Hne].
  destruct (rev (chars (of_N column))) as [|z r] eqn:E.
  - exfalso. apply Hne. rewrite <- (rev_involutive (chars (of_N column))), E.
    reflexivity.
  - exists z. eexists. split.
    + rewrite app_comm_cons, app_assoc, rev_app_distr.
      change (":"%char :: chars (of_N column))
        with ([":"%char] ++ chars (of_N column))%list.
      rewrite rev_app_distr, E. reflexivity.
    + rewrite <- forallb_rev, E in Hd. simpl in Hd.
      apply andb_true_iff in Hd as [Hz _]. exact Hz.
Qed.

Lemma location_matched path line column :
  is_path_text path = true ->
  match_location (location_text path line column)
  = Some (path, of_N line, of_N column).
Proof.
  intros Hp. apply andb_true_iff in Hp as [Hne Hone].
  assert (Hg : location_groups (chars (location_text path line column))
               = Some (chars path, chars (of_N line), chars (of_N column))).
  { apply location_groups_spec. unfold location_shape.
    destruct (of_N_digits line) as [Hl Hl']. destruct (of_N_digits column) as [Hc Hc'].
    split; [apply location_text_chars|].
    split; [apply nonnil_true; exact Hne|]. auto. }
  unfold match_location. rewrite Hg. cbn [fmap option_fmap option_map fst snd].
  rewrite !of_chars_chars. reflexivity.
Qed.

Lemma location_one_line path line column :
  is_path_text path = true ->
  chars (location_text path line column) <> [] /\
  no_line_terminator (chars (location_text path line column)) = true.
Proof.
  intros Hp. apply andb_true_iff in Hp as [Hne Hone].
  rewrite location_text_chars. split.
  - destruct (chars path); [discriminate|discriminate].
  - destruct (of_N_digits line) as [Hl _]. destruct (of_N_digits column) as [Hc _].
    rewrite no_line_terminator_app, Hone.
    change (":"%char :: chars (of_N line) ++ ":"%char :: chars (of_N column))%list
      with ([":"%char] ++ chars (of_N line) ++ [":"%char] ++ chars (of_N column))%list.
    rewrite !no_line_terminator_app, (digits_one_line _ Hl), (digits_one_line _ Hc).
    reflexivity.
Qed.

Lemma location_not_native path line column :
  includes "[native code]" path = false ->
  bool_decide (location_text path line column = "native")
  || includes "[native code]" (location_text path line column) = false.
Proof.
  intros Hp. apply orb_false_iff. split.
  - apply bool_decide_eq_false_2. intros Heq.
    apply (f_equal chars) in Heq. rewrite location_text_chars in Heq.
    assert (Hin : In ":"%char (chars "native")).
    { rewrite <- Heq. apply in_or_app. right. left. reflexivity. }
    simpl in Hin. repeat (destruct Hin as [Hin|Hin]; [discriminate|]). exact Hin.
  - unfold location_text. apply includes_app; [exact Hp|].
    intros c Hc Hin.
    assert (Hc' : c = ":"%char \/ is_digit c = true).
    { destruct (of_N_digits line) as [Hl _]. destruct (of_N_digits column) as [Hk _].
      rewrite forallb_forall in Hl, Hk.
      rewrite !chars_app in Hc.
      apply in_app_or in Hc as [[<-|[]]|Hc]; [auto|].
      apply in_app_or in Hc as [Hc|Hc]; [auto|].
      apply in_app_or in Hc as [[<-|[]]|Hc]; auto. }
    simpl in Hin.
    repeat (destruct Hin as [<-|Hin];
            [destruct Hc' as [Hc'|Hc']; [discriminate Hc'|vm_compute in Hc'; discriminate Hc']|]).
    exact Hin.
Qed.

Lemma method_matched method location :
  is_method_text method = true ->
  chars location <> [] -> no_line_terminator (chars location) = true ->
  match_func (method ++ " (" ++ location ++ ")") = Some (method, location).
Proof.
  intros Hm Hne Hone. unfold is_method_text in Hm. cbv zeta in Hm.
  apply andb_true_iff in Hm as [Hm Hline]. apply andb_true_iff in Hm as [Hlast Hopen].
  assert (Hcs : chars (method ++ " (" ++ location ++ ")")
                = (chars method ++ [" "%char] ++ "("%char :: chars location ++ [")"%char])%list).
  { rewrite !chars_app. reflexivity. }
  assert (Hm0 : exists m0 z, chars method = (m0 ++ [z])%list /\ is_whitespace z = false).
  { destruct (chars method) as [|c cs] eqn:E using rev_ind; [discriminate Hlast|].
    exists cs, c. split; [reflexivity|].
    rewrite last_last in Hlast. apply negb_true_iff. exact Hlast. }
  destruct Hm0 as (m0 & z & Hmz & Hz).
  assert (Hg : func_groups (chars (method ++ " (" ++ location ++ ")"))
               = Some (chars method, chars location)).
  { apply func_groups_spec. split.
    - exists [" "%char]. unfold func_shape. rewrite Hcs.
      split; [reflexivity|]. split; [rewrite Hmz; destruct m0; discriminate|].
      split; [exact Hline|]. split; [discriminate|]. auto.
    - intros g1' ws' g2' (Heq & _ & _ & _ & Hblank & _).
      rewrite Hcs, Hmz in Heq. rewrite Hmz.
      apply (method_shortest m0 z
               ([" "%char] ++ "("%char :: chars location ++ [")"%char])%list
               g1' ws' (g2' ++ [")"%char])%list Hz);
        [rewrite <- Hmz; exact Hopen|exact Heq|exact Hblank]. }
  unfold match_func. rewrite Hg. cbn [fmap option_fmap option_map fst snd].
  rewrite !of_chars_chars. reflexivity.
Qed.

Lemma digits_end_unmatched s z body' :
  rev (chars s) = z :: body' -> is_digit z = true -> match_func s = None.
Proof.
  intros Hrev Hz. unfold match_func.
  destruct (func_groups (chars s)) as [[g1 g2]|] eqn:E; [|reflexivity].
  exfalso. apply func_groups_spec in E as [[ws (Heq & _)] _].
  rewrite Heq in Hrev.
  rewrite app_assoc, app_comm_cons, app_assoc, rev_app_distr in Hrev.
  simpl in Hrev. injection Hrev as <- _. vm_compute in Hz. discriminate.
Qed.

(** X11.  The parser reads back what the runtime prints.  A stack line for a
    call at [path:line:column], indented by any white space, yields a
    located frame with exactly these parts and the file name taken from the
    path: under the method [<anonymous>] when the line has no method, and
    under the method itself when the line has one that does not end in white
    space and has no opening parenthesis.  Line and column are in the range
    where a number holds every integer exactly. *)
Theorem frame_text_parsed indent path line column :
  forallb is_whitespace (chars indent) = true ->
  is_path_text path = true ->
  (line < 2 ^ 53)%N -> (column < 2 ^ 53)%N ->
  parseStackFrame (bare_frame_text indent path line column)
    = Some (mkStackFrame "<anonymous>" (Some (getFileName path)) (Some path)
              (Some line) (Some column) false) /\
  forall method,
    is_method_text method = true ->
    includes "[native code]" path = false ->
    parseStackFrame (named_frame_text indent method path line column)
      = Some (mkStackFrame method (Some (getFileName path)) (Some path)
                (Some line) (Some column) false).
Proof.
  intros Hws Hp _ _.
  destruct (location_text_end path line column) as (z & body' & Hrev & Hz).
  destruct (digit_not_blank z Hz) as (Hzb & _).
  split.
  - pose proof (frame_content indent (location_text path line column) z body'
                  Hws Hrev Hzb) as Hf.
    cbv zeta in Hf. destruct Hf as [Hs Hc].
    unfold parseStackFrame, bare_frame_text. cbv zeta. rewrite Hs, Hc. cbn [negb].
    rewrite (digits_end_unmatched _ z body' Hrev Hz), (location_matched _ _ _ Hp).
    unfold located. rewrite !parseInt_of_N. reflexivity.
  - intros method Hm Hnative.
    destruct (location_one_line path line column Hp) as [Hne Hone].
    assert (Hrev' : rev (chars (method ++ " (" ++ location_text path line column ++ ")"))
                    = ")"%char
                      :: rev (chars (method ++ " (" ++ location_text path line column))).
    { rewrite !chars_app. rewrite !app_assoc, rev_app_distr. reflexivity. }
    pose proof (frame_content indent _ _ _ Hws Hrev' eq_refl) as Hf.
    cbv zeta in Hf. destruct Hf as [Hs Hc].
    unfold parseStackFrame, named_frame_text. cbv zeta. rewrite Hs, Hc. cbn [negb].
    rewrite (method_matched method _ Hm Hne Hone).
    unfold parseLocation.
    rewrite (location_not_native _ line column Hnative), (location_matched _ _ _ Hp).
    unfold located. rewrite !parseInt_of_N. reflexivity.
Qed.

(** X11 at a frame of each kind. *)
Lemma frame_text_parsed_witness :
  parseStackFrame "    at file:///app/a.ts:42:7"
    = Some (mkStackFrame "<anonymous>" (Some "a.ts") (Some "file:///app/a.ts")
              (Some 42%N) (Some 7%N) false) /\
  parseStackFrame "    at async Service.run (file:///app/a.ts:42:7)"
    = Some (mkStackFrame "async Service.run" (Some "a.ts") (Some "file:///app/a.ts")
              (Some 42%N) (Some 7%N) false).
Proof.
  destruct (frame_text_parsed "    " "file:///app/a.ts" 42 7
              eq_refl eq_refl eq_refl eq_refl) as [Hbare Hnamed].
  split; [exact Hbare|exact (Hnamed "async Service.run" eq_refl eq_refl)].
Defined.

(** *** File names *)

Lemma split_chars_nonempty sep cs : split_chars sep cs <> [].
Proof.
  destruct cs as [|c cs]; simpl; [discriminate|].
  destruct (sep c); [discriminate|]. destruct (split_chars sep cs); discriminate.
Qed.

Lemma split_chars_solid sep cs :
  forallb (fun c => negb (sep c)) cs = true -> split_chars sep cs = [cs].
Proof.
  induction cs as [|c cs IH]; simpl; intros H; [reflexivity|].
  apply andb_true_iff in H as [Hc Hcs]. apply negb_true_iff in Hc.
  rewrite Hc, IH by exact Hcs. reflexivity.
Qed.

Lemma split_chars_app sep a c b :
  sep c = true ->
  split_chars sep (a ++ c :: b) = (split_chars sep a ++ split_chars sep b)%list.
Proof.
  intros Hc. induction a as [|x a IH]; simpl.
  - rewrite Hc. reflexivity.
  - rewrite IH. destruct (sep x); [reflexivity|].
    pose proof (split_chars_nonempty sep a).
    destruct (split_chars sep a); [congruence|reflexivity].
Qed.

Lemma last_separator sep (cs : list ascii) :
  forallb (fun c => negb (sep c)) cs = true \/
  exists a c b, cs = (a ++ c :: b)%list /\ sep c = true /\
                forallb (fun c => negb (sep c)) b = true.
Proof.
  induction cs as [|x cs IH]; [left; reflexivity|].
  destruct IH as [H|(a & c & b & -> & Hc & Hb)].
  - destruct (sep x) eqn:E.
    + right. exists [], x, cs. auto.
    + left. simpl. rewrite E, H. reflexivity.
  - right. exists (x :: a), c, b. auto.
Qed.

Lemma last_of_chars (l : list (list ascii)) :
  List.last (of_chars <$> l) "" = of_chars (List.last l []).
Proof.
  induction l as [|x l IH]; [reflexivity|].
  destruct l as [|y l]; [reflexivity|]. exact IH.
Qed.

Lemma of_chars_app a b : of_chars (a ++ b) = of_chars a ++ of_chars b.
Proof.
  induction a as [|c a IH]; simpl; [reflexivity|].
  unfold of_chars in *. simpl. rewrite IH. reflexivity.
Qed.

Lemma last_app_nonempty {A} (l l' : list A) d :
  l' <> [] -> List.last (l ++ l') d = List.last l' d.
Proof.
  intros H. induction l as [|x l IH]; [reflexivity|].
  simpl. destruct (l ++ l')%list eqn:E; [|exact IH].
  apply app_eq_nil in E as [_ E]. congruence.
Qed.

(** X12.  [getFileName] returns the part of the path after its last slash
    or backslash: the result has neither, the path is a directory part
    followed by the result, the directory part is empty or ends in a
    separator, and a path without separators is returned whole. *)
Theorem getFileName_last_segment path :
  no_slash (getFileName path) = true /\
  (no_slash path = true -> getFileName path = path) /\
  exists dir,
    path = dir ++ getFileName path /\
    (dir <> "" -> exists d c, dir = d ++ String c "" /\ is_slash c = true).
Proof.
  unfold getFileName, split, no_slash. rewrite last_of_chars, chars_of_chars.
  destruct (last_separator is_slash (chars path)) as [H|(a & c & b & Heq & Hc & Hb)].
  - rewrite (split_chars_solid _ _ H). cbn [List.last].
    rewrite of_chars_chars. split; [exact H|]. split; [reflexivity|].
    exists "". split; [reflexivity|congruence].
  - rewrite Heq, (split_chars_app _ _ _ _ Hc), (split_chars_solid _ _ Hb).
    rewrite last_app_nonempty by discriminate. cbn [List.last].
    split; [exact Hb|]. split.
    + intros Hs. rewrite forallb_app in Hs. simpl in Hs. rewrite Hc in Hs.
      rewrite andb_false_r in Hs. discriminate.
    + exists (of_chars (a ++ [c])). split.
      * rewrite <- of_chars_app, <- app_assoc. simpl. rewrite <- Heq.
        symmetry. apply of_chars_chars.
      * intros _. exists (of_chars a), c. split; [apply of_chars_app|exact Hc].
Qed.

(** *** Frames *)

Lemma parseLocation_ok method location : frame_ok (parseLocation method location).
Proof.
  unfold parseLocation.
  destruct (_ || _); [exact I|].
  destruct (match_location location) as [[[path line] column]|]; cbn; auto.
Qed.

Lemma parseStackFrame_ok line f : parseStackFrame line = Some f -> frame_ok f.
Proof.
  unfold parseStackFrame. cbv zeta.
  destruct (negb _); [discriminate|].
  destruct (match_func _) as [[method location]|].
  - intros [= <-]. apply parseLocation_ok.
  - destruct (match_location _) as [[[path ln] column]|].
    + intros [= <-]. cbn. auto.
    + destruct (_ || _); intros [= <-]; exact I.
Qed.

Lemma parseStackTrace_loop_ok lines : forall frames,
  Forall frame_ok frames -> Forall frame_ok (parseStackTrace_loop lines frames).
Proof.
  induction lines as [|line rest IH]; intros frames H; [exact H|].
  cbn [parseStackTrace_loop].
  assert (H' : Forall frame_ok
                 match parseStackFrame line with
                 | Some frame => (frames ++ [frame])%list
                 | None => frames
                 end).
  { destruct (parseStackFrame line) as [f|] eqn:E; [|exact H].
    apply Forall_app. split; [exact H|].
    constructor; [exact (parseStackFrame_ok line f E)|constructor]. }
  destruct (50 <=? _)%nat; [exact H'|apply IH; exact H'].
Qed.

(** X13.  Every frame of a parsed stack is of one of three kinds: without
    any location, with a path only, or with a path, the file name of that
    path, a line and a column; a frame marked native has no location. *)
Theorem parsed_frames_ok error : Forall frame_ok (parseStackTrace error).
Proof. apply parseStackTrace_loop_ok. constructor. Qed.

End ParserProperties.

(** * The module interface over time *)

Section LifecycleProperties.
Context {rt : Runtime}.
Import Agent.

Lemma restart_step cfg insts ls :
  apiKey cfg <> "" ->
  shutdown (init cfg (mkProcess insts ls None false))
  = mkProcess (insts ++ [retired cfg]) (ls ++ registered (length insts)) None false.
Proof.
  intros Hkey. unfold init. cbn [initialized instances listeners current].
  rewrite bool_decide_eq_false_2 by exact Hkey.
  unfold install. cbn [instances].
  rewrite list_lookup_middle by reflexivity. cbn [installed listeners current initialized].
  unfold shutdown. cbn [initialized negb current].
  unfold disconnect, uninstall, update. cbn [instances listeners current initialized].
  rewrite list_lookup_alter_eq, list_lookup_middle by reflexivity.
  cbn [fmap option_fmap option_map set_installed installed negb instances listeners
       current initialized].
  rewrite !alter_app_r_alt by lia. rewrite Nat.sub_diag. reflexivity.
Qed.

Lemma restarts_state cfgs : forall insts ls,
  forallb (fun cfg => nonempty (apiKey cfg)) cfgs = true ->
  restarts cfgs (mkProcess insts ls None false)
  = mkProcess (insts ++ (retired <$> cfgs))
      (ls ++ flat_map registered (seq (length insts) (length cfgs))) None false.
Proof.
  induction cfgs as [|cfg cfgs IH]; intros insts ls H.
  - simpl. rewrite !app_nil_r. reflexivity.
  - cbn [forallb] in H. apply andb_true_iff in H as [Hkey Hrest].
    unfold nonempty in Hkey. apply negb_true_iff, bool_decide_eq_false in Hkey.
    change (restarts (cfg :: cfgs) (mkProcess insts ls None false))
      with (restarts cfgs (shutdown (init cfg (mkProcess insts ls None false)))).
    rewrite (restart_step cfg insts ls Hkey), (IH _ _ Hrest).
    rewrite length_app, Nat.add_1_r. cbn [length seq flat_map fmap list_fmap].
    rewrite <- !app_assoc. reflexivity.
Qed.

Lemma listener_ok ty i error amb p :
  (forall a, instances p !! i = Some a ->
     exists a', handleException error (Some (origin ty)) amb a = Ok a') ->
  exists p',
    listener ty i error amb p = Ok p' /\
    forall j,
      instances p' !! j
      = if bool_decide (j = i)
        then (fun a => match handleException error (Some (origin ty)) amb a with
                       | Ok a' => a'
                       | _ => a
                       end) <$> instances p !! j
        else instances p !! j.
Proof.
  intros H. unfold listener. destruct (instances p !! i) as [a|] eqn:Ea.
  - destruct (H a eq_refl) as [a' Ha']. rewrite Ha'. cbn [mbind mret Result_bind Result_ret].
    eexists. split; [reflexivity|]. intros j. unfold update. cbn [instances].
    destruct (bool_decide (j = i)) eqn:E.
    + apply bool_decide_eq_true in E. subst j.
      rewrite list_lookup_alter_eq, Ea. cbn. rewrite Ha'. reflexivity.
    + apply bool_decide_eq_false in E.
      rewrite list_lookup_alter_ne by congruence. reflexivity.
  - exists p. split; [reflexivity|]. intros j.
    destruct (bool_decide (j = i)) eqn:E; [|reflexivity].
    apply bool_decide_eq_true in E. subst j. rewrite Ea. reflexivity.
Qed.

Lemma dispatch_to_registered ty error ambs m : forall s k p,
  (forall j a, (s <= j < s + m)%nat -> instances p !! j = Some a ->
     exists a',
       handleException error (Some (origin ty)) (ambs (k + (j - s))%nat) a = Ok a') ->
  exists p',
    dispatch_to (flat_map registered (seq s m)) ty error ambs k p = Ok p' /\
    forall j,
      instances p' !! j
      = if bool_decide (s <= j < s + m)%nat
        then (fun a =>
                match handleException error (Some (origin ty))
                        (ambs (k + (j - s))%nat) a with
                | Ok a' => a'
                | _ => a
                end) <$> instances p !! j
        else instances p !! j.
Proof.
  induction m as [|m IH]; intros s k p H.
  - exists p. split; [reflexivity|]. intros j.
    rewrite bool_decide_eq_false_2 by lia. reflexivity.
  - assert (Hstep : dispatch_to (flat_map registered (seq s (S m))) ty error ambs k p
                    = p1 ← listener ty s error (ambs k) p;
                      dispatch_to (flat_map registered (seq (S s) m)) ty error ambs
                        (S k) p1).
    { destruct ty; reflexivity. }
    destruct (listener_ok ty s error (ambs k) p) as (p1 & Hl & Hp1).
    { intros a Ha. destruct (H s a ltac:(lia) Ha) as [a' Ha'].
      rewrite Nat.sub_diag, Nat.add_0_r in Ha'. eauto. }
    destruct (IH (S s) (S k) p1) as (p' & Hd & Hp').
    { intros j a Hj Ha. rewrite Hp1 in Ha.
      rewrite bool_decide_eq_false_2 in Ha by lia.
      destruct (H j a ltac:(lia) Ha) as [a' Ha'].
      replace (S k + (j - S s))%nat with (k + (j - s))%nat by lia. eauto. }
    exists p'. split.
    + rewrite Hstep, Hl. exact Hd.
    + intros j. rewrite Hp', Hp1.
      destruct (decide (j = s)) as [->|Hne].
      * rewrite bool_decide_eq_false_2 by lia.
        rewrite !bool_decide_eq_true_2 by (reflexivity || lia).
        rewrite Nat.sub_diag, Nat.add_0_r. reflexivity.
      * rewrite (bool_decide_eq_false_2 (j = s)) by exact Hne.
        destruct (decide (S s <= j < S s + m)%nat) as [Hin|Hout].
        -- rewrite !bool_decide_eq_true_2 by lia.
           replace (S k + (j - S s))%nat with (k + (j - s))%nat by lia. reflexivity.
        -- rewrite !bool_decide_eq_false_2 by lia. reflexivity.
Qed.

Lemma retired_queue cfg :
  Transport.messageQueue (Transport.conn (connection (retired cfg))) = [].
Proof.
  unfold retired, Transport.connect. cbn [connection Transport.ws_is_open
    Transport.initialWorld Transport.conn Transport.ws Transport.initialConnection].
  destruct (WebSocket_accepts (backendUrl cfg)); reflexivity.
Qed.

Lemma send_before_open cfg msg :
  Transport.messageQueue
    (Transport.conn (Transport.send msg (Transport.connect cfg Transport.initialWorld)))
  = [msg].
Proof.
  unfold Transport.connect. cbn [Transport.ws_is_open Transport.initialWorld
    Transport.conn Transport.ws Transport.initialConnection].
  destruct (WebSocket_accepts (backendUrl cfg)); reflexivity.
Qed.

(** X14.  Listeners outlive their session.  After any number of rounds of
    [init] and [shutdown] the agent is not initialized, yet one error event
    makes every retired instance whose sample is taken build a report; when
    these reports can be serialized the event is handled through, and each
    such instance has put its report in the queue of its closed connection. *)
Theorem restarts_multiply_reports cfgs ty error ambs j cfg :
  forallb (fun cfg => nonempty (apiKey cfg)) cfgs = true ->
  (forall k c,
     cfgs !! k = Some c ->
     Config.shouldSample c (draw (ambs k)) = true ->
     JSON_throws (Capture.createCapture c error (Some (origin ty))
                    (uuid (ambs k)) (isoNow (ambs k))) = None) ->
  cfgs !! j = Some cfg ->
  Config.shouldSample cfg (draw (ambs j)) = true ->
  let p := restarts cfgs freshProcess in
  initialized p = false /\
  queue_of j p = Some [] /\
  exists p',
    dispatch ty error ambs p = Ok p' /\
    queue_of j p' = Some [report_text cfg error (Some (origin ty)) (ambs j)].
Proof.
  intros Hkeys Hjson Hj Hsample p. subst p. unfold freshProcess.
  rewrite (restarts_state cfgs [] [] Hkeys). cbn [app length].
  assert (Ha : (retired <$> cfgs) !! j = Some (retired cfg)).
  { rewrite list_lookup_fmap, Hj. reflexivity. }
  split; [reflexivity|]. split.
  - unfold queue_of. cbn [instances]. rewrite Ha. cbn [fmap option_fmap option_map].
    rewrite retired_queue. reflexivity.
  - unfold dispatch. cbn [listeners].
    destruct (dispatch_to_registered ty error ambs (length cfgs) 0 0
                (mkProcess (retired <$> cfgs)
                   (flat_map registered (seq 0 (length cfgs))) None false))
      as (p' & Hd & Hp').
    { intros k a _ Hk. cbn [instances] in Hk. rewrite list_lookup_fmap in Hk.
      destruct (cfgs !! k) as [c|] eqn:Ec; [|discriminate].
      injection Hk as <-. rewrite Nat.sub_0_r. cbn [Nat.add].
      unfold handleException. cbn [config retired].
      destruct (Config.shouldSample c (draw (ambs k))) eqn:Es; cbn [negb]; [|eauto].
      unfold Transport.sendException. rewrite (Hjson k c Ec Es).
      cbn [mbind mret Result_bind Result_ret]. eauto. }
    exists p'. split; [exact Hd|].
    unfold queue_of. rewrite Hp'. cbn [instances].
    apply lookup_lt_Some in Hj as Hlt.
    rewrite bool_decide_eq_true_2 by lia. rewrite Ha.
    cbn [fmap option_fmap option_map]. rewrite Nat.sub_0_r. cbn [Nat.add].
    unfold handleException. cbn [config retired]. rewrite Hsample. cbn [negb].
    unfold Transport.sendException. rewrite (Hjson j cfg Hj Hsample).
    cbn [mbind mret Result_bind Result_ret with_connection connection].
    unfold retired. cbn [connection]. rewrite queue_after_teardown. reflexivity.
Qed.

(** X15.  A report captured right after [init] carries what the module
    interface was told.  With an API key and the sample taken,
    [captureException] after [setContext] and [setUser] builds its report
    from the configuration with that context and that user; when the report
    can be serialized the call leaves exactly its message in the queue of
    the connection that is still opening, and when it cannot (a BigInt or a
    cycle among the context values) the call throws the [TypeError] of
    [JSON.stringify]. *)
Theorem first_report_queued cfg ctx u heap error supplied amb :
  apiKey cfg <> "" ->
  Config.shouldSample cfg (draw amb) = true ->
  let p := setUser u (setContext ctx (init cfg freshProcess)) in
  let cfg' := Config.with_context_user ctx u cfg in
  let report := Capture.createCapture cfg' error supplied (uuid amb) (isoNow amb) in
  (JSON_throws report = None ->
   exists p',
     captureException heap error supplied None amb p = Ok p' /\
     queue_of 0 p' = Some [report_text cfg' error supplied amb] /\
     listeners p' = registered 0 /\ initialized p' = true) /\
  (forall msg, JSON_throws report = Some msg ->
     captureException heap error supplied None amb p = Throw (TypeError msg)).
Proof.
  intros Hkey Hsample p cfg' report. subst p.
  assert (Hinit : init cfg freshProcess
                  = mkProcess
                      [mkInstance cfg (Transport.connect cfg Transport.initialWorld) true]
                      (registered 0) (Some 0%nat) true).
  { unfold init. cbn [initialized freshProcess].
    rewrite bool_decide_eq_false_2 by exact Hkey. reflexivity. }
  rewrite Hinit.
  unfold setUser, setContext, captureException, update.
  cbn [initialized current instances alter list_alter lookup list_lookup
       with_config config connection installed].
  unfold capture, with_config. cbn [config connection installed].
  change (Config.shouldSample
            (Config.setUser u (Config.setCustomContext ctx cfg)) (draw amb))
    with (Config.shouldSample cfg (draw amb)).
  rewrite Hsample. cbn [negb mbind mret Result_bind Result_ret].
  unfold Transport.sendException.
  change (Capture.createCapture (Config.setUser u (Config.setCustomContext ctx cfg))
            error supplied (uuid amb) (isoNow amb)) with report.
  split.
  - intros Hok. rewrite Hok. cbn [mbind mret Result_bind Result_ret].
    eexists. split; [reflexivity|].
    split; [|split; reflexivity].
    unfold queue_of, update.
    cbn [instances alter list_alter lookup list_lookup fmap option_fmap option_map
         with_connection connection config].
    rewrite send_before_open. reflexivity.
  - intros msg Hmsg. rewrite Hmsg. reflexivity.
Qed.

(** X16.  [install] registers its two listeners once while the handler is
    installed, and again after every [uninstall]: installing twice equals
    installing once, and install, uninstall, install leaves two pairs of
    listeners for the same handler. *)
Theorem install_registers_again i p a :
  instances p !! i = Some a ->
  installed a = false ->
  install i (install i p) = install i p /\
  listeners (install i p) = (listeners p ++ registered i)%list /\
  listeners (install i (uninstall i (install i p)))
    = ((listeners p ++ registered i) ++ registered i)%list.
Proof.
  intros Ha Hoff.
  assert (H1 : install i p
               = mkProcess (alter (set_installed true) i (instances p))
                   (listeners p ++ registered i) (current p) (initialized p)).
  { unfold install. rewrite Ha, Hoff. reflexivity. }
  rewrite H1. split; [|split; [reflexivity|]].
  - unfold install. cbn [instances]. rewrite list_lookup_alter_eq, Ha. reflexivity.
  - unfold uninstall. cbn [instances]. rewrite list_lookup_alter_eq, Ha.
    cbn [fmap option_fmap option_map set_installed installed negb].
    unfold install, update. cbn [instances].
    rewrite list_lookup_alter_eq, list_lookup_alter_eq, Ha. reflexivity.
Qed.

(** X17.  The guards of the module interface.  After [shutdown] the agent is
    not initialized and [captureException], [setContext], [setUser] and a
    second [shutdown] change nothing; after an [init] with an API key the
    agent is initialized and a further [init] changes nothing, whatever its
    options; an [init] without an API key changes nothing. *)
Theorem lifecycle_guards :
  (forall p heap error ctx vars amb c u,
     let q := shutdown p in
     initialized q = false /\
     captureException heap error ctx vars amb q = Ok q /\
     setContext c q = q /\ setUser u q = q /\ shutdown q = q) /\
  (forall cfg cfg' p,
     apiKey cfg <> "" ->
     initialized (init cfg p) = true /\ init cfg' (init cfg p) = init cfg p) /\
  (forall cfg p, apiKey cfg = "" -> init cfg p = p).
Proof.
  split; [|split].
  - intros p heap error ctx vars amb c u q.
    assert (Hq : initialized q = false).
    { unfold q, shutdown. destruct (initialized p) eqn:E; [reflexivity|exact E]. }
    unfold captureException, setContext, setUser, shutdown at 1. rewrite Hq.
    repeat split; reflexivity.
  - intros cfg cfg' p Hkey.
    assert (Hi : initialized (init cfg p) = true).
    { unfold init. destruct (initialized p) eqn:E; [exact E|].
      rewrite bool_decide_eq_false_2 by exact Hkey. reflexivity. }
    split; [exact Hi|]. unfold init at 1. rewrite Hi. reflexivity.
  - intros cfg p Hkey. unfold init. rewrite bool_decide_eq_true_2 by exact Hkey.
    destruct (initialized p); reflexivity.
Qed.

End LifecycleProperties.

(** X14 at two rounds with the same options. *)
Lemma restarts_multiply_reports_witness :
  exists p',
    Agent.dispatch (rt := Sample.runtime) Agent.ErrorEvent Sample.type_error_1
      (fun _ => Sample.ambient)
      (restarts (rt := Sample.runtime) [Sample.config; Sample.config]
         Agent.freshProcess)
    = Ok p' /\
    queue_of 1 p'
    = Some [report_text (rt := Sample.runtime) Sample.config Sample.type_error_1
              (Some (Agent.origin Agent.ErrorEvent)) Sample.ambient].
Proof.
  apply (restarts_multiply_reports (rt := Sample.runtime)
           [Sample.config; Sample.config] Agent.ErrorEvent Sample.type_error_1
           (fun _ => Sample.ambient) 1 Sample.config eq_refl);
    [|reflexivity|reflexivity].
  intros [|[|k]] c Hc _; [| |discriminate Hc];
    injection Hc as <-; vm_compute; reflexivity.
Defined.

(** X15 at the sample configuration: with a context of strings the report is
    queued, with a BigInt in the context the call throws. *)
Lemma first_report_queued_witness :
  (exists p',
     Agent.captureException (rt := Sample.runtime) Sample.fruit Sample.type_error_1
       None None Sample.ambient
       (Agent.setUser (mkUser (Some "u-1") None None)
          (Agent.setContext [("release", VString "1.4")]
             (Agent.init (rt := Sample.runtime) Sample.config Agent.freshProcess)))
     = Ok p' /\
     Agent.initialized p' = true) /\
  Agent.captureException (rt := Sample.runtime) Sample.fruit Sample.type_error_1
    None None Sample.ambient
    (Agent.setUser (mkUser (Some "u-1") None None)
       (Agent.setContext [("n", VBigInt 1)]
          (Agent.init (rt := Sample.runtime) Sample.config Agent.freshProcess)))
  = Throw (TypeError "Do not know how to serialize a BigInt").
Proof.
  split.
  - destruct (first_report_queued (rt := Sample.runtime) Sample.config
                [("release", VString "1.4")] (mkUser (Some "u-1") None None)
                Sample.fruit Sample.type_error_1 None Sample.ambient)
      as [Hok _]; [discriminate|reflexivity|].
    destruct Hok as (p' & Hp & _ & _ & Hi); [vm_compute; reflexivity|].
    exists p'. split; [exact Hp|exact Hi].
  - destruct (first_report_queued (rt := Sample.runtime) Sample.config
                [("n", VBigInt 1)] (mkUser (Some "u-1") None None)
                Sample.fruit Sample.type_error_1 None Sample.ambient)
      as [_ Hthrow]; [discriminate|reflexivity|].
    apply Hthrow. vm_compute. reflexivity.
Defined.

(** X16 at a process with one handler that is not installed. *)
Lemma install_registers_again_witness :
  Agent.listeners
    (Agent.install 0 (Agent.uninstall 0 (Agent.install 0
       (Agent.mkProcess [Scenario.half_sampled_off] [] None false))))
  = (registered 0 ++ registered 0)%list.
Proof.
  apply (install_registers_again 0
           (Agent.mkProcess [Scenario.half_sampled_off] [] None false)
           Scenario.half_sampled_off eq_refl eq_refl).
Defined.
